(** * ee.js: initialization controller, class generator and type promoter

    A shallow embedding of [javascript/src/ee.js].  The three stateful
    pieces of the file ([ee.initialize] with its two resolution handlers,
    [ee.reset], [ee.initializeGeneratedClasses_]) are written in a small
    state-and-exception monad over a record holding the module-level
    variables of the file; [ee.promote_] is a pure function over a model
    of JavaScript values.  Code that lives in other files of the library
    ([ee.data], [ee.ApiFunction], the hand-written proxy types) is
    represented by what this file observes of it: whether a call raises,
    and what it returns.

    The controller is written twice.  Module [Controller] takes the
    callers' callbacks as functions that return or raise and do nothing
    else to the library; its loops then run along the queue they find.
    Module [Reentrant] follows callbacks that call [ee.initialize] and
    [ee.reset] themselves: its loops read the queue anew at every turn, as
    the code does, and its runs are given a number of steps. *)

From Stdlib Require Import Ascii String ZArith.
From stdpp Require Import gmap strings list fin_maps pretty.

Open Scope string_scope.
Open Scope list_scope.

(** ** JavaScript string primitives used by the file *)

Module JS.

(** [s.indexOf('.')], with [None] for [-1]. *)
Fixpoint indexOf (c : ascii) (s : string) : option nat :=
  match s with
  | EmptyString => None
  | String a r => if Ascii.eqb a c then Some 0 else S <$> indexOf c r
  end.

(** [s.slice(0, n)]. *)
Fixpoint sliceTo (n : nat) (s : string) : string :=
  match n, s with
  | S k, String a r => String a (sliceTo k r)
  | _, _ => EmptyString
  end.

(** [.] in a regular expression matches everything but a line terminator:
    LF, CR, U+2028 and U+2029.  A string holds its text in UTF-8, in which
    the first two are one byte each ... *)
Definition isLineTerminator (a : ascii) : bool :=
  Ascii.eqb a "010" || Ascii.eqb a "013".

(** ... and the last two are the bytes E2 80 A8 and E2 80 A9. *)
Definition startsWithSeparator (s : string) : bool :=
  match s with
  | String a (String b (String c _)) =>
      Ascii.eqb a "226" && Ascii.eqb b "128"
      && (Ascii.eqb c "168" || Ascii.eqb c "169")
  | _ => false
  end.

(** A line terminator starts the string. *)
Definition atLineTerminator (s : string) : bool :=
  match s with
  | EmptyString => false
  | String a _ => isLineTerminator a || startsWithSeparator s
  end.

(** For the text that follows a ['<']: what is left after the last ['>'] of
    the same line, when there is one.  [.*] is greedy, so a later ['>'] wins
    over an earlier one. *)
Fixpoint afterLastGt (s : string) : option string :=
  match s with
  | EmptyString => None
  | String a r =>
      if atLineTerminator s then None
      else match afterLastGt r with
           | Some rest => Some rest
           | None => if Ascii.eqb a ">" then Some r else None
           end
  end.

(** [s.replace(/<.*>/, '')]: the leftmost match only. *)
Fixpoint stripTypeInfo (s : string) : string :=
  match s with
  | EmptyString => EmptyString
  | String a r =>
      if Ascii.eqb a "<"
      then match afterLastGt r with
           | Some rest => rest
           | None => String a (stripTypeInfo r)
           end
      else String a (stripTypeInfo r)
  end.

(** [s.split('.')]: never empty, [acc] is the segment being read. *)
Fixpoint splitAux (c : ascii) (acc : string) (s : string) : list string :=
  match s with
  | EmptyString => [acc]
  | String a r =>
      if Ascii.eqb a c then acc :: splitAux c EmptyString r
      else splitAux c (acc +:+ String a EmptyString) r
  end.

Definition split (c : ascii) (s : string) : list string :=
  splitAux c EmptyString s.

(** The keys a [for (k in array)] loop enumerates: the indices, as strings. *)
Definition arrayKeys {A} (l : list A) : list string :=
  (λ i : nat, pretty i) <$> seq 0 (length l).

(** An object used as a set of keys ([o[k] = true], [k in o], [delete o[k]],
    [for (k in o)]): its own keys, in insertion order.  The names that
    every object inherits from [Object.prototype] are not among them; the
    file tests a key of such a set only together with [k in exportedEE],
    which holds of every inherited name. *)
Definition setKey (k : string) (keys : list string) : list string :=
  if bool_decide (k ∈ keys) then keys else keys ++ [k].

Definition hasKey (k : string) (keys : list string) : bool :=
  bool_decide (k ∈ keys).

Definition deleteKey (k : string) (keys : list string) : list string :=
  filter (λ x, x ≠ k) keys.

(** The value of a decimal digit. *)
Definition digit (a : ascii) : option N :=
  let n := N_of_ascii a in
  if (48 <=? n)%N && (n <=? 57)%N then Some (n - 48)%N else None.

Fixpoint numeral (s : string) (acc : N) : option N :=
  match s with
  | EmptyString => Some acc
  | String a r =>
      match digit a with
      | Some d => numeral r (10 * acc + d)%N
      | None => None
      end
  end.

(** The number a key stands for when it is an array index: a decimal
    numeral without a leading zero, below [2^32 - 1]. *)
Definition arrayIndex (k : string) : option N :=
  match k with
  | EmptyString => None
  | String a r =>
      if Ascii.eqb a "0" && negb (String.eqb r "") then None
      else match numeral k 0 with
           | Some n => if (n <? 4294967295)%N then Some n else None
           | None => None
           end
  end.

Fixpoint insertIndex (n : N) (k : string) (l : list (N * string))
  : list (N * string) :=
  match l with
  | [] => [(n, k)]
  | (m, k') :: r =>
      if (n <? m)%N then (n, k) :: l else (m, k') :: insertIndex n k r
  end.

(** The order in which [for (k in o)] visits the keys of such a set: array
    indices first, in ascending order, then the other keys in insertion
    order. *)
Definition forIn (keys : list string) : list string :=
  (snd <$> foldr (λ k acc, match arrayIndex k with
                           | Some n => insertIndex n k acc
                           | None => acc
                           end) [] keys)
  ++ filter (λ k, arrayIndex k = None) keys.

End JS.

(** ** Errors and results *)

(** A thrown value; the file only ever builds [Error(message)]. *)
Inductive Error := JsError (message : string).

Inductive Result (A : Type) :=
| Ok (a : A)
| Throw (e : Error).
Arguments Ok {A} a.
Arguments Throw {A} e.

(** ** The module-level state of ee.js *)

(** [ee.InitState]. *)
Inductive InitState := NOT_READY | LOADING | READY.

#[global] Instance InitState_eq_dec : EqDecision InitState.
Proof. solve_decision. Defined.

Definition InitState_eqb (a b : InitState) : bool :=
  match a, b with
  | NOT_READY, NOT_READY | LOADING, LOADING | READY, READY => true
  | _, _ => false
  end.

(** The string each enum member stands for. *)
Definition InitState_value (s : InitState) : string :=
  match s with
  | NOT_READY => "not_ready"
  | LOADING => "loading"
  | READY => "ready"
  end.

(** [ee.TILE_SIZE]. *)
Definition TILE_SIZE : Z := 256.

(** Callbacks are the caller's functions.  One is known by an identifier
    and by whether it raises when it ends; what it does to the library
    while it runs, if anything, is given apart, by a script (module
    [Reentrant]). *)
Record SuccessCallback := { scId : nat; scRaises : option Error }.
Record ErrorCallback := { ecId : nat; ecRaises : Error → option Error }.

(** The hand-written proxy types with [initialize]/[reset] hooks, in the
    order the file calls them. *)
Inductive Hook :=
| HImage | HFeature | HCollection | HImageCollection | HFeatureCollection
| HFilter | HGeometry | HNumber | HString.

Definition hooks : list Hook :=
  [HImage; HFeature; HCollection; HImageCollection; HFeatureCollection;
   HFilter; HGeometry; HNumber; HString].

(** What the file reads of a signature. *)
Record Signature := { returns : string; hidden : bool }.

(** The signature catalog, in property order. *)
Definition Catalog := list (string * Signature).

(** Calls that leave this file, and callback invocations, in program order.
    [EvCallbackReturned] marks the normal return of a callback whose
    invocation is followed through its own calls into the library
    (module [Reentrant]). *)
Inductive Event :=
| EvSuccessCallback (id : nat)
| EvErrorCallback (id : nat) (e : Error)
| EvCallbackReturned (id : nat)
| EvDataInitialize (baseurl tileurl : option string)
| EvApiInitialize (asynchronous : bool)
| EvHookInitialize (h : Hook)
| EvImportApi (name : string)
| EvRegisterClasses
| EvUnboundFunctions
| EvDataReset
| EvApiReset
| EvHookReset (h : Hook)
| EvClearApi (name : string).

(** What the file tells apart on the exported [ee] namespace: a name made
    by [ee.makeClass_], and every other name.  The tag says where a name
    comes from, not what its value is. *)
Inductive ClassEntry := HandWritten | Generated.

(** A node of [ee.Algorithms]: a bound API function, or a plain namespace
    object, with its named properties. *)
#[warnings="-register-all"] Inductive AlgNode :=
| MkAlgNode (bound : option string) (children : list (string * AlgNode)).

Definition algBound (n : AlgNode) : option string :=
  match n with MkAlgNode b _ => b end.

Definition algChildren (n : AlgNode) : list (string * AlgNode) :=
  match n with MkAlgNode _ c => c end.

(** [exportedEE] holds the names that [name in exportedEE] finds, with
    their tag. *)
Record World := {
  ready_ : InitState;
  successCallbacks_ : list SuccessCallback;
  errorCallbacks_ : list ErrorCallback;
  generatedClasses_ : list string;
  exportedEE : gmap string ClassEntry;
  Algorithms : AlgNode;
  api_ : Catalog;
  trace : list Event
}.

(** What the collaborators do during one call into the library. *)
Record Env := {
  apiInitialize : Result Catalog;
  hookInitialize : Hook → option Error;
  importApi : string → option Error;
  unboundFunctions : Result Catalog
}.

(** *** Field updates *)

Definition set_ready (s : InitState) (w : World) : World :=
  {| ready_ := s; successCallbacks_ := successCallbacks_ w;
     errorCallbacks_ := errorCallbacks_ w;
     generatedClasses_ := generatedClasses_ w; exportedEE := exportedEE w;
     Algorithms := Algorithms w; api_ := api_ w; trace := trace w |}.

Definition set_successCallbacks (q : list SuccessCallback) (w : World) : World :=
  {| ready_ := ready_ w; successCallbacks_ := q;
     errorCallbacks_ := errorCallbacks_ w;
     generatedClasses_ := generatedClasses_ w; exportedEE := exportedEE w;
     Algorithms := Algorithms w; api_ := api_ w; trace := trace w |}.

Definition set_errorCallbacks (q : list ErrorCallback) (w : World) : World :=
  {| ready_ := ready_ w; successCallbacks_ := successCallbacks_ w;
     errorCallbacks_ := q;
     generatedClasses_ := generatedClasses_ w; exportedEE := exportedEE w;
     Algorithms := Algorithms w; api_ := api_ w; trace := trace w |}.

Definition set_generatedClasses (g : list string) (w : World) : World :=
  {| ready_ := ready_ w; successCallbacks_ := successCallbacks_ w;
     errorCallbacks_ := errorCallbacks_ w;
     generatedClasses_ := g; exportedEE := exportedEE w;
     Algorithms := Algorithms w; api_ := api_ w; trace := trace w |}.

Definition set_exportedEE (x : gmap string ClassEntry) (w : World) : World :=
  {| ready_ := ready_ w; successCallbacks_ := successCallbacks_ w;
     errorCallbacks_ := errorCallbacks_ w;
     generatedClasses_ := generatedClasses_ w; exportedEE := x;
     Algorithms := Algorithms w; api_ := api_ w; trace := trace w |}.

Definition set_Algorithms (a : AlgNode) (w : World) : World :=
  {| ready_ := ready_ w; successCallbacks_ := successCallbacks_ w;
     errorCallbacks_ := errorCallbacks_ w;
     generatedClasses_ := generatedClasses_ w; exportedEE := exportedEE w;
     Algorithms := a; api_ := api_ w; trace := trace w |}.

Definition set_api (c : Catalog) (w : World) : World :=
  {| ready_ := ready_ w; successCallbacks_ := successCallbacks_ w;
     errorCallbacks_ := errorCallbacks_ w;
     generatedClasses_ := generatedClasses_ w; exportedEE := exportedEE w;
     Algorithms := Algorithms w; api_ := c; trace := trace w |}.

Definition emit (ev : Event) (w : World) : World :=
  {| ready_ := ready_ w; successCallbacks_ := successCallbacks_ w;
     errorCallbacks_ := errorCallbacks_ w;
     generatedClasses_ := generatedClasses_ w; exportedEE := exportedEE w;
     Algorithms := Algorithms w; api_ := api_ w; trace := trace w ++ [ev] |}.

(** ** The state-and-exception monad *)

Definition M (A : Type) : Type := World → Result A * World.

Definition ret {A} (a : A) : M A := λ w, (Ok a, w).

Definition throw {A} (e : Error) : M A := λ w, (Throw e, w).

Definition bind {A B} (c : M A) (k : A → M B) : M B :=
  λ w, match c w with
       | (Ok a, w') => k a w'
       | (Throw e, w') => (Throw e, w')
       end.

(** [try { c } catch (e) { h(e) }]. *)
Definition tryCatch {A} (c : M A) (h : Error → M A) : M A :=
  λ w, match c w with
       | (Ok a, w') => (Ok a, w')
       | (Throw e, w') => h e w'
       end.

Definition get : M World := λ w, (Ok w, w).

Definition modify (f : World → World) : M unit := λ w, (Ok tt, f w).

(** A call out of the file that may raise. *)
Definition raising (r : option Error) : M unit :=
  match r with
  | Some e => throw e
  | None => ret tt
  end.

Definition lift {A} (r : Result A) : M A :=
  match r with
  | Ok a => ret a
  | Throw e => throw e
  end.

Declare Scope ee_scope.
Delimit Scope ee_scope with ee.
Notation "'let*' x ':=' c 'in' k" := (bind c (λ x, k))
  (at level 10, x name, c at level 100, k at level 200) : ee_scope.
Open Scope ee_scope.

(** [for (x of l) body(x)], stopping at the first exception. *)
Fixpoint forEach {A} (l : list A) (body : A → M unit) : M unit :=
  match l with
  | [] => ret tt
  | x :: r => let* _ := body x in forEach r body
  end.

(** ** The class generator *)

Module Generator.

(** The two key sets collected from the catalog by the first loop of
    [ee.initializeGeneratedClasses_]: namespace prefixes and bare return
    types. *)
Fixpoint collect (signatures : Catalog) (names returnTypes : list string)
  : list string * list string :=
  match signatures with
  | [] => (names, returnTypes)
  | (sig, s) :: rest =>
      let names' :=
        match JS.indexOf "." sig with
        | Some i => JS.setKey (JS.sliceTo i sig) names
        | None => names
        end in
      let rtype := JS.stripTypeInfo (returns s) in
      collect rest names' (JS.setKey rtype returnTypes)
  end.

(** [var blacklist = ['List']]. *)
Definition blacklist : list string := ["List"].

(** [for (var badName in blacklist) if (names[badName]) delete names[badName]]:
    [badName] ranges over the keys of the array. *)
Definition dropBlacklisted (names : list string) : list string :=
  foldl (λ acc badName,
           if JS.hasKey badName acc then JS.deleteKey badName acc else acc)
        names (JS.arrayKeys blacklist).

(** [ee.makeClass_(name)] as far as the world sees it: the new constructor
    inherits from [ee.ComputedObject] and gets the API of its namespace
    imported, which is a call out of the file. *)
Definition makeClass_ (env : Env) (name : string) : M ClassEntry :=
  let* _ := modify (emit (EvImportApi name)) in
  let* _ := raising (importApi env name) in
  ret Generated.

(** The body of the last loop, for one name. *)
Definition generateOne (env : Env) (returnTypes : list string) (name : string)
  : M unit :=
  let* w := get in
  if JS.hasKey name returnTypes && bool_decide (exportedEE w !! name = None)
  then
    let* cls := makeClass_ env name in
    let* _ := modify (λ w, set_exportedEE (<[name := cls]> (exportedEE w)) w) in
    modify (λ w, set_generatedClasses (generatedClasses_ w ++ [name]) w)
  else ret tt.

(** [ee.initializeGeneratedClasses_]. *)
Definition initializeGeneratedClasses_ (env : Env) : M unit :=
  let* w := get in
  let signatures := api_ w in
  let '(names, returnTypes) := collect signatures [] [] in
  let names := dropBlacklisted names in
  let* _ := forEach (JS.forIn names) (generateOne env returnTypes) in
  modify (emit EvRegisterClasses).

(** [ee.resetGeneratedClasses_]. *)
Definition resetGeneratedClasses_ : M unit :=
  let* w := get in
  let* _ := forEach (generatedClasses_ w) (λ name,
    let* _ := modify (emit (EvClearApi name)) in
    modify (λ w, set_exportedEE (delete name (exportedEE w)) w)) in
  let* _ := modify (set_generatedClasses []) in
  modify (emit EvRegisterClasses).

End Generator.

(** ** The unbound-method binder *)

Module Binder.

Fixpoint getChild (k : string) (cs : list (string * AlgNode)) : option AlgNode :=
  match cs with
  | [] => None
  | (k', n) :: r => if String.eqb k' k then Some n else getChild k r
  end.

Fixpoint setChild (k : string) (n : AlgNode) (cs : list (string * AlgNode))
  : list (string * AlgNode) :=
  match cs with
  | [] => [(k, n)]
  | (k', n') :: r =>
      if String.eqb k' k then (k, n) :: r else (k', n') :: setChild k n r
  end.

(** The walk down [ee.Algorithms] for one function: intermediate nodes are
    created when missing, the last part is overwritten with the bound
    function.  Assignments through [target] reach the tree itself, which
    the nested update writes out.  A node stands for its children only:
    the walk is that of the code for names none of whose parts is a
    property that objects and functions carry already ([__proto__],
    [constructor], [length], ...; see [View.ordinaryPath]). *)
Fixpoint attach (nameParts : list string) (fn : string) (target : AlgNode)
  : AlgNode :=
  match nameParts with
  | [] => target
  | [last] =>
      MkAlgNode (algBound target)
                (setChild last (MkAlgNode (Some fn) []) (algChildren target))
  | first :: rest =>
      let child :=
        match getChild first (algChildren target) with
        | Some c => c
        | None => MkAlgNode None []
        end in
      MkAlgNode (algBound target)
                (setChild first (attach rest fn child) (algChildren target))
  end.

(** The callback passed to [goog.object.forEach]. *)
Definition bindOne (name : string) (signature : Signature) : M unit :=
  if hidden signature then ret tt
  else modify (λ w, set_Algorithms (attach (JS.split "." name) name (Algorithms w)) w).

(** [ee.initializeUnboundMethods_]. *)
Definition initializeUnboundMethods_ (env : Env) : M unit :=
  let* _ := modify (emit EvUnboundFunctions) in
  let* fns := lift (unboundFunctions env) in
  forEach fns (λ '(name, signature), bindOne name signature).

End Binder.

(** ** The initialization controller *)

Module Controller.

(** Truthiness of an optional URL: [null], [undefined] and [''] are falsy. *)
Definition truthy (u : option string) : bool :=
  match u with
  | Some s => negb (String.eqb s "")
  | None => false
  end.

Definition usageError : Error :=
  JsError "Can't pass an error callback without a success callback.".

(** Invoking [opt_successCallback()] or a dequeued success callback. *)
Definition callSuccess (cb : SuccessCallback) : M unit :=
  let* _ := modify (emit (EvSuccessCallback (scId cb))) in
  raising (scRaises cb).

(** Invoking a dequeued error callback with [e]. *)
Definition callError (cb : ErrorCallback) (e : Error) : M unit :=
  let* _ := modify (emit (EvErrorCallback (ecId cb) e)) in
  raising (ecRaises cb e).

(** [while (ee.successCallbacks_.length > 0) ee.successCallbacks_.shift()();]
    for callbacks that leave the queue alone: the loop then runs along the
    queue [q] held by the world on entry.  The head is removed from the
    queue, then invoked, then the loop goes on. *)
Fixpoint drainSuccess (q : list SuccessCallback) : M unit :=
  match q with
  | [] => ret tt
  | cb :: rest =>
      let* _ := modify (set_successCallbacks rest) in
      let* _ := callSuccess cb in
      drainSuccess rest
  end.

(** [while (ee.errorCallbacks_.length > 0) ee.errorCallbacks_.shift()(e);] *)
Fixpoint drainError (e : Error) (q : list ErrorCallback) : M unit :=
  match q with
  | [] => ret tt
  | cb :: rest =>
      let* _ := modify (set_errorCallbacks rest) in
      let* _ := callError cb e in
      drainError e rest
  end.

(** [ee.initializationFailure_]. *)
Definition initializationFailure_ (e : Error) : M unit :=
  let* w := get in
  if negb (InitState_eqb (ready_ w) LOADING) then ret tt
  else
    let* _ := modify (set_ready NOT_READY) in
    let* _ := modify (set_successCallbacks []) in
    let* w := get in
    drainError e (errorCallbacks_ w).

(** The [initialize()] hooks of the hand-written types, in order. *)
Definition initializeHooks (env : Env) : M unit :=
  forEach hooks (λ h,
    let* _ := modify (emit (EvHookInitialize h)) in
    raising (hookInitialize env h)).

(** The body of the [try] block of [ee.initializationSuccess_]. *)
Definition bootstrap (env : Env) : M unit :=
  let* _ := initializeHooks env in
  let* _ := Generator.initializeGeneratedClasses_ env in
  Binder.initializeUnboundMethods_ env.

(** [ee.initializationSuccess_].  The [catch] clause returns from the
    function; [ok] tells the two ways out of the [try] statement apart. *)
Definition initializationSuccess_ (env : Env) : M unit :=
  let* w := get in
  if negb (InitState_eqb (ready_ w) LOADING) then ret tt
  else
    let* ok :=
      tryCatch
        (let* _ := bootstrap env in ret true)
        (λ e, let* _ := initializationFailure_ e in ret false) in
    if ok : bool then
      let* _ := modify (set_ready READY) in
      let* _ := modify (set_errorCallbacks []) in
      let* w := get in
      drainSuccess (successCallbacks_ w)
    else ret tt.

(** The synchronous [ee.ApiFunction.initialize()]: it raises, or the
    catalog is there afterwards. *)
Definition apiInitializeSync (env : Env) : M unit :=
  let* _ := modify (emit (EvApiInitialize false)) in
  let* c := lift (apiInitialize env) in
  modify (set_api c).

(** [ee.successCallbacks_.push(opt_successCallback)], reached only when
    the callback is there. *)
Definition pushSuccess (opt_successCallback : option SuccessCallback) : M unit :=
  match opt_successCallback with
  | Some cb => modify (λ w, set_successCallbacks (successCallbacks_ w ++ [cb]) w)
  | None => ret tt
  end.

(** [ee.initialize]. *)
Definition initialize (env : Env) (opt_baseurl opt_tileurl : option string)
    (opt_successCallback : option SuccessCallback)
    (opt_errorCallback : option ErrorCallback) : M unit :=
  let* w := get in
  if InitState_eqb (ready_ w) READY
     && negb (truthy opt_baseurl) && negb (truthy opt_tileurl)
  then
    match opt_successCallback with
    | Some cb => callSuccess cb
    | None => ret tt
    end
  else
    let isAsynchronous := bool_decide (is_Some opt_successCallback) in
    let* _ :=
      match opt_errorCallback with
      | Some ecb =>
          if isAsynchronous
          then modify (λ w, set_errorCallbacks (errorCallbacks_ w ++ [ecb]) w)
          else throw usageError
      | None => ret tt
      end in
    let* w := get in
    if InitState_eqb (ready_ w) LOADING && isAsynchronous
    then pushSuccess opt_successCallback
    else
      let* _ := modify (set_ready LOADING) in
      let* _ := modify (emit (EvDataInitialize opt_baseurl opt_tileurl)) in
      if isAsynchronous
      then
        let* _ := pushSuccess opt_successCallback in
        modify (emit (EvApiInitialize true))
      else
        tryCatch
          (let* _ := apiInitializeSync env in
           initializationSuccess_ env)
          (λ e, let* _ := initializationFailure_ e in throw e).

(** The test that guards the fast path of [ee.initialize]. *)
Definition fastPath (w : World) (b t : option string) : bool :=
  InitState_eqb (ready_ w) READY && negb (truthy b) && negb (truthy t).

(** The completion of an asynchronous signature load: [ee.ApiFunction] has
    the catalog and calls the success handler it was given. *)
Definition loadSucceeded (env : Env) (c : Catalog) : M unit :=
  let* _ := modify (set_api c) in
  initializationSuccess_ env.

(** ... or the load failed and it calls the failure handler. *)
Definition loadFailed (e : Error) : M unit :=
  initializationFailure_ e.

(** [ee.reset]. *)
Definition reset : M unit :=
  let* _ := modify (set_ready NOT_READY) in
  let* _ := modify (emit EvDataReset) in
  let* _ := modify (emit EvApiReset) in
  let* _ := modify (set_api []) in
  let* _ := forEach hooks (λ h, modify (emit (EvHookReset h))) in
  let* _ := Generator.resetGeneratedClasses_ in
  modify (λ w, set_Algorithms (MkAlgNode (algBound (Algorithms w)) []) w).

(** [ee.ready]. *)
Definition ready (w : World) : InitState := ready_ w.

End Controller.

(** ** The type promoter *)

Module Promoter.

(** JavaScript values as [ee.promote_] tells them apart.  Numbers are the
    integers and [NaN]: the function only asks whether a value is a number
    and whether it is truthy.  A proxy is an object of one of the library's
    classes, with the [func] and [args] fields of [ee.ComputedObject]. *)
#[warnings="-register-all"] Inductive Value :=
| VNull
| VUndefined
| VBool (b : bool)
| VNumber (n : Z)
| VNaN
| VString (s : string)
| VDate (from : Value)
| VFunction (name : string)
| VProxy (cls : string) (func : Value) (args : list (string * Value)).

(** The [func] and [args] a constructor stores. *)
Record Node := { nodeFunc : Value; nodeArgs : list (string * Value) }.

(** A computed object returned by an API call: its class and its node. *)
Record Proxy := { proxyClass : string; proxyNode : Node }.

Definition ofNode (cls : string) (n : Node) : Value :=
  VProxy cls (nodeFunc n) (nodeArgs n).

Definition ofProxy (p : Proxy) : Value :=
  ofNode (proxyClass p) (proxyNode p).

(** The code of the other files that [ee.promote_] and the generated
    constructors call. *)
Record Platform := {
  (** the prototype chain between classes, by name: [inherits k c] when an
      instance of [k] is an instance of [c] *)
  inherits : string → string → bool;
  (** [new ee.<c>(arg)] for a hand-written class [c] *)
  construct : string → Value → Result Node;
  (** [ee.ApiFunction._call(name, args...)] *)
  apiCall : string → list Value → Result Proxy;
  (** whether [new ee.ApiFunction(name)] and [ee.ApiFunction.lookup(name)]
      raise; both give the function of that name otherwise *)
  apiFunctionNew : string → option Error;
  apiLookup : string → option Error;
  (** [func.nameArgs(args)] and [func.promoteArgs(args)] of a looked-up
      function *)
  nameArgs : string → list Value → list (string * Value);
  promoteArgs : string → list (string * Value) → Result (list (string * Value));
  (** [ee.Types.isString] and [ee.Types.isVarOfType] *)
  typesIsString : Value → bool;
  isVarOfType : Value → string → bool;
  (** [member in exportedEE[klass]], and what calling that member with no
      argument gives *)
  staticMember : string → string → option (Result Value)
}.

Definition bindR {A B} (r : Result A) (k : A → Result B) : Result B :=
  match r with
  | Ok a => k a
  | Throw e => Throw e
  end.

Notation "'let?' x ':=' c 'in' k" := (bindR c (λ x, k))
  (at level 10, x name, c at level 100, k at level 200) : ee_scope.

Definition isNull (v : Value) : bool :=
  match v with VNull => true | _ => false end.

Definition isDef (v : Value) : bool :=
  match v with VUndefined => false | _ => true end.

(** [goog.isString]. *)
Definition isString (v : Value) : bool :=
  match v with VString _ => true | _ => false end.

(** [goog.isNumber]. *)
Definition isNumber (v : Value) : bool :=
  match v with VNumber _ | VNaN => true | _ => false end.

(** Truthiness, as in [klass in exportedEE && arg]. *)
Definition truthy (v : Value) : bool :=
  match v with
  | VNull | VUndefined | VNaN => false
  | VBool b => b
  | VNumber n => negb (n =? 0)%Z
  | VString s => negb (String.eqb s "")
  | VDate _ | VFunction _ | VProxy _ _ _ => true
  end.

(** The library class a value is a direct instance of. *)
Definition classOf (v : Value) : option string :=
  match v with
  | VProxy c _ _ => Some c
  | VFunction _ => Some "ApiFunction"
  | _ => None
  end.

Definition fieldFunc (v : Value) : Value :=
  match v with VProxy _ f _ => f | _ => VUndefined end.

Definition fieldArgs (v : Value) : list (string * Value) :=
  match v with VProxy _ _ a => a | _ => [] end.

Section WithPlatform.

Variable P : Platform.
Variable exportedEE : gmap string ClassEntry.

(** [arg instanceof ee.<c>], [arg instanceof exportedEE[c]]. *)
Definition instanceOf (arg : Value) (c : string) : bool :=
  match classOf arg with
  | Some k => inherits P k c
  | None => false
  end.

(** [new ee.<c>(arg)] for a hand-written class. *)
Definition newHandWritten (c : string) (arg : Value) : Result Value :=
  let? n := construct P c arg in Ok (ofNode c n).

(** [ee.ApiFunction._call(name, args...)]. *)
Definition call (name : string) (args : list Value) : Result Value :=
  let? p := apiCall P name args in Ok (ofProxy p).

(** [new ee.ApiFunction(name)]. *)
Definition newApiFunction (name : string) : Result Value :=
  match apiFunctionNew P name with
  | Some e => Throw e
  | None => Ok (VFunction name)
  end.

(** [ee.ApiFunction.lookup(name)]. *)
Definition lookup (name : string) : Result Value :=
  match apiLookup P name with
  | Some e => Throw e
  | None => Ok (VFunction name)
  end.

(** The constructor [target] built by [ee.makeClass_(name)], invoked with
    [new] on [args] while [name] is registered. *)
Definition makeClassTarget (name : string) (args : list Value) : Result Value :=
  let? result :=
    match args with
    | [a] => if instanceOf a "ComputedObject" then Ok a else call name args
    | _ => call name args
    end in
  Ok (VProxy name (fieldFunc result) (fieldArgs result)).

(** [new exportedEE[klass](arg)]. *)
Definition newExported (klass : string) (arg : Value) : Result Value :=
  match exportedEE !! klass with
  | Some Generated => makeClassTarget klass [arg]
  | _ => newHandWritten klass arg
  end.

(** [klass in exportedEE]. *)
Definition exported (klass : string) : bool :=
  bool_decide (is_Some (exportedEE !! klass)).

(** The [default:] branch of the switch. *)
Definition promoteDefault (arg : Value) (klass : string) : Result Value :=
  if exported klass && truthy arg then
    if instanceOf arg klass then Ok arg
    else match arg with
         | VString s =>
             match staticMember P klass s with
             | None => Throw (JsError ("Unknown algorithm: " +:+ klass +:+ "." +:+ s))
             | Some r => r
             end
         | _ => newExported klass arg
         end
  else Ok arg.

(** [ee.promote_]. *)
Definition promote_ (arg : Value) (klass : string) : Result Value :=
  if isNull arg then Ok VNull
  else if negb (isDef arg) then Ok VUndefined
  else if String.eqb klass "Image" then newHandWritten "Image" arg
  else if String.eqb klass "ImageCollection" then newHandWritten "ImageCollection" arg
  else if String.eqb klass "Feature" || String.eqb klass "EEObject" then
    if instanceOf arg "Collection" then
      let? g := call "Collection.geometry" [arg] in call "Feature" [g]
    else if String.eqb klass "EEObject" && instanceOf arg "Image" then Ok arg
    else newHandWritten "Feature" arg
  else if String.eqb klass "Geometry" then
    if instanceOf arg "FeatureCollection" then call "Collection.geometry" [arg]
    else newHandWritten "Geometry" arg
  else if String.eqb klass "FeatureCollection" || String.eqb klass "EECollection"
          || String.eqb klass "Collection" then
    if instanceOf arg "Collection" then Ok arg
    else newHandWritten "FeatureCollection" arg
  else if String.eqb klass "Filter" then newHandWritten "Filter" arg
  else if String.eqb klass "ErrorMargin" then
    if isNumber arg then call "ErrorMargin" [arg; VString "meters"]
    else Ok arg
  else if String.eqb klass "Algorithm" then
    match arg with
    | VString s => newApiFunction s
    | _ => Ok arg
    end
  else if String.eqb klass "Date" then
    if isString arg then Ok (VDate arg)
    else if isNumber arg then Ok (VDate arg)
    else if instanceOf arg "ComputedObject" then
      let? func := lookup "Date" in
      let? args := promoteArgs P "Date" (nameArgs P "Date" [arg]) in
      Ok (VProxy "ComputedObject" func args)
    else Ok arg
  else if String.eqb klass "Dictionary" then
    if negb (exported klass) then Ok arg
    else if instanceOf arg klass then Ok arg
    else if instanceOf arg "ComputedObject" then newExported klass arg
    else Ok arg
  else if String.eqb klass "String" then
    if typesIsString P arg || instanceOf arg "String"
       || instanceOf arg "ComputedObject" || isVarOfType P arg "String"
    then newHandWritten "String" arg
    else Ok arg
  else if String.eqb klass "List" then Ok arg
  else promoteDefault arg klass.

End WithPlatform.

(** The type names with a [case] of their own in the switch. *)
Definition fixedNames : list string :=
  ["Image"; "ImageCollection"; "Feature"; "EEObject"; "Geometry";
   "FeatureCollection"; "EECollection"; "Collection"; "Filter";
   "ErrorMargin"; "Algorithm"; "Date"; "Dictionary"; "String"; "List"].

(** What the promoter needs of the other files to promote a promoted value
    to itself: instances of a class are instances of it, a hand-written
    constructor given an object of its own class copies [func] and [args],
    and features, geometries and feature collections sit in the class
    hierarchy where the library puts them. *)
Record Lawful (P : Platform) : Prop := {
  inherits_refl : ∀ c, inherits P c c = true;
  construct_copy : ∀ c f a,
    construct P c (VProxy c f a) = Ok {| nodeFunc := f; nodeArgs := a |};
  feature_not_collection : inherits P "Feature" "Collection" = false;
  geometry_not_featureCollection :
    inherits P "Geometry" "FeatureCollection" = false;
  featureCollection_is_collection :
    inherits P "FeatureCollection" "Collection" = true
}.

Definition isFixed (klass : string) : bool :=
  existsb (String.eqb klass) fixedNames.

(** The promotion left out of the idempotence statement: a computed object
    wrapped in a call of the [Date] algorithm. *)
Definition wrapsDate (P : Platform) (arg : Value) (klass : string) : bool :=
  String.eqb klass "Date" && instanceOf P arg "ComputedObject".

(** Three promotions hand back what an API call or a factory member
    returned.  [declared P arg klass result] says that this [result] is of
    the type the callee declares: a [Feature] for the [Feature] algorithm,
    a [Geometry] for [Collection.geometry], an instance of the class for
    one of its factory members. *)
Definition declared (P : Platform) (arg : Value) (klass : string)
    (result : Value) : Prop :=
  ((String.eqb klass "Feature" || String.eqb klass "EEObject")
     && instanceOf P arg "Collection" = true →
   classOf result = Some "Feature")
  ∧ (String.eqb klass "Geometry" && instanceOf P arg "FeatureCollection" = true →
     classOf result = Some "Geometry")
  ∧ (negb (isFixed klass) && isString arg = true →
     instanceOf P result klass = true).

End Promoter.

(** ** Runs of the controller *)

Module Run.

Import Controller.

(** What can happen to the controller: a call of one of the two exported
    functions, or the completion of an asynchronous signature load. *)
Inductive Step :=
| CallInitialize (env : Env) (opt_baseurl opt_tileurl : option string)
    (opt_successCallback : option SuccessCallback)
    (opt_errorCallback : option ErrorCallback)
| CallReset
| LoadSucceeded (env : Env) (c : Catalog)
| LoadFailed (e : Error).

Definition step (s : Step) : M unit :=
  match s with
  | CallInitialize env b t cb ecb => initialize env b t cb ecb
  | CallReset => reset
  | LoadSucceeded env c => loadSucceeded env c
  | LoadFailed e => loadFailed e
  end.

(** An exception unwinds to the caller; the next step finds the world as
    the failed one left it. *)
Definition exec (steps : list Step) (w : World) : World :=
  foldl (λ w s, (step s w).2) w steps.

(** Both queues are empty unless a load is under way. *)
Definition quiescent (w : World) : Prop :=
  ready_ w ≠ LOADING → successCallbacks_ w = [] ∧ errorCallbacks_ w = [].

Definition quietSuccess (cb : SuccessCallback) : Prop := scRaises cb = None.

Definition quietError (cb : ErrorCallback) : Prop := ∀ e, ecRaises cb e = None.

(** Steps whose callbacks return normally, with [ee.reset] kept away from
    a load under way. *)
Definition admissible (s : Step) (w : World) : Prop :=
  match s with
  | CallInitialize _ _ _ cb ecb =>
      (∀ c, cb = Some c → quietSuccess c) ∧ (∀ c, ecb = Some c → quietError c)
  | CallReset => ready_ w ≠ LOADING
  | LoadSucceeded _ _ | LoadFailed _ => True
  end.

(** The worlds that admissible steps lead to from [w0]. *)
Inductive Reachable (w0 : World) : World → Prop :=
| reach_start : Reachable w0 w0
| reach_step s w :
    Reachable w0 w → admissible s w → Reachable w0 (step s w).2.

(** Quiescent, and every queued callback returns normally. *)
Definition wellKept (w : World) : Prop :=
  quiescent w
  ∧ Forall quietSuccess (successCallbacks_ w)
  ∧ Forall quietError (errorCallbacks_ w).

(** The success callbacks invoked along a trace, in order. *)
Definition invokedSuccess (t : list Event) : list nat :=
  omap (λ ev, match ev with EvSuccessCallback i => Some i | _ => None end) t.

(** The error callbacks invoked along a trace, with their argument. *)
Definition invokedError (t : list Event) : list (nat * Error) :=
  omap (λ ev, match ev with EvErrorCallback i e => Some (i, e) | _ => None end) t.

(** Transport configurations and signature loads along a trace. *)
Definition isBootstrap (ev : Event) : bool :=
  match ev with
  | EvDataInitialize _ _ | EvApiInitialize _ => true
  | _ => false
  end.

Definition bootstraps (t : list Event) : list Event :=
  filter (λ ev, Is_true (isBootstrap ev)) t.

(** The callbacks a draining loop invokes: all of them up to and including
    the first that raises. *)
Fixpoint drained (q : list SuccessCallback) : list SuccessCallback :=
  match q with
  | [] => []
  | cb :: rest =>
      cb :: match scRaises cb with Some _ => [] | None => drained rest end
  end.

(** ... the callbacks it leaves in the queue ... *)
Fixpoint undrained (q : list SuccessCallback) : list SuccessCallback :=
  match q with
  | [] => []
  | cb :: rest =>
      match scRaises cb with Some _ => rest | None => undrained rest end
  end.

(** ... and how it ends. *)
Fixpoint drainOutcome (q : list SuccessCallback) : Result unit :=
  match q with
  | [] => Ok tt
  | cb :: rest =>
      match scRaises cb with Some e => Throw e | None => drainOutcome rest end
  end.

(** The same three for the error queue, drained with [e]. *)
Fixpoint drainedError (e : Error) (q : list ErrorCallback) : list ErrorCallback :=
  match q with
  | [] => []
  | cb :: rest =>
      cb :: match ecRaises cb e with Some _ => [] | None => drainedError e rest end
  end.

Fixpoint undrainedError (e : Error) (q : list ErrorCallback) : list ErrorCallback :=
  match q with
  | [] => []
  | cb :: rest =>
      match ecRaises cb e with Some _ => rest | None => undrainedError e rest end
  end.

Fixpoint drainErrorOutcome (e : Error) (q : list ErrorCallback) : Result unit :=
  match q with
  | [] => Ok tt
  | cb :: rest =>
      match ecRaises cb e with
      | Some e' => Throw e'
      | None => drainErrorOutcome e rest
      end
  end.

(** Several events, one after the other. *)
Definition emits (evs : list Event) (w : World) : World :=
  {| ready_ := ready_ w; successCallbacks_ := successCallbacks_ w;
     errorCallbacks_ := errorCallbacks_ w;
     generatedClasses_ := generatedClasses_ w; exportedEE := exportedEE w;
     Algorithms := Algorithms w; api_ := api_ w; trace := trace w ++ evs |}.

(** An event that is not a callback invocation. *)
Definition plain (ev : Event) : Prop :=
  match ev with
  | EvSuccessCallback _ | EvErrorCallback _ _ => False
  | _ => True
  end.

(** A computation that leaves the controller's state alone and invokes no
    callback. *)
Definition silent {A} (c : M A) : Prop :=
  ∀ w, ready_ (c w).2 = ready_ w
       ∧ successCallbacks_ (c w).2 = successCallbacks_ w
       ∧ errorCallbacks_ (c w).2 = errorCallbacks_ w
       ∧ invokedSuccess (trace (c w).2) = invokedSuccess (trace w)
       ∧ invokedError (trace (c w).2) = invokedError (trace w).

(** A batch of asynchronous [ee.initialize] calls, one after the other. *)
Record AsyncCall := {
  acBaseurl : option string;
  acTileurl : option string;
  acSuccess : SuccessCallback;
  acError : option ErrorCallback
}.

Definition asyncCalls (env : Env) (calls : list AsyncCall) : M unit :=
  forEach calls (λ c,
    initialize env (acBaseurl c) (acTileurl c) (Some (acSuccess c)) (acError c)).

End Run.

(** ** Callbacks that call back into the library *)

Module Reentrant.

(** A callback is a function of the caller: while it runs it may call
    [ee.initialize] and [ee.reset] itself, look at [ee.ready()], go on
    according to what it finds (a call that raised may be caught), and
    raise.  A [Script] is that course of calls. *)
Inductive Script :=
| Done
| Raise (e : Error)
| Initialize (env : Env) (opt_baseurl opt_tileurl : option string)
    (opt_successCallback : option SuccessCallback)
    (opt_errorCallback : option ErrorCallback)
    (next : Result unit → Script)
| Reset (next : Script)
| Ready (next : InitState → Script).

(** The scripts of the callers' functions, by identifier.  The flag
    [scRaises] (or [ecRaises]) of a callback tells how it ends once its
    script is through. *)
Record Callbacks := {
  successScript : nat → Script;
  errorScript : nat → Error → Script
}.

(** A callback can register a callback that registers it again, and the
    draining loops go on for as long as the queue is not empty: a run may
    not come to an end.  A computation is given a number of steps and
    yields nothing when they do not suffice. *)
Definition F (A : Type) : Type := World → option (Result A * World).

Definition retF {A} (a : A) : F A := λ w, Some (Ok a, w).

Definition throwF {A} (e : Error) : F A := λ w, Some (Throw e, w).

Definition bindF {A B} (c : F A) (k : A → F B) : F B :=
  λ w, match c w with
       | Some (Ok a, w') => k a w'
       | Some (Throw e, w') => Some (Throw e, w')
       | None => None
       end.

Definition tryCatchF {A} (c : F A) (h : Error → F A) : F A :=
  λ w, match c w with
       | Some (Ok a, w') => Some (Ok a, w')
       | Some (Throw e, w') => h e w'
       | None => None
       end.

(** The caller's view of a call: how it ended. *)
Definition attempt {A} (c : F A) : F (Result A) :=
  λ w, match c w with
       | Some (r, w') => Some (Ok r, w')
       | None => None
       end.

(** A computation that needs no step of its own. *)
Definition liftF {A} (c : M A) : F A := λ w, Some (c w).

Notation "'let!' x ':=' c 'in' k" := (bindF c (λ x, k))
  (at level 10, x name, c at level 100, k at level 200) : ee_scope.

(** Where the code loops or hands control to a callback. *)
Inductive Call :=
| CDrainSuccess
| CDrainError (e : Error)
| CScript (s : Script).

Section Bodies.

Variable cbs : Callbacks.

(** The same calls, with one step less to go. *)
Variable self : Call → F unit.

(** Invoking [opt_successCallback()] or a dequeued success callback: the
    function runs its script, then returns or raises. *)
Definition callSuccess (cb : SuccessCallback) : F unit :=
  let! _ := liftF (modify (emit (EvSuccessCallback (scId cb)))) in
  let! _ := self (CScript (successScript cbs (scId cb))) in
  let! _ := liftF (raising (scRaises cb)) in
  liftF (modify (emit (EvCallbackReturned (scId cb)))).

(** Invoking a dequeued error callback with [e]. *)
Definition callError (cb : ErrorCallback) (e : Error) : F unit :=
  let! _ := liftF (modify (emit (EvErrorCallback (ecId cb) e))) in
  let! _ := self (CScript (errorScript cbs (ecId cb) e)) in
  let! _ := liftF (raising (ecRaises cb e)) in
  liftF (modify (emit (EvCallbackReturned (ecId cb)))).

(** One turn of
    [while (ee.successCallbacks_.length > 0) ee.successCallbacks_.shift()();]
    and then the loop again: the queue is read anew at every turn. *)
Definition drainSuccess : F unit :=
  let! w := liftF get in
  match successCallbacks_ w with
  | [] => retF tt
  | cb :: rest =>
      let! _ := liftF (modify (set_successCallbacks rest)) in
      let! _ := callSuccess cb in
      self CDrainSuccess
  end.

(** [while (ee.errorCallbacks_.length > 0) ee.errorCallbacks_.shift()(e);] *)
Definition drainError (e : Error) : F unit :=
  let! w := liftF get in
  match errorCallbacks_ w with
  | [] => retF tt
  | cb :: rest =>
      let! _ := liftF (modify (set_errorCallbacks rest)) in
      let! _ := callError cb e in
      self (CDrainError e)
  end.

(** [ee.initializationFailure_]. *)
Definition initializationFailure_ (e : Error) : F unit :=
  let! w := liftF get in
  if negb (InitState_eqb (ready_ w) LOADING) then retF tt
  else
    let! _ := liftF (modify (set_ready NOT_READY)) in
    let! _ := liftF (modify (set_successCallbacks [])) in
    drainError e.

(** [ee.initializationSuccess_]. *)
Definition initializationSuccess_ (env : Env) : F unit :=
  let! w := liftF get in
  if negb (InitState_eqb (ready_ w) LOADING) then retF tt
  else
    let! ok :=
      tryCatchF
        (let! _ := liftF (Controller.bootstrap env) in retF true)
        (λ e, let! _ := initializationFailure_ e in retF false) in
    if ok : bool then
      let! _ := liftF (modify (set_ready READY)) in
      let! _ := liftF (modify (set_errorCallbacks [])) in
      drainSuccess
    else retF tt.

(** [ee.initialize]. *)
Definition initialize (env : Env) (opt_baseurl opt_tileurl : option string)
    (opt_successCallback : option SuccessCallback)
    (opt_errorCallback : option ErrorCallback) : F unit :=
  let! w := liftF get in
  if InitState_eqb (ready_ w) READY
     && negb (Controller.truthy opt_baseurl)
     && negb (Controller.truthy opt_tileurl)
  then
    match opt_successCallback with
    | Some cb => callSuccess cb
    | None => retF tt
    end
  else
    let isAsynchronous := bool_decide (is_Some opt_successCallback) in
    let! _ :=
      match opt_errorCallback with
      | Some ecb =>
          if isAsynchronous
          then liftF (modify (λ w, set_errorCallbacks (errorCallbacks_ w ++ [ecb]) w))
          else throwF Controller.usageError
      | None => retF tt
      end in
    let! w := liftF get in
    if InitState_eqb (ready_ w) LOADING && isAsynchronous
    then liftF (Controller.pushSuccess opt_successCallback)
    else
      let! _ := liftF (modify (set_ready LOADING)) in
      let! _ := liftF (modify (emit (EvDataInitialize opt_baseurl opt_tileurl))) in
      if isAsynchronous
      then
        let! _ := liftF (Controller.pushSuccess opt_successCallback) in
        liftF (modify (emit (EvApiInitialize true)))
      else
        tryCatchF
          (let! _ := liftF (Controller.apiInitializeSync env) in
           initializationSuccess_ env)
          (λ e, let! _ := initializationFailure_ e in throwF e).

(** The completion of an asynchronous signature load. *)
Definition loadSucceeded (env : Env) (c : Catalog) : F unit :=
  let! _ := liftF (modify (set_api c)) in
  initializationSuccess_ env.

Definition loadFailed (e : Error) : F unit :=
  initializationFailure_ e.

(** One step of a callback. *)
Definition script (s : Script) : F unit :=
  match s with
  | Done => retF tt
  | Raise e => throwF e
  | Initialize env b t cb ecb next =>
      let! r := attempt (initialize env b t cb ecb) in
      self (CScript (next r))
  | Reset next =>
      let! _ := liftF Controller.reset in
      self (CScript next)
  | Ready next =>
      let! w := liftF get in
      self (CScript (next (Controller.ready w)))
  end.

(** A batch of asynchronous [ee.initialize] calls, one after the other. *)
Fixpoint asyncCalls (env : Env) (calls : list Run.AsyncCall) : F unit :=
  match calls with
  | [] => retF tt
  | c :: rest =>
      let! _ := initialize env (Run.acBaseurl c) (Run.acTileurl c)
                  (Some (Run.acSuccess c)) (Run.acError c) in
      asyncCalls env rest
  end.

Definition body (c : Call) : F unit :=
  match c with
  | CDrainSuccess => drainSuccess
  | CDrainError e => drainError e
  | CScript s => script s
  end.

End Bodies.

(** The loops and the callbacks, followed for at most [fuel] steps. *)
Fixpoint run (cbs : Callbacks) (fuel : nat) (c : Call) : F unit :=
  match fuel with
  | O => λ _, None
  | S n => body cbs (run cbs n) c
  end.

(** A script that lets an exception of its last call through. *)
Definition finish (r : Result unit) : Script :=
  match r with
  | Ok _ => Done
  | Throw e => Raise e
  end.

(** A script without a call of [ee.initialize]. *)
Fixpoint noInitialize (s : Script) : Prop :=
  match s with
  | Done | Raise _ => True
  | Initialize _ _ _ _ _ _ => False
  | Reset next => noInitialize next
  | Ready next => ∀ st, noInitialize (next st)
  end.

(** A script whose calls of [ee.initialize] are all synchronous: none of
    them passes a success callback. *)
Fixpoint synchronous (s : Script) : Prop :=
  match s with
  | Done | Raise _ => True
  | Initialize _ _ _ cb _ next => cb = None ∧ ∀ r, synchronous (next r)
  | Reset next => synchronous next
  | Ready next => ∀ st, synchronous (next st)
  end.

(** Every callback has a script of that kind. *)
Definition every (good : Script → Prop) (cbs : Callbacks) : Prop :=
  (∀ i, good (successScript cbs i)) ∧ (∀ i e, good (errorScript cbs i e)).

(** Callbacks that do not call back into the library. *)
Definition plainCallbacks : Callbacks :=
  {| successScript := λ _, Done; errorScript := λ _ _, Done |}.

(** The events of a callback: its invocation and its return. *)
Definition isInvocation (ev : Event) : bool :=
  match ev with
  | EvSuccessCallback _ | EvErrorCallback _ _ | EvCallbackReturned _ => true
  | _ => false
  end.

(** The invocations and returns of callbacks along a trace. *)
Definition invocations (t : list Event) : list Event :=
  filter (λ ev, Is_true (isInvocation ev)) t.

(** A success callback invoked and returning, with nothing in between. *)
Definition bracket (cb : SuccessCallback) : list Event :=
  [EvSuccessCallback (scId cb); EvCallbackReturned (scId cb)].

(** [d] yields what [c] yields, and maybe more. *)
Definition leF {A} (c d : F A) : Prop := ∀ w x, c w = Some x → d w = Some x.

Definition below (f g : Call → F unit) : Prop := ∀ c, leF (f c) (g c).

(** The trace of [w'] continues that of [w]. *)
Definition extends (w w' : World) : Prop := ∃ evs, trace w' = trace w ++ evs.

(** [w'] has the queues of [w], and no callback was invoked or returned
    on the way. *)
Definition aside (w w' : World) : Prop :=
  successCallbacks_ w' = successCallbacks_ w
  ∧ errorCallbacks_ w' = errorCallbacks_ w
  ∧ ∃ evs, trace w' = trace w ++ evs ∧ invocations evs = [].

(** No load is left under way, and a queue that was empty is still empty
    with none of its callbacks invoked. *)
Definition settled (w w' : World) : Prop :=
  ready_ w' ≠ LOADING
  ∧ (successCallbacks_ w = [] →
       successCallbacks_ w' = []
       ∧ Run.invokedSuccess (trace w') = Run.invokedSuccess (trace w))
  ∧ (errorCallbacks_ w = [] →
       errorCallbacks_ w' = []
       ∧ Run.invokedError (trace w') = Run.invokedError (trace w)).

(** A loop, or a script all of whose calls of [ee.initialize] are
    synchronous. *)
Definition orderly (c : Call) : Prop :=
  match c with
  | CScript s => synchronous s
  | _ => True
  end.

(** Runs that only add to the trace and, started outside [LOADING], end
    settled. *)
Definition Settling (self : Call → F unit) : Prop :=
  ∀ c w r w', orderly c → self c w = Some (r, w') →
    extends w w' ∧ (ready_ w ≠ LOADING → settled w w').

(** A script whose calls of [ee.initialize] are all asynchronous: each of
    them passes a success callback. *)
Fixpoint asynchronous (s : Script) : Prop :=
  match s with
  | Done | Raise _ => True
  | Initialize _ _ _ cb _ next => is_Some cb ∧ ∀ r, asynchronous (next r)
  | Reset next => asynchronous next
  | Ready next => ∀ st, asynchronous (next st)
  end.

(** The success queue of [w'] is that of [w] with callbacks added at the
    back: none was taken from it. *)
Definition appended (w w' : World) : Prop :=
  ∃ pushed, successCallbacks_ w' = successCallbacks_ w ++ pushed.

(** Scripts that only add to the success queue and to the trace. *)
Definition Queueing (self : Call → F unit) : Prop :=
  ∀ s w r w', asynchronous s → self (CScript s) w = Some (r, w') →
    appended w w' ∧ extends w w'.

End Reentrant.

(** ** A concrete library state, catalog and platform *)

Module Sample.

Import Promoter.

(** The names that [in] finds on every object, inherited from
    [Object.prototype]. *)
Definition inheritedNames : list string :=
  ["constructor"; "__proto__"; "hasOwnProperty"; "isPrototypeOf";
   "propertyIsEnumerable"; "toLocaleString"; "toString"; "valueOf";
   "__defineGetter__"; "__defineSetter__"; "__lookupGetter__";
   "__lookupSetter__"].

(** The names on the [ee] namespace once the file is loaded: the required
    modules and the file's own definitions. *)
Definition ownNames : list string :=
  ["ApiFunction"; "Collection"; "ComputedObject"; "Feature";
   "FeatureCollection"; "Filter"; "Function"; "Geometry"; "Image";
   "ImageCollection"; "Number"; "String"; "Types"; "data";
   "Algorithms"; "InitState"; "initialize"; "reset"; "ready_";
   "successCallbacks_"; "errorCallbacks_"; "TILE_SIZE"; "generatedClasses_";
   "ready"; "call"; "apply"; "initializationSuccess_";
   "initializationFailure_"; "promote_"; "initializeUnboundMethods_";
   "initializeGeneratedClasses_"; "resetGeneratedClasses_"; "makeClass_"].

(** What [name in exportedEE] answers yes to at that point. *)
Definition initialNames : list string := ownNames ++ inheritedNames.

(** The state right after the file is loaded. *)
Definition initialWorld : World :=
  {| ready_ := NOT_READY;
     successCallbacks_ := [];
     errorCallbacks_ := [];
     generatedClasses_ := [];
     exportedEE := list_to_map ((λ n, (n, HandWritten)) <$> initialNames);
     Algorithms := MkAlgNode None [];
     api_ := [];
     trace := [] |}.

Definition sig (r : string) : Signature := {| returns := r; hidden := false |}.

(** A catalog in which [List] is both a namespace and a return type. *)
Definition catalog : Catalog :=
  [("List.sequence", sig "List<Object>");
   ("Kernel.gaussian", sig "Kernel");
   ("Landsat.simpleComposite", sig "Image")].

(** Every collaborator succeeds. *)
Definition envOk : Env :=
  {| apiInitialize := Ok catalog;
     hookInitialize := λ _, None;
     importApi := λ _, None;
     unboundFunctions := Ok [("Landsat.simpleComposite", sig "Image")] |}.

Definition hookError : Error := JsError "ee.Filter.initialize failed".

(** The signature load succeeds and [ee.Filter.initialize()] raises. *)
Definition envHookFails : Env :=
  {| apiInitialize := Ok catalog;
     hookInitialize := λ h, match h with HFilter => Some hookError | _ => None end;
     importApi := λ _, None;
     unboundFunctions := Ok [] |}.

(** Three unbound functions, the last one hidden. *)
Definition unbound : Catalog :=
  [("Landsat.simpleComposite", sig "Image");
   ("Landsat.TOA", sig "Image");
   ("Internal.debug", {| returns := "Object"; hidden := true |})].

Definition envUnbound : Env :=
  {| apiInitialize := Ok [];
     hookInitialize := λ _, None;
     importApi := λ _, None;
     unboundFunctions := Ok unbound |}.

Definition loadError : Error := JsError "signature load failed".

(** The signature load raises. *)
Definition envLoadFails : Env :=
  {| apiInitialize := Throw loadError;
     hookInitialize := λ _, None;
     importApi := λ _, None;
     unboundFunctions := Ok [] |}.

Definition onSuccess (i : nat) : SuccessCallback :=
  {| scId := i; scRaises := None |}.

Definition onError (i : nat) : ErrorCallback :=
  {| ecId := i; ecRaises := λ _, None |}.

(** A success callback that raises. *)
Definition failingOnSuccess (i : nat) : SuccessCallback :=
  {| scId := i; scRaises := Some (JsError "callback failed") |}.

Definition endpoint : option string := Some "https://earthengine.example/api".

(** The class hierarchy of the library: collections of images and of
    features are collections, functions stand apart, everything else is a
    computed object. *)
Definition parent (k : string) : option string :=
  if String.eqb k "ImageCollection" || String.eqb k "FeatureCollection"
  then Some "Collection"
  else if String.eqb k "ApiFunction" then Some "Function"
  else if String.eqb k "ComputedObject" || String.eqb k "Function" then None
  else Some "ComputedObject".

Definition sampleInherits (k c : string) : bool :=
  String.eqb k c
  || match parent k with
     | Some p =>
         String.eqb p c
         || match parent p with Some g => String.eqb g c | None => false end
     | None => false
     end.

(** A class is a function object: besides its factory members it carries
    the properties of every function, and calling one of those with no
    argument raises a [TypeError]. *)
Definition functionProperties : list string :=
  ["length"; "name"; "prototype"; "call"; "apply"; "bind"].

Definition notCallable : Error := JsError "TypeError: not a function".

(** The class of what an algorithm returns: its declared return type when
    the library has a class of that name, a plain computed object
    otherwise. *)
Definition returnClass (name : string) : string :=
  if String.eqb name "Feature" then "Feature"
  else if String.eqb name "Collection.geometry" then "Geometry"
  else "ComputedObject".

(** A platform that builds its objects symbolically: a constructor copies
    the node of a proxy and wraps anything else, an API call yields an
    object of the declared class holding its arguments by position. *)
Definition symbolic : Platform :=
  {| inherits := sampleInherits;
     construct := λ c arg,
       match arg with
       | VProxy _ f a => Ok {| nodeFunc := f; nodeArgs := a |}
       | _ => Ok {| nodeFunc := VFunction c; nodeArgs := [("value", arg)] |}
       end;
     apiCall := λ name args,
       Ok {| proxyClass := returnClass name;
             proxyNode := {| nodeFunc := VFunction name;
                             nodeArgs := zip (JS.arrayKeys args) args |} |};
     apiFunctionNew := λ _, None;
     apiLookup := λ _, None;
     nameArgs := λ _ args, zip ["value"; "timeZone"] args;
     promoteArgs := λ _ args, Ok args;
     typesIsString := isString;
     isVarOfType := λ _ _, false;
     staticMember := λ klass member,
       if String.eqb klass "Kernel" && String.eqb member "gaussian"
       then Some (Ok (VProxy "Kernel" (VFunction "Kernel.gaussian") []))
       else if bool_decide (member ∈ functionProperties)
       then Some (Throw notCallable)
       else None |}.

(** A namespace on which [ee.Kernel] has been generated. *)
Definition withKernel : gmap string ClassEntry :=
  <["Kernel" := Generated]> (exportedEE initialWorld).

(** Some computed object. *)
Definition computed : Value :=
  VProxy "ComputedObject" (VFunction "Image.date") [].

(** Callers' functions that call back into the library.  Success callback
    1 of [nested] calls [ee.initialize(endpoint)], synchronously. *)
Definition nested : Reentrant.Callbacks :=
  {| Reentrant.successScript := λ i,
       if Nat.eqb i 1
       then Reentrant.Initialize envOk endpoint None None None Reentrant.finish
       else Reentrant.Done;
     Reentrant.errorScript := λ _ _, Reentrant.Done |}.

(** Success callback 1 of [restarting] calls
    [ee.initialize(endpoint, null, callback7)]. *)
Definition restarting : Reentrant.Callbacks :=
  {| Reentrant.successScript := λ i,
       if Nat.eqb i 1
       then Reentrant.Initialize envOk endpoint None (Some (onSuccess 7)) None
              Reentrant.finish
       else Reentrant.Done;
     Reentrant.errorScript := λ _ _, Reentrant.Done |}.

(** Success callback 2 of [resetting] calls [ee.reset()]. *)
Definition resetting : Reentrant.Callbacks :=
  {| Reentrant.successScript := λ i,
       if Nat.eqb i 2 then Reentrant.Reset Reentrant.Done else Reentrant.Done;
     Reentrant.errorScript := λ _ _, Reentrant.Done |}.

(** A load under way with one success and one error callback queued. *)
Definition loadingWorld : World :=
  (Controller.initialize envOk None None (Some (onSuccess 1)) (Some (onError 2))
     initialWorld).2.

(** A load under way with three success callbacks queued. *)
Definition threeQueued : World :=
  set_successCallbacks [onSuccess 1; onSuccess 2; onSuccess 3]
    (set_ready LOADING initialWorld).

End Sample.

(** ** Statements of the specification that the code does not meet *)

Module Stated.

Import Controller Run Promoter.

(** Two [ee.initialize] calls with the same endpoints, the first leaving
    the library ready: the second does not configure the transport or load
    signatures again, and only runs its success callback. *)
Definition identical_configuration_is_idempotent : Prop :=
  ∀ env0 env b t cb0 ecb0 cb w,
    let w1 := (initialize env0 b t cb0 ecb0 w).2 in
    ready_ w1 = READY →
    let w2 := (initialize env b t cb None w1).2 in
    ready_ w2 = READY ∧ bootstraps (trace w2) = bootstraps (trace w1).

(** The queues are empty in every state that is not [LOADING], whatever
    steps led to it. *)
Definition queues_empty_unless_loading : Prop :=
  ∀ steps, quiescent (exec steps Sample.initialWorld).

(** The default branch, with "non-null" read as neither [null] nor
    [undefined]. *)
Definition default_branch_on_non_null : Prop :=
  ∀ P reg arg klass,
    klass ∉ fixedNames →
    (is_Some (reg !! klass) → arg ≠ VNull → arg ≠ VUndefined →
       (instanceOf P arg klass = true → promote_ P reg arg klass = Ok arg)
       ∧ (instanceOf P arg klass = false → ∀ s, arg = VString s →
            promote_ P reg arg klass =
              match staticMember P klass s with
              | None => Throw (JsError ("Unknown algorithm: " +:+ klass +:+ "." +:+ s))
              | Some r => r
              end)
       ∧ (instanceOf P arg klass = false → isString arg = false →
            promote_ P reg arg klass = newExported P reg klass arg))
    ∧ (reg !! klass = None → promote_ P reg arg klass = Ok arg).

(** Promotion is idempotent on every row of the table with a name. *)
Definition promotion_idempotent : Prop :=
  ∀ P reg x T y,
    Lawful P → T ∈ fixedNames →
    promote_ P reg x T = Ok y → promote_ P reg y T = Ok y.

(** A synchronous [ee.initialize] made during a load has returned: the
    handlers that the superseded load calls afterwards change nothing. *)
Definition superseded_completion_is_noop : Prop :=
  ∀ cbs n env b t w r w',
    ready_ w = LOADING →
    Reentrant.initialize cbs (Reentrant.run cbs n) env b t None None w
      = Some (r, w') →
    ∀ m env' e r'' w'',
      (Reentrant.initializationSuccess_ cbs (Reentrant.run cbs m) env' w'
         = Some (r'', w'') → w'' = w')
      ∧ (Reentrant.initializationFailure_ cbs (Reentrant.run cbs m) e w'
           = Some (r'', w'') → w'' = w').

(** The load completes and the bootstrap goes through: the first
    callback [cb] of the queue is taken from it and invoked, and when that
    invocation is over the callbacks behind it are still in the queue, the
    next one not yet taken. *)
Definition callbacks_fire_one_at_a_time : Prop :=
  ∀ cbs n env c w cb rest r w',
    ready_ w = LOADING →
    successCallbacks_ w = cb :: rest →
    (Controller.bootstrap env (set_api c w)).1 = Ok tt →
    Reentrant.callSuccess cbs (Reentrant.run cbs n) cb
      (set_successCallbacks rest
         (set_errorCallbacks []
            (set_ready READY (Controller.bootstrap env (set_api c w)).2)))
      = Some (r, w') →
    ∃ pushed, successCallbacks_ w' = rest ++ pushed.

End Stated.

(** ** Views used to state what the rest of the file does *)

Module View.

Import Promoter.

(** The namespace prefixes of a catalog: for every name with a ['.'], the
    text before the first one. *)
Definition namespaces (c : Catalog) : list string :=
  omap (λ entry : string * Signature,
          (λ i, JS.sliceTo i entry.1) <$> JS.indexOf "." entry.1) c.

(** The return types of a catalog, without their type parameters. *)
Definition bareReturnTypes (c : Catalog) : list string :=
  (λ entry : string * Signature, JS.stripTypeInfo (returns entry.2)) <$> c.

(** [w'] differs from [w] on the namespace by generated classes only: the
    names added to [ee.generatedClasses_] are the new entries, each of them
    satisfies [ok] and was not there before, and the root of
    [ee.Algorithms] is the same object. *)
Definition growsBy (ok : string → Prop) (w w' : World) : Prop :=
  ∃ added : list string,
    generatedClasses_ w' = generatedClasses_ w ++ added
    ∧ (∀ k, exportedEE w' !! k =
            if bool_decide (k ∈ added) then Some Generated else exportedEE w !! k)
    ∧ (∀ k, k ∈ added → ok k ∧ exportedEE w !! k = None)
    ∧ algBound (Algorithms w') = algBound (Algorithms w).

Definition grows : World → World → Prop := growsBy (λ _, True).

(** A computation whose final world is always related to its initial one. *)
Definition keeps (R : World → World → Prop) {A} (c : M A) : Prop :=
  ∀ w, R w (c w).2.

(** A relation between worlds that composes. *)
Record Composes (R : World → World → Prop) : Prop := {
  composes_refl : ∀ w, R w w;
  composes_trans : ∀ a b c, R a b → R b c → R a c
}.

(** A relation that what the controller itself writes (the state, the
    queues, the trace) does not break. *)
Record Controlled (R : World → World → Prop) : Prop := {
  controlled_ready : ∀ s w, R w (set_ready s w);
  controlled_success : ∀ q w, R w (set_successCallbacks q w);
  controlled_error : ∀ q w, R w (set_errorCallbacks q w);
  controlled_emit : ∀ ev w, R w (emit ev w)
}.

(** A computation that returns normally from every world. *)
Definition succeeds (c : M unit) : Prop := ∀ w, (c w).1 = Ok tt.

(** Collaborators of the bootstrap that do not raise. *)
Definition calm (env : Env) : Prop :=
  (∀ h, hookInitialize env h = None)
  ∧ (∀ n, importApi env n = None)
  ∧ (∃ fns, unboundFunctions env = Ok fns).

(** The world in which a synchronous call runs its signature load. *)
Definition loadingWorld (b t : option string) (w : World) : World :=
  emit (EvApiInitialize false) (emit (EvDataInitialize b t) (set_ready LOADING w)).

(** The catalog is the same. *)
Definition sameApi (w w' : World) : Prop := api_ w' = api_ w.

(** No [ee.reset] among the steps. *)
Definition resetFree (steps : list Run.Step) : Prop :=
  Forall (λ s, s ≠ Run.CallReset) steps.

(** Following a path of property names down [ee.Algorithms]. *)
Fixpoint resolve (parts : list string) (t : AlgNode) : option AlgNode :=
  match parts with
  | [] => Some t
  | k :: rest =>
      match Binder.getChild k (algChildren t) with
      | Some c => resolve rest c
      | None => None
      end
  end.

(** Two paths part ways: at some depth they name different properties. *)
Fixpoint diverge (p q : list string) : bool :=
  match p, q with
  | a :: p', b :: q' => if String.eqb a b then diverge p' q' else true
  | _, _ => false
  end.

(** What binding the unbound functions [fns], in order, makes of a tree. *)
Definition bindAll (fns : Catalog) (t : AlgNode) : AlgNode :=
  foldl (λ t (entry : string * Signature),
           if hidden entry.2 then t
           else Binder.attach (JS.split "." entry.1) entry.1 t) t fns.

(** The node a bound function is. *)
Definition leaf (name : string) : AlgNode := MkAlgNode (Some name) [].

(** An entry that does not write on the path of [name]: it is hidden, or
    its own path parts ways with it. *)
Definition sparing (name : string) (entry : string * Signature) : Prop :=
  hidden entry.2 = true
  ∨ diverge (JS.split "." entry.1) (JS.split "." name) = true.

(** Property names that the objects of [ee.Algorithms] carry apart from
    the children the binder gives them: what plain objects and functions
    inherit or own, and the [signature] and [toString] that the binder
    sets on what it creates. *)
Definition builtinProperties : list string :=
  ["__proto__"; "constructor"; "hasOwnProperty"; "isPrototypeOf";
   "propertyIsEnumerable"; "toLocaleString"; "toString"; "valueOf";
   "__defineGetter__"; "__defineSetter__"; "__lookupGetter__";
   "__lookupSetter__"; "length"; "name"; "prototype"; "arguments"; "caller";
   "apply"; "bind"; "call"; "signature"].

(** A path none of whose parts is such a name: on these, [first in target]
    and property access see the children and nothing else, which is what
    [Binder.getChild] looks at. *)
Definition ordinaryPath (parts : list string) : Prop :=
  Forall (λ part, part ∉ builtinProperties) parts.

(** An unbound function that the binder skips, or whose dotted name is an
    ordinary path. *)
Definition ordinary (entry : string * Signature) : Prop :=
  hidden entry.2 = true ∨ ordinaryPath (JS.split "." entry.1).

(** A string without the character [c]. *)
Definition lacks (c : ascii) (s : string) : Prop := JS.indexOf c s = None.

(** A string without line terminators. *)
Fixpoint oneLine (s : string) : bool :=
  match s with
  | EmptyString => true
  | String a r => negb (JS.atLineTerminator s) && oneLine r
  end.

(** An error that one of the collaborators of [ee.promote_] raised. *)
Definition raisedByCollaborator (P : Platform) (e : Error) : Prop :=
  (∃ c x, construct P c x = Throw e)
  ∨ (∃ name args, apiCall P name args = Throw e)
  ∨ (∃ name, apiFunctionNew P name = Some e)
  ∨ (∃ name, apiLookup P name = Some e)
  ∨ (∃ name args, promoteArgs P name args = Throw e)
  ∨ (∃ klass member, staticMember P klass member = Some (Throw e)).

(** The outcome that the collaborators give to a synchronous call made in
    [w]: the error of the load, or how the bootstrap ends. *)
Definition resolution (env : Env) (b t : option string) (w : World)
  : Result unit :=
  match apiInitialize env with
  | Ok c => (Controller.bootstrap env (set_api c (loadingWorld b t w))).1
  | Throw e => Throw e
  end.

(** The callbacks of one queue are told of the outcome, beginning with
    the first, and the other queue is dropped untold. *)
Definition notified (w w' : World) (outcome : Result unit) : Prop :=
  match outcome with
  | Ok _ =>
      (errorCallbacks_ w' = []
       ∧ Run.invokedError (trace w') = Run.invokedError (trace w))
      ∧ (successCallbacks_ w = [] →
           successCallbacks_ w' = []
           ∧ Run.invokedSuccess (trace w') = Run.invokedSuccess (trace w))
      ∧ (∀ cb rest, successCallbacks_ w = cb :: rest →
           ∃ more, Run.invokedSuccess (trace w')
                   = Run.invokedSuccess (trace w) ++ scId cb :: more)
  | Throw e =>
      (successCallbacks_ w' = []
       ∧ Run.invokedSuccess (trace w') = Run.invokedSuccess (trace w))
      ∧ (errorCallbacks_ w = [] →
           errorCallbacks_ w' = []
           ∧ Run.invokedError (trace w') = Run.invokedError (trace w))
      ∧ (∀ cb rest, errorCallbacks_ w = cb :: rest →
           ∃ more, Run.invokedError (trace w')
                   = Run.invokedError (trace w) ++ (ecId cb, e) :: more)
  end.

(** A queued callback that makes no call into the library. *)
Definition plainSuccess (cbs : Reentrant.Callbacks) (cb : SuccessCallback) : Prop :=
  Reentrant.successScript cbs (scId cb) = Reentrant.Done.

Definition plainError (cbs : Reentrant.Callbacks) (cb : ErrorCallback) : Prop :=
  ∀ e, Reentrant.errorScript cbs (ecId cb) e = Reentrant.Done.

(** The invocations and returns of a draining loop over such callbacks:
    one after the other, up to the first that raises. *)
Fixpoint firing (q : list SuccessCallback) : list Event :=
  match q with
  | [] => []
  | cb :: rest =>
      EvSuccessCallback (scId cb)
      :: match scRaises cb with
         | Some _ => []
         | None => EvCallbackReturned (scId cb) :: firing rest
         end
  end.

Fixpoint firingError (e : Error) (q : list ErrorCallback) : list Event :=
  match q with
  | [] => []
  | cb :: rest =>
      EvErrorCallback (ecId cb) e
      :: match ecRaises cb e with
         | Some _ => []
         | None => EvCallbackReturned (ecId cb) :: firingError e rest
         end
  end.

(** A draining loop over [q] ended with [r], left [left] in the queue and
    added the invocations [evs]: the callbacks were invoked in queue order,
    each returning before the next was taken from the queue; all of them
    when the loop returned normally, and otherwise up to the one that
    raised, the later ones being left. *)
Definition fired (q : list SuccessCallback) (r : Result unit)
    (left : list SuccessCallback) (evs : list Event) : Prop :=
  match r with
  | Ok _ => left = [] ∧ evs = concat (Reentrant.bracket <$> q)
  | Throw _ =>
      ∃ completed cb,
        q = completed ++ cb :: left
        ∧ evs = concat (Reentrant.bracket <$> completed)
                ++ [EvSuccessCallback (scId cb)]
  end.

End View.

(** * Properties *)

(** ** The monad and the world *)

Section MonadFacts.

Import Run.

Lemma world_eta (w : World) :
  {| ready_ := ready_ w; successCallbacks_ := successCallbacks_ w;
     errorCallbacks_ := errorCallbacks_ w;
     generatedClasses_ := generatedClasses_ w; exportedEE := exportedEE w;
     Algorithms := Algorithms w; api_ := api_ w; trace := trace w |} = w.
Proof. by destruct w. Qed.

Lemma emits_nil (w : World) : emits [] w = w.
Proof. unfold emits. rewrite app_nil_r. apply world_eta. Qed.

Lemma emits_cons (ev : Event) (evs : list Event) (w : World) :
  emits (ev :: evs) w = emits evs (emit ev w).
Proof. unfold emits, emit. cbn. by rewrite <- app_assoc. Qed.

Lemma invokedSuccess_app (t u : list Event) :
  invokedSuccess (t ++ u) = invokedSuccess t ++ invokedSuccess u.
Proof. unfold invokedSuccess. apply omap_app. Qed.

Lemma invokedError_app (t u : list Event) :
  invokedError (t ++ u) = invokedError t ++ invokedError u.
Proof. unfold invokedError. apply omap_app. Qed.

Lemma bind_modify {B} (f : World → World) (k : unit → M B) (w : World) :
  bind (modify f) k w = k tt (f w).
Proof. reflexivity. Qed.

Lemma forEach_cons_ok {A} (x : A) (l : list A) (body : A → M unit) (w w1 : World) :
  body x w = (Ok tt, w1) → forEach (x :: l) body w = forEach l body w1.
Proof. intros H. cbn [forEach]. unfold bind. by rewrite H. Qed.

Lemma silent_ret {A} (a : A) : silent (ret a).
Proof. by intros w. Qed.

Lemma silent_throw {A} (e : Error) : silent (@throw A e).
Proof. by intros w. Qed.

Lemma silent_get : silent get.
Proof. by intros w. Qed.

Lemma silent_bind {A B} (c : M A) (k : A → M B) :
  silent c → (∀ a, silent (k a)) → silent (bind c k).
Proof.
  intros Hc Hk w. unfold bind. specialize (Hc w).
  destruct (c w) as [[a|e] w1]; cbn in *; [|done].
  specialize (Hk a w1). destruct (k a w1) as [r w2]; cbn in *.
  destruct Hc as (? & ? & ? & ? & ?), Hk as (? & ? & ? & ? & ?).
  repeat split; congruence.
Qed.

Lemma silent_tryCatch {A} (c : M A) (h : Error → M A) :
  silent c → (∀ e, silent (h e)) → silent (tryCatch c h).
Proof.
  intros Hc Hh w. unfold tryCatch. specialize (Hc w).
  destruct (c w) as [[a|e] w1]; cbn in *; [done|].
  specialize (Hh e w1). destruct (h e w1) as [r w2]; cbn in *.
  destruct Hc as (? & ? & ? & ? & ?), Hh as (? & ? & ? & ? & ?).
  repeat split; congruence.
Qed.

Lemma silent_raising (r : option Error) : silent (raising r).
Proof. destruct r; [apply silent_throw | apply silent_ret]. Qed.

Lemma silent_lift {A} (r : Result A) : silent (lift r).
Proof. destruct r; [apply silent_ret | apply silent_throw]. Qed.

Lemma silent_forEach {A} (l : list A) (body : A → M unit) :
  (∀ x, silent (body x)) → silent (forEach l body).
Proof.
  intros Hb. induction l as [|x l IH]; cbn; [apply silent_ret|].
  apply silent_bind; [apply Hb | intros _; apply IH].
Qed.

Lemma silent_emit (ev : Event) : plain ev → silent (modify (emit ev)).
Proof.
  intros Hev w. cbn. rewrite invokedSuccess_app, invokedError_app.
  destruct ev; cbn in *; try done; by rewrite !app_nil_r.
Qed.

End MonadFacts.

(** ** The bootstrap leaves the controller alone *)

Section BootstrapFacts.

Import Run Controller.

Local Ltac silence :=
  repeat first
    [ apply silent_ret | apply silent_get | apply silent_throw
    | apply silent_raising | apply silent_lift
    | apply silent_emit; exact I
    | apply silent_bind | apply silent_forEach
    | progress intros ].

Lemma silent_update (f : World → World) :
  (∀ w, ready_ (f w) = ready_ w ∧ successCallbacks_ (f w) = successCallbacks_ w
        ∧ errorCallbacks_ (f w) = errorCallbacks_ w ∧ trace (f w) = trace w) →
  silent (modify f).
Proof.
  intros Hf w. cbn. destruct (Hf w) as (-> & -> & -> & ->). done.
Qed.

Lemma silent_initializeHooks env : silent (initializeHooks env).
Proof. unfold initializeHooks. silence. Qed.

Lemma silent_makeClass_ env name : silent (Generator.makeClass_ env name).
Proof. unfold Generator.makeClass_. silence. Qed.

Lemma silent_generateOne env returnTypes name :
  silent (Generator.generateOne env returnTypes name).
Proof.
  unfold Generator.generateOne. apply silent_bind; [apply silent_get|].
  intros w. destruct (_ && _); [|apply silent_ret].
  apply silent_bind; [apply silent_makeClass_|]. intros cls.
  apply silent_bind; intros; by apply silent_update.
Qed.

Lemma silent_initializeGeneratedClasses_ env :
  silent (Generator.initializeGeneratedClasses_ env).
Proof.
  unfold Generator.initializeGeneratedClasses_.
  apply silent_bind; [apply silent_get|]. intros w.
  destruct (Generator.collect _ _ _) as [names returnTypes].
  apply silent_bind; [|silence].
  apply silent_forEach. intros name. apply silent_generateOne.
Qed.

Lemma silent_bindOne name signature : silent (Binder.bindOne name signature).
Proof.
  unfold Binder.bindOne. destruct (hidden signature); [apply silent_ret|].
  by apply silent_update.
Qed.

Lemma silent_initializeUnboundMethods_ env :
  silent (Binder.initializeUnboundMethods_ env).
Proof.
  unfold Binder.initializeUnboundMethods_. silence.
  destruct x as [name signature]. apply silent_bindOne.
Qed.

Lemma silent_bootstrap env : silent (bootstrap env).
Proof.
  unfold bootstrap. apply silent_bind; [apply silent_initializeHooks|].
  intros _. apply silent_bind; [apply silent_initializeGeneratedClasses_|].
  intros _. apply silent_initializeUnboundMethods_.
Qed.

Lemma silent_resetGeneratedClasses_ : silent Generator.resetGeneratedClasses_.
Proof.
  unfold Generator.resetGeneratedClasses_.
  apply silent_bind; [apply silent_get|]. intros w.
  apply silent_bind.
  - apply silent_forEach. intros name.
    apply silent_bind; [by apply silent_emit|]. intros _. by apply silent_update.
  - intros _. apply silent_bind; [by apply silent_update|].
    intros _. by apply silent_emit.
Qed.

End BootstrapFacts.

(** ** The draining loops and the two handlers *)

Section HandlerFacts.

Import Run Controller.

Lemma drainSuccess_spec (q : list SuccessCallback) (w : World) :
  successCallbacks_ w = q →
  drainSuccess q w =
    (drainOutcome q,
     set_successCallbacks (undrained q)
       (emits (EvSuccessCallback ∘ scId <$> drained q) w)).
Proof.
  revert w. induction q as [|cb rest IH]; intros w Hq.
  - cbn. rewrite emits_nil. destruct w; cbn in *; by subst.
  - cbn [drainSuccess drainOutcome drained undrained fmap list_fmap].
    unfold bind at 1. cbn [modify]. unfold bind at 1. unfold callSuccess.
    unfold bind at 1. cbn [modify raising].
    destruct (scRaises cb) as [e|]; cbn [raising throw ret].
    + reflexivity.
    + rewrite IH by done. f_equal. unfold emits, set_successCallbacks, emit.
      cbn. by rewrite <- app_assoc.
Qed.

Lemma drainError_spec (e : Error) (q : list ErrorCallback) (w : World) :
  errorCallbacks_ w = q →
  drainError e q w =
    (drainErrorOutcome e q,
     set_errorCallbacks (undrainedError e q)
       (emits ((λ cb, EvErrorCallback (ecId cb) e) <$> drainedError e q) w)).
Proof.
  revert w. induction q as [|cb rest IH]; intros w Hq.
  - cbn. rewrite emits_nil. destruct w; cbn in *; by subst.
  - cbn [drainError drainErrorOutcome drainedError undrainedError fmap list_fmap].
    unfold bind at 1. cbn [modify]. unfold bind at 1. unfold callError.
    unfold bind at 1. cbn [modify raising].
    destruct (ecRaises cb e) as [e'|]; cbn [raising throw ret].
    + reflexivity.
    + rewrite IH by done. f_equal. unfold emits, set_errorCallbacks, emit.
      cbn. by rewrite <- app_assoc.
Qed.

(** Outside [LOADING] both handlers return at once. *)
Lemma initializationFailure_stale (e : Error) (w : World) :
  ready_ w ≠ LOADING → initializationFailure_ e w = (Ok tt, w).
Proof.
  intros H. unfold initializationFailure_, bind, get.
  destruct (ready_ w); done.
Qed.

Lemma initializationSuccess_stale (env : Env) (w : World) :
  ready_ w ≠ LOADING → initializationSuccess_ env w = (Ok tt, w).
Proof.
  intros H. unfold initializationSuccess_, bind, get.
  destruct (ready_ w); done.
Qed.

(** In [LOADING] the failure handler runs the error queue. *)
Lemma initializationFailure_loading (e : Error) (w : World) :
  ready_ w = LOADING →
  initializationFailure_ e w =
    drainError e (errorCallbacks_ w)
      (set_successCallbacks [] (set_ready NOT_READY w)).
Proof.
  intros H. unfold initializationFailure_, bind, get, modify. by rewrite H.
Qed.

(** In [LOADING] the success handler runs the queue after a bootstrap that
    went through, and hands over to the failure handler otherwise. *)
Lemma initializationSuccess_loading (env : Env) (w : World) :
  ready_ w = LOADING →
  initializationSuccess_ env w =
    match bootstrap env w with
    | (Ok _, w1) =>
        drainSuccess (successCallbacks_ w1)
          (set_errorCallbacks [] (set_ready READY w1))
    | (Throw e, w1) => initializationFailure_ e w1
    end.
Proof.
  intros H. unfold initializationSuccess_. unfold bind at 1. unfold get.
  rewrite H. cbn [InitState_eqb negb]. unfold bind at 1. unfold tryCatch.
  unfold bind at 1.
  destruct (bootstrap env w) as [[[]|e] w1].
  - reflexivity.
  - unfold bind at 1.
    destruct (initializationFailure_ e w1) as [[[]|e'] w2]; reflexivity.
Qed.

End HandlerFacts.

(** ** [ee.initialize], path by path *)

Section InitializeFacts.

Import Run Controller.

Lemma drainSuccess_ready (w : World) :
  ready_ (drainSuccess (successCallbacks_ w) w).2 = ready_ w.
Proof. by rewrite drainSuccess_spec. Qed.

Lemma drainError_ready (e : Error) (w : World) :
  ready_ (drainError e (errorCallbacks_ w) w).2 = ready_ w.
Proof. by rewrite drainError_spec. Qed.

Lemma failure_resolves (e : Error) (w : World) :
  ready_ w = LOADING → ready_ (initializationFailure_ e w).2 = NOT_READY.
Proof.
  intros H. rewrite initializationFailure_loading by done.
  apply (drainError_ready e (set_successCallbacks [] (set_ready NOT_READY w))).
Qed.

Lemma success_resolves (env : Env) (w : World) :
  ready_ w = LOADING →
  ready_ (initializationSuccess_ env w).2 = READY
  ∨ ready_ (initializationSuccess_ env w).2 = NOT_READY.
Proof.
  intros H. rewrite initializationSuccess_loading by done.
  pose proof (silent_bootstrap env w) as (Hr & _).
  destruct (bootstrap env w) as [[[]|e] w1]; cbn in Hr.
  - left. apply (drainSuccess_ready (set_errorCallbacks [] (set_ready READY w1))).
  - right. apply failure_resolves. congruence.
Qed.

(** The world in which a synchronous call starts its load. *)
Lemma initialize_sync (env : Env) (b t : option string) (w : World) :
  fastPath w b t = false →
  initialize env b t None None w =
    tryCatch
      (let* _ := apiInitializeSync env in initializationSuccess_ env)
      (λ e, let* _ := initializationFailure_ e in throw e)
      (emit (EvDataInitialize b t) (set_ready LOADING w)).
Proof.
  intros H. unfold initialize. unfold bind at 1. unfold get.
  fold (fastPath w b t). rewrite H. cbn [bool_decide]. 
  unfold bind at 1. cbn [ret]. unfold bind at 1. unfold get.
  rewrite andb_false_r. unfold bind at 1. cbn [modify].
  unfold bind at 1. cbn [modify]. reflexivity.
Qed.

(** A synchronous call whose load succeeds is the success handler run on
    the loaded catalog. *)
Lemma initialize_sync_loaded (env : Env) (b t : option string) (w : World) c :
  fastPath w b t = false →
  apiInitialize env = Ok c →
  initialize env b t None None w =
    initializationSuccess_ env
      (set_api c (emit (EvApiInitialize false)
                    (emit (EvDataInitialize b t) (set_ready LOADING w)))).
Proof.
  intros H Hc. rewrite initialize_sync by done.
  unfold tryCatch, apiInitializeSync. unfold bind at 1. unfold bind at 1.
  cbn [modify]. unfold bind at 1. rewrite Hc. cbn [lift ret modify].
  set (w3 := set_api c _).
  pose proof (success_resolves env w3 eq_refl) as Hres.
  destruct (initializationSuccess_ env w3) as [[[]|e] w4]; [done|].
  cbn in Hres. unfold bind. rewrite initializationFailure_stale; [done|].
  destruct Hres as [-> | ->]; done.
Qed.

(** A synchronous call whose load fails runs the failure handler and
    raises: the load's error, or what an error callback raised. *)
Lemma initialize_sync_load_failed (env : Env) (b t : option string) (w : World) e :
  fastPath w b t = false →
  apiInitialize env = Throw e →
  initialize env b t None None w =
    let '(r, w') :=
      initializationFailure_ e
        (emit (EvApiInitialize false)
           (emit (EvDataInitialize b t) (set_ready LOADING w))) in
    (match r with Ok _ => Throw e | Throw e' => Throw e' end, w').
Proof.
  intros H He. rewrite initialize_sync by done.
  unfold tryCatch, apiInitializeSync. unfold bind at 1. unfold bind at 1.
  cbn [modify]. unfold bind at 1. rewrite He. cbn [lift throw].
  unfold bind. by destruct (initializationFailure_ e _) as [[[]|e'] w'].
Qed.

(** An asynchronous call during a load only queues its callbacks. *)
Lemma initialize_async_loading env b t cb ecb (w : World) :
  ready_ w = LOADING →
  initialize env b t (Some cb) ecb w =
    (Ok tt,
     set_successCallbacks (successCallbacks_ w ++ [cb])
       (set_errorCallbacks (errorCallbacks_ w ++ option_list ecb) w)).
Proof.
  intros H. unfold initialize. unfold bind at 1. unfold get. rewrite H.
  cbn [InitState_eqb andb]. unfold bind at 1.
  destruct ecb as [e|]; cbn.
  - by rewrite H.
  - rewrite H, app_nil_r. cbn. by destruct w.
Qed.

(** An asynchronous call outside a load starts one. *)
Lemma initialize_async_start env b t cb ecb (w : World) :
  fastPath w b t = false →
  ready_ w ≠ LOADING →
  initialize env b t (Some cb) ecb w =
    (Ok tt,
     emit (EvApiInitialize true)
       (set_successCallbacks (successCallbacks_ w ++ [cb])
          (emit (EvDataInitialize b t)
             (set_ready LOADING
                (set_errorCallbacks (errorCallbacks_ w ++ option_list ecb) w))))).
Proof.
  intros H Hl. unfold initialize. unfold bind at 1. unfold get.
  fold (fastPath w b t). rewrite H. unfold bind at 1.
  destruct ecb as [e|]; cbn.
  - destruct (ready_ w); done.
  - rewrite app_nil_r. destruct (ready_ w) eqn:E; try done; cbn; by destruct w; cbn in *; subst.
Qed.

(** A call that is not on the fast path and has an error callback but no
    success callback. *)
Lemma initialize_usage (env : Env) (b t : option string) ecb (w : World) :
  fastPath w b t = false →
  initialize env b t None (Some ecb) w = (Throw usageError, w).
Proof.
  intros Hf. unfold initialize. unfold bind at 1. unfold get.
  fold (fastPath w b t). by rewrite Hf.
Qed.

(** A call on the fast path. *)
Lemma initialize_fast (env : Env) (b t : option string) cb ecb (w : World) :
  fastPath w b t = true →
  initialize env b t cb ecb w =
    match cb with
    | Some c =>
        (match scRaises c with Some e => Throw e | None => Ok tt end,
         emit (EvSuccessCallback (scId c)) w)
    | None => (Ok tt, w)
    end.
Proof.
  intros Hf. unfold initialize. unfold bind at 1. unfold get.
  fold (fastPath w b t). rewrite Hf. destruct cb as [c|]; [|done].
  unfold callSuccess, bind, modify. by destruct (scRaises c).
Qed.

Lemma fastPath_false (w : World) (b t : option string) :
  ready_ w ≠ READY ∨ truthy b = true ∨ truthy t = true → fastPath w b t = false.
Proof.
  unfold fastPath. intros [H | [-> | ->]].
  - destruct (ready_ w); done.
  - by rewrite andb_false_r.
  - by rewrite andb_false_r.
Qed.

Lemma fastPath_true (w : World) (b t : option string) :
  ready_ w = READY → truthy b = false → truthy t = false → fastPath w b t = true.
Proof. unfold fastPath. by intros -> -> ->. Qed.

End InitializeFacts.

(** ** The controller: usage error and fast path *)

Section FastPath.

Import Run Controller.

(** C7.  An [ee.initialize] call that is not served by the READY fast path
    and passes an error callback without a success callback raises the
    usage error at once, and leaves the whole world as it was: the state,
    both queues, the namespace, and the trace, so no transport
    configuration was made and no load was started. *)
Theorem usage_error_touches_nothing
    (env : Env) (b t : option string) (ecb : ErrorCallback) (w : World) :
  ready_ w ≠ READY ∨ truthy b = true ∨ truthy t = true →
  initialize env b t None (Some ecb) w = (Throw usageError, w).
Proof.
  intros H. apply initialize_usage. by apply fastPath_false.
Qed.

Lemma usage_error_touches_nothing_witness :
  (ready_ Sample.initialWorld ≠ READY ∨ truthy None = true ∨ truthy None = true)
  ∧ initialize Sample.envOk None None None (Some (Sample.onError 1))
      Sample.initialWorld
    = (Throw usageError, Sample.initialWorld).
Proof.
  split.
  - left. vm_compute. discriminate.
  - apply usage_error_touches_nothing. left. vm_compute. discriminate.
Defined.

(** C10.  In state READY with no endpoint given, a call with an error
    callback and no success callback returns normally and changes nothing:
    the fast path returns before the error callback is looked at. *)
Theorem fast_path_precedes_validation
    (env : Env) (b t : option string) (ecb : ErrorCallback) (w : World) :
  ready_ w = READY → truthy b = false → truthy t = false →
  initialize env b t None (Some ecb) w = (Ok tt, w).
Proof.
  intros Hr Hb Ht.
  by rewrite (initialize_fast env b t None (Some ecb) w (fastPath_true w b t Hr Hb Ht)).
Qed.

Lemma fast_path_precedes_validation_witness :
  let w := (initialize Sample.envOk None None None None Sample.initialWorld).2 in
  ready_ w = READY
  ∧ initialize Sample.envOk (Some "") None None (Some (Sample.onError 1)) w
    = (Ok tt, w).
Proof.
  cbv zeta. split.
  - vm_compute. reflexivity.
  - apply fast_path_precedes_validation; vm_compute; reflexivity.
Defined.

(** C5, as stated, fails: a second call with the same, non-empty endpoint
    runs the bootstrap again. *)
Lemma identical_endpoint_reruns_bootstrap :
  ¬ Stated.identical_configuration_is_idempotent.
Proof.
  intros H.
  specialize (H Sample.envOk Sample.envOk Sample.endpoint None None None None
                Sample.initialWorld).
  cbv zeta in H. destruct H as [_ H]; [vm_compute; reflexivity|].
  vm_compute in H. discriminate H.
Qed.

End FastPath.

(** ** The controller: resolution *)

Section Resolution.

Import Run Controller.

Local Ltac kept :=
  unfold wellKept, quiescent in *; cbn in *;
  intuition (try done; try congruence).

Lemma drained_quiet (q : list SuccessCallback) :
  Forall quietSuccess q →
  drained q = q ∧ undrained q = [] ∧ drainOutcome q = Ok tt.
Proof.
  induction 1 as [|cb rest Hcb _ (IH1 & IH2 & IH3)]; [done|].
  cbn. rewrite Hcb. by rewrite IH1, IH2, IH3.
Qed.

Lemma drainedError_quiet (e : Error) (q : list ErrorCallback) :
  Forall quietError q →
  drainedError e q = q ∧ undrainedError e q = [] ∧ drainErrorOutcome e q = Ok tt.
Proof.
  induction 1 as [|cb rest Hcb _ (IH1 & IH2 & IH3)]; [done|].
  cbn. rewrite (Hcb e). by rewrite IH1, IH2, IH3.
Qed.

Lemma invokedSuccess_callbacks (q : list SuccessCallback) :
  invokedSuccess (EvSuccessCallback ∘ scId <$> q) = scId <$> q.
Proof. induction q as [|cb q IH]; [done|]. cbn. by f_equal. Qed.

Lemma invokedError_callbacks (e : Error) (q : list ErrorCallback) :
  invokedError ((λ cb, EvErrorCallback (ecId cb) e) <$> q)
  = (λ cb, (ecId cb, e)) <$> q.
Proof. induction q as [|cb q IH]; [done|]. cbn. by f_equal. Qed.

(** A batch of asynchronous calls during a load appends to the queues, in
    call order, and every call returns normally. *)
Lemma asyncCalls_spec (env : Env) (calls : list AsyncCall) (w : World) :
  ready_ w = LOADING →
  asyncCalls env calls w =
    (Ok tt,
     set_successCallbacks (successCallbacks_ w ++ (acSuccess <$> calls))
       (set_errorCallbacks (errorCallbacks_ w ++ omap acError calls) w)).
Proof.
  revert w. induction calls as [|c calls IH]; intros w Hw.
  - cbn. rewrite !app_nil_r. by destruct w.
  - unfold asyncCalls in *. cbn [forEach]. unfold bind at 1.
    rewrite initialize_async_loading by done.
    rewrite IH by done. f_equal. cbn.
    unfold set_successCallbacks, set_errorCallbacks. cbn. f_equal.
    + by rewrite <- app_assoc.
    + rewrite <- app_assoc. by destruct (acError c).
Qed.

(** With quiet error callbacks, the failure handler leaves a settled world. *)
Lemma failure_wellKept (e : Error) (w : World) :
  ready_ w = LOADING → Forall quietError (errorCallbacks_ w) →
  wellKept (initializationFailure_ e w).2.
Proof.
  intros Hl Hq. rewrite initializationFailure_loading by done.
  rewrite drainError_spec by done. cbn.
  destruct (drainedError_quiet e _ Hq) as (_ & -> & _).
  kept.
Qed.

Lemma success_wellKept (env : Env) (w : World) :
  ready_ w = LOADING →
  Forall quietSuccess (successCallbacks_ w) →
  Forall quietError (errorCallbacks_ w) →
  wellKept (initializationSuccess_ env w).2.
Proof.
  intros Hl Hs He. rewrite initializationSuccess_loading by done.
  pose proof (silent_bootstrap env w) as (Hr & Hsq & Heq & _).
  destruct (bootstrap env w) as [[[]|e] w1]; cbn in Hr, Hsq, Heq.
  - rewrite drainSuccess_spec by done. cbn.
    rewrite Hsq. destruct (drained_quiet _ Hs) as (_ & -> & _).
    kept.
  - apply failure_wellKept; congruence.
Qed.

(** [ee.reset] does not touch the queues. *)
Lemma reset_queues (w : World) :
  ready_ (reset w).2 = NOT_READY
  ∧ successCallbacks_ (reset w).2 = successCallbacks_ w
  ∧ errorCallbacks_ (reset w).2 = errorCallbacks_ w.
Proof.
  unfold reset. rewrite bind_modify.
  set (rest := bind _ _).
  assert (silent rest) as Hs.
  { subst rest. apply silent_bind; [by apply silent_emit|]. intros _.
    apply silent_bind; [by apply silent_emit|]. intros _.
    apply silent_bind; [by apply silent_update|]. intros _.
    apply silent_bind.
    { apply silent_forEach. intros h. by apply silent_emit. }
    intros _. apply silent_bind; [apply silent_resetGeneratedClasses_|].
    intros _. by apply silent_update. }
  destruct (Hs (set_ready NOT_READY w)) as (-> & -> & -> & _). done.
Qed.

Lemma step_wellKept (s : Step) (w : World) :
  wellKept w → admissible s w → wellKept (step s w).2.
Proof.
  intros (Hq & Hs & He) Ha. destruct s as [env b t cb ecb| |env c|e]; cbn [step].
  - destruct Ha as [Hcb Hecb].
    destruct (fastPath w b t) eqn:Hf.
    + rewrite initialize_fast by done. destruct cb as [c|]; kept.
    + destruct cb as [c|].
      * assert (Forall quietSuccess (successCallbacks_ w ++ [c])) as Hs'.
        { apply Forall_app. split; [done|]. apply Forall_singleton. by apply Hcb. }
        assert (Forall quietError (errorCallbacks_ w ++ option_list ecb)) as He'.
        { apply Forall_app. split; [done|]. destruct ecb as [e|]; cbn; [|done].
          apply Forall_singleton. by apply Hecb. }
        destruct (decide (ready_ w = LOADING)) as [Hl|Hl].
        -- rewrite initialize_async_loading by done.
           kept.
        -- rewrite initialize_async_start by done.
           kept.
      * destruct ecb as [e|].
        { rewrite initialize_usage by done. kept. }
        destruct (apiInitialize env) as [c|e] eqn:Hload.
        -- rewrite (initialize_sync_loaded env b t w c) by done.
           by apply success_wellKept.
        -- rewrite (initialize_sync_load_failed env b t w e) by done.
           set (w2 := emit _ _).
           pose proof (failure_wellKept e w2 eq_refl He) as Hk.
           by destruct (initializationFailure_ e w2) as [r w3].
  - destruct (reset_queues w) as (Hr & Hsq & Heq).
    destruct (Hq Ha) as [Hs0 He0].
    unfold wellKept, quiescent. rewrite Hsq, Heq, Hs0, He0. done.
  - unfold loadSucceeded. unfold bind at 1. cbn [modify].
    destruct (decide (ready_ w = LOADING)) as [Hl|Hl].
    + by apply success_wellKept.
    + rewrite initializationSuccess_stale by done. kept.
  - unfold loadFailed.
    destruct (decide (ready_ w = LOADING)) as [Hl|Hl].
    + by apply failure_wellKept.
    + rewrite initializationFailure_stale by done. kept.
Qed.

Lemma reachable_wellKept (w0 w : World) :
  wellKept w0 → Reachable w0 w → wellKept w.
Proof.
  intros H0. induction 1 as [|s w Hr IH Ha]; [done|]. by apply step_wellKept.
Qed.

(** A synchronous call whose load succeeds and whose bootstrap raises [e],
    with error callbacks that return normally: the failure handler runs,
    and the call returns normally. *)
Lemma sync_bootstrap_failure (env : Env) (b t : option string) (w w4 : World) c e :
  fastPath w b t = false →
  apiInitialize env = Ok c →
  bootstrap env
    (set_api c (emit (EvApiInitialize false)
                  (emit (EvDataInitialize b t) (set_ready LOADING w))))
  = (Throw e, w4) →
  Forall quietError (errorCallbacks_ w) →
  initialize env b t None None w =
    (Ok tt,
     set_errorCallbacks []
       (emits ((λ cb, EvErrorCallback (ecId cb) e) <$> errorCallbacks_ w)
          (set_successCallbacks [] (set_ready NOT_READY w4)))).
Proof.
  intros Hf Hc Hb Hq. rewrite (initialize_sync_loaded env b t w c) by done.
  set (w3 := set_api c _) in *.
  rewrite initializationSuccess_loading by done.
  pose proof (silent_bootstrap env w3) as (Hr & _ & Heq & _).
  rewrite Hb in *. cbn in Hr, Heq.
  rewrite initializationFailure_loading by done.
  rewrite drainError_spec by done. cbn. rewrite Heq.
  by destruct (drainedError_quiet e _ Hq) as (-> & -> & ->).
Qed.

End Resolution.

(** ** The controller: the claims about resolution *)

Section ControllerClaims.

Import Run Controller.

(** C1, on the code.  The failing input: an asynchronous call has queued
    an error callback and a load is under way; a synchronous
    [ee.initialize()] follows, its signature load succeeds and
    [ee.Filter.initialize()] raises [e].  The failure handler runs (state
    NOT_READY, both queues empty, the error callback invoked with [e]),
    but the call returns normally: [e] is not raised to the caller. *)
Theorem sync_hook_failure_is_not_reraised :
  let w := (initialize Sample.envOk None None (Some (Sample.onSuccess 1))
              (Some (Sample.onError 7)) Sample.initialWorld).2 in
  let r := initialize Sample.envHookFails None None None None w in
  ready_ w = LOADING
  ∧ r.1 = Ok tt
  ∧ ready_ r.2 = NOT_READY
  ∧ successCallbacks_ r.2 = []
  ∧ errorCallbacks_ r.2 = []
  ∧ invokedError (trace r.2) = [(7, Sample.hookError)]
  ∧ invokedSuccess (trace r.2) = [].
Proof. vm_compute. repeat split. Qed.




(** The invariant needs the callbacks to return normally: one that raises
    ends the draining loop and leaves the later ones queued in state
    READY. *)
Lemma raising_callback_leaves_queue :
  ¬ Stated.queues_empty_unless_loading.
Proof.
  intros H.
  specialize (H [CallInitialize Sample.envOk None None
                   (Some (Sample.failingOnSuccess 1)) None;
                 CallInitialize Sample.envOk None None
                   (Some (Sample.onSuccess 2)) None;
                 LoadSucceeded Sample.envOk Sample.catalog]).
  destruct H as [H _]; [vm_compute; discriminate|].
  vm_compute in H. discriminate H.
Qed.

End ControllerClaims.

(** ** The class generator and its reserved names *)

Section GeneratorClaims.

Import Generator.

(** The loop over the reserved names tests the array's index, not its
    element. *)
Lemma insertIndex_elem (n : N) (k x : string) (l : list (N * string)) :
  x ∈ (snd <$> JS.insertIndex n k l) ↔ x = k ∨ x ∈ (snd <$> l).
Proof.
  induction l as [|[m k'] l IH]; cbn [JS.insertIndex].
  - cbn. rewrite list_elem_of_singleton, elem_of_nil. tauto.
  - destruct (n <? m)%N; cbn [fmap list_fmap snd].
    + by rewrite elem_of_cons.
    + rewrite !elem_of_cons, IH. tauto.
Qed.

(** The enumeration visits the keys of the set, and nothing else. *)
Lemma forIn_elem (x : string) (keys : list string) :
  x ∈ JS.forIn keys ↔ x ∈ keys.
Proof.
  unfold JS.forIn. rewrite elem_of_app, list_elem_of_filter.
  assert (x ∈ (snd <$> foldr (λ k acc, match JS.arrayIndex k with
                                       | Some n => JS.insertIndex n k acc
                                       | None => acc
                                       end) [] keys)
          ↔ x ∈ keys ∧ JS.arrayIndex x ≠ None) as ->.
  { induction keys as [|k keys IH]; cbn [foldr].
    - cbn. rewrite !elem_of_nil. tauto.
    - rewrite elem_of_cons. destruct (JS.arrayIndex k) eqn:E.
      + rewrite insertIndex_elem, IH. split.
        * intros [Hx|[Hx Hn]]; [|by auto]. subst x. split; [by left|].
          by rewrite E.
        * intros [[Hx|Hx] Hn]; by auto.
      + rewrite IH. split.
        * intros [Hx Hn]. by auto.
        * intros [[Hx|Hx] Hn]; [|done]. subst x. by rewrite E in Hn. }
  destruct (JS.arrayIndex x) as [n|]; split.
  - intros [[Hx _]|[Hn _]]; done.
  - intros Hx. left. by split.
  - intros [[_ Hn]|[_ Hx]]; done.
  - intros Hx. right. by split.
Qed.

Lemma dropBlacklisted_index (names : list string) :
  dropBlacklisted names =
    if JS.hasKey "0" names then JS.deleteKey "0" names else names.
Proof. reflexivity. Qed.

Lemma dropBlacklisted_keeps_List (names : list string) :
  "List" ∈ names → "List" ∈ dropBlacklisted names.
Proof.
  intros H. rewrite dropBlacklisted_index.
  destruct (JS.hasKey "0" names); [|done].
  unfold JS.deleteKey. apply list_elem_of_filter. by split.
Qed.

Lemma generateOne_spec env returnTypes name (w : World) :
  importApi env name = None →
  generateOne env returnTypes name w =
    (Ok tt,
     if JS.hasKey name returnTypes && bool_decide (exportedEE w !! name = None)
     then set_generatedClasses (generatedClasses_ w ++ [name])
            (set_exportedEE (<[name := Generated]> (exportedEE w))
               (emit (EvImportApi name) w))
     else w).
Proof.
  intros Hi. unfold generateOne. unfold bind at 1. unfold get.
  destruct (_ && _); [|done].
  unfold makeClass_. unfold bind at 1. unfold bind at 1. cbn [modify].
  unfold bind at 1. rewrite Hi. reflexivity.
Qed.

(** Once it is among the candidate names and the return types, nothing
    keeps [List] from being generated. *)
Lemma forEach_generates_List env returnTypes (names : list string) (w : World) :
  (∀ n, importApi env n = None) →
  JS.hasKey "List" returnTypes = true →
  ("List" ∈ names ∧ exportedEE w !! "List" = None)
  ∨ (exportedEE w !! "List" = Some Generated ∧ "List" ∈ generatedClasses_ w) →
  let r := forEach names (generateOne env returnTypes) w in
  r.1 = Ok tt
  ∧ exportedEE r.2 !! "List" = Some Generated
  ∧ "List" ∈ generatedClasses_ r.2.
Proof.
  intros Hi Hrt. cbv zeta. revert w.
  induction names as [|x names IH]; intros w H.
  - cbn. destruct H as [[H _] | H]; [by apply elem_of_nil in H | done].
  - rewrite (forEach_cons_ok _ _ _ _ _ (generateOne_spec env returnTypes x w (Hi x))).
    apply IH. destruct H as [[Hin Hnone] | [Hgen Hcls]].
    + destruct (decide (x = "List")) as [-> | Hne].
      * right. rewrite Hrt, Hnone. cbn. rewrite lookup_insert_eq.
        split; [done|]. apply elem_of_app. right. by apply list_elem_of_singleton.
      * left. split.
        { apply elem_of_cons in Hin as [? | ?]; [congruence | done]. }
        destruct (_ && _); [|done]. cbn. by rewrite lookup_insert_ne.
    + right. destruct (_ && _) eqn:Hc; [|done]. cbn.
      destruct (decide (x = "List")) as [-> | Hne].
      * apply andb_true_iff in Hc as [_ Hc]. apply bool_decide_eq_true in Hc.
        congruence.
      * rewrite lookup_insert_ne by done. split; [done|].
        apply elem_of_app. by left.
Qed.

Lemma eligible_List_is_generated env (w : World) :
  (∀ n, importApi env n = None) →
  "List" ∈ (collect (api_ w) [] []).1 →
  "List" ∈ (collect (api_ w) [] []).2 →
  exportedEE w !! "List" = None →
  let r := initializeGeneratedClasses_ env w in
  r.1 = Ok tt
  ∧ exportedEE r.2 !! "List" = Some Generated
  ∧ "List" ∈ generatedClasses_ r.2.
Proof.
  intros Hi Hn Hr He. cbv zeta.
  change (initializeGeneratedClasses_ env w) with
    ((let '(names, returnTypes) := collect (api_ w) [] [] in
      let* _ := forEach (JS.forIn (dropBlacklisted names)) (generateOne env returnTypes) in
      modify (emit EvRegisterClasses)) w).
  destruct (collect (api_ w) [] []) as [names returnTypes]. cbn [fst snd] in *.
  unfold bind.
  destruct (forEach_generates_List env returnTypes (JS.forIn (dropBlacklisted names)) w Hi)
    as (H1 & H2 & H3).
  { by apply bool_decide_eq_true. }
  { left. split; [by apply forIn_elem, dropBlacklisted_keeps_List | done]. }
  destruct (forEach _ _ w) as [[[]|e] w']; [|done]. done.
Qed.

(** C3, on the code.  The failing input: a catalog with the function
    [List.sequence] returning [List<Object>], and no [ee.List] on the
    namespace.  The generator registers a generated class named [List]:
    the loop meant to remove the reserved names removes the key ["0"]. *)
Theorem reserved_name_List_is_generated :
  let w := set_api Sample.catalog Sample.initialWorld in
  let r := initializeGeneratedClasses_ Sample.envOk w in
  blacklist = ["List"]
  ∧ exportedEE w !! "List" = None
  ∧ r.1 = Ok tt
  ∧ generatedClasses_ r.2 = ["List"; "Kernel"]
  ∧ exportedEE r.2 !! "List" = Some Generated.
Proof. vm_compute. repeat split. Qed.

End GeneratorClaims.

(** ** The type promoter *)

Section PromoterClaims.

Import Promoter.

Variable P : Platform.
Variable reg : gmap string ClassEntry.

Lemma isFixed_spec (klass : string) : isFixed klass = true ↔ klass ∈ fixedNames.
Proof.
  unfold isFixed. rewrite existsb_exists. split.
  - intros (k & Hin & Heq). apply String.eqb_eq in Heq as ->.
    by apply list_elem_of_In.
  - intros Hin. exists klass. split; [by apply list_elem_of_In|].
    apply String.eqb_refl.
Qed.

Lemma isFixed_false (klass : string) : klass ∉ fixedNames → isFixed klass = false.
Proof.
  intros H. destruct (isFixed klass) eqn:E; [|done].
  by apply isFixed_spec in E.
Qed.

(** Off the table, a value that is there goes to the default branch. *)
Lemma promote_off_table (arg : Value) (klass : string) :
  isFixed klass = false → isNull arg = false → isDef arg = true →
  promote_ P reg arg klass = promoteDefault P reg arg klass.
Proof.
  intros Hf Hn Hd. unfold promote_. rewrite Hn, Hd. cbn [negb].
  unfold isFixed in Hf. cbn in Hf.
  repeat (apply orb_false_elim in Hf as [-> Hf]). reflexivity.
Qed.

Lemma truthy_there (arg : Value) :
  truthy arg = true → isNull arg = false ∧ isDef arg = true.
Proof. by destruct arg. Qed.

Lemma newHandWritten_proxy (c : string) (x y : Value) :
  newHandWritten P c x = Ok y → ∃ f a, y = VProxy c f a.
Proof.
  unfold newHandWritten, bindR. destruct (construct P c x) as [n|e]; [|done].
  intros [= <-]. by eexists _, _.
Qed.

Lemma call_proxy (name : string) (args : list Value) (y : Value) :
  call P name args = Ok y → ∃ c f a, y = VProxy c f a.
Proof.
  unfold call, bindR. destruct (apiCall P name args) as [p|e]; [|done].
  intros [= <-]. by eexists _, _, _.
Qed.

Lemma newExported_proxy (klass : string) (x y : Value) :
  newExported P reg klass x = Ok y → ∃ f a, y = VProxy klass f a.
Proof.
  unfold newExported. destruct (reg !! klass) as [[]|].
  - apply newHandWritten_proxy.
  - unfold makeClassTarget, bindR.
    destruct (if instanceOf P x "ComputedObject" then _ else _) as [r|e]; [|done].
    intros [= <-]. by eexists _, _.
  - apply newHandWritten_proxy.
Qed.


End PromoterClaims.

Section PromoterIdempotence.

Import Promoter.

Variable P : Platform.
Variable reg : gmap string ClassEntry.
Hypothesis lawful : Lawful P.

(** A hand-written constructor applied to what it built gives it back. *)
Lemma newHandWritten_again (c : string) (x y : Value) :
  newHandWritten P c x = Ok y → newHandWritten P c y = Ok y.
Proof.
  intros H. destruct (newHandWritten_proxy P c x y H) as (f & a & ->).
  unfold newHandWritten. by rewrite (construct_copy P lawful).
Qed.

Lemma instanceOf_own (c : string) f a : instanceOf P (VProxy c f a) c = true.
Proof. unfold instanceOf. cbn. apply (inherits_refl P lawful). Qed.

Local Ltac again :=
  unfold promote_; cbn [isNull isDef negb];
  repeat match goal with
         | E : String.eqb _ _ = _ |- _ => rewrite E
         | E : orb _ _ = _ |- _ => rewrite E
         end;
  cbn [orb andb].

Local Ltac collection_row :=
  destruct (instanceOf P _ "Collection") eqn:?; [by intros [= <-] _|];
  let H := fresh in
  intros H _; destruct (newHandWritten_proxy P _ _ _ H) as (? & ? & ->);
  again; unfold instanceOf at 1; cbn;
  by rewrite (featureCollection_is_collection P lawful).

(** What an API call returns is a proxy, of the class it says. *)
Lemma call_class (name : string) (args : list Value) (y : Value) (c : string) :
  call P name args = Ok y → classOf y = Some c →
  ∃ f a, y = VProxy c f a.
Proof.
  intros H Hc. destruct (call_proxy P _ _ _ H) as (c' & f & a & ->).
  injection Hc as ->. by eexists _, _.
Qed.


End PromoterIdempotence.

(** ** The promoter on the sample platform *)

Section PromoterSamples.

Import Promoter Sample.

Lemma symbolic_lawful : Lawful symbolic.
Proof.
  split.
  - intros c. cbn. unfold sampleInherits. by rewrite String.eqb_refl.
  - reflexivity.
  - reflexivity.
  - reflexivity.
  - reflexivity.
Qed.

Lemma Kernel_off_table : "Kernel" ∉ fixedNames.
Proof. intros H. apply isFixed_spec in H. vm_compute in H. discriminate H. Qed.

Lemma Date_on_table : "Date" ∈ fixedNames.
Proof. apply isFixed_spec. reflexivity. Qed.





End PromoterSamples.

(** * Further properties of the file *)

(** ** Relations kept along a computation *)

Section Keeps.

Import View.

Variable R : World → World → Prop.
Hypothesis HR : Composes R.


Lemma keeps_ret {A} (a : A) : keeps R (ret a).
Proof. intros w. apply (composes_refl R HR). Qed.

Lemma keeps_throw {A} (e : Error) : keeps R (@throw A e).
Proof. intros w. apply (composes_refl R HR). Qed.

Lemma keeps_get : keeps R get.
Proof. intros w. apply (composes_refl R HR). Qed.

Lemma keeps_modify (f : World → World) : (∀ w, R w (f w)) → keeps R (modify f).
Proof. intros Hf w. apply Hf. Qed.

Lemma keeps_bind {A B} (c : M A) (k : A → M B) :
  keeps R c → (∀ a, keeps R (k a)) → keeps R (bind c k).
Proof.
  intros Hc Hk w. unfold bind. specialize (Hc w).
  destruct (c w) as [[a|e] w1]; cbn in *; [|done].
  eapply (composes_trans R HR); [exact Hc | apply Hk].
Qed.

Lemma keeps_tryCatch {A} (c : M A) (h : Error → M A) :
  keeps R c → (∀ e, keeps R (h e)) → keeps R (tryCatch c h).
Proof.
  intros Hc Hh w. unfold tryCatch. specialize (Hc w).
  destruct (c w) as [[a|e] w1]; cbn in *; [done|].
  eapply (composes_trans R HR); [exact Hc | apply Hh].
Qed.

Lemma keeps_raising (r : option Error) : keeps R (raising r).
Proof. destruct r; [apply keeps_throw | apply keeps_ret]. Qed.

Lemma keeps_lift {A} (r : Result A) : keeps R (lift r).
Proof. destruct r; [apply keeps_ret | apply keeps_throw]. Qed.

Lemma keeps_forEach {A} (l : list A) (body : A → M unit) :
  (∀ x, keeps R (body x)) → keeps R (forEach l body).
Proof.
  intros Hb. induction l as [|x l IH]; cbn; [apply keeps_ret|].
  apply keeps_bind; [apply Hb | intros _; apply IH].
Qed.

Lemma keeps_forEach_in {A} (l : list A) (body : A → M unit) :
  (∀ x, x ∈ l → keeps R (body x)) → keeps R (forEach l body).
Proof.
  induction l as [|x l IH]; intros Hb; cbn; [apply keeps_ret|].
  apply keeps_bind; [apply Hb; by left | intros _].
  apply IH. intros y Hy. apply Hb. by right.
Qed.

Hypothesis HC : Controlled R.


Import Controller.

Lemma keeps_drainSuccess (q : list SuccessCallback) : keeps R (drainSuccess q).
Proof.
  induction q as [|cb rest IH]; cbn [drainSuccess]; [apply keeps_ret|].
  apply keeps_bind; [apply keeps_modify; intros; apply HC|]. intros _.
  apply keeps_bind; [|intros _; apply IH].
  unfold callSuccess. apply keeps_bind; [apply keeps_modify; intros; apply HC|].
  intros _. apply keeps_raising.
Qed.

Lemma keeps_drainError (e : Error) (q : list ErrorCallback) :
  keeps R (drainError e q).
Proof.
  induction q as [|cb rest IH]; cbn [drainError]; [apply keeps_ret|].
  apply keeps_bind; [apply keeps_modify; intros; apply HC|]. intros _.
  apply keeps_bind; [|intros _; apply IH].
  unfold callError. apply keeps_bind; [apply keeps_modify; intros; apply HC|].
  intros _. apply keeps_raising.
Qed.

Lemma keeps_initializationFailure_ (e : Error) : keeps R (initializationFailure_ e).
Proof.
  unfold initializationFailure_. apply keeps_bind; [apply keeps_get|].
  intros w. destruct (negb _); [apply keeps_ret|].
  apply keeps_bind; [apply keeps_modify; intros; apply HC|]. intros _.
  apply keeps_bind; [apply keeps_modify; intros; apply HC|]. intros _.
  apply keeps_bind; [apply keeps_get|]. intros w'. apply keeps_drainError.
Qed.

Lemma keeps_initializationSuccess_ (env : Env) :
  keeps R (bootstrap env) → keeps R (initializationSuccess_ env).
Proof.
  intros Hb. unfold initializationSuccess_.
  apply keeps_bind; [apply keeps_get|].
  intros w. destruct (negb _); [apply keeps_ret|].
  apply keeps_bind.
  - apply keeps_tryCatch.
    + apply keeps_bind; [exact Hb|]. intros _. apply keeps_ret.
    + intros e. apply keeps_bind; [apply keeps_initializationFailure_|].
      intros _. apply keeps_ret.
  - intros [|]; [|apply keeps_ret].
    apply keeps_bind; [apply keeps_modify; intros; apply HC|]. intros _.
    apply keeps_bind; [apply keeps_modify; intros; apply HC|]. intros _.
    apply keeps_bind; [apply keeps_get|]. intros w'. apply keeps_drainSuccess.
Qed.

Lemma keeps_pushSuccess cb : keeps R (pushSuccess cb).
Proof. destruct cb; [apply keeps_modify; intros; apply HC | apply keeps_ret]. Qed.

Lemma keeps_initialize (env : Env) b t cb ecb :
  keeps R (bootstrap env) →
  (∀ c w, apiInitialize env = Ok c → R w (set_api c w)) →
  keeps R (initialize env b t cb ecb).
Proof.
  intros Hb Hapi. unfold initialize. apply keeps_bind; [apply keeps_get|].
  intros w. destruct (_ && _).
  { destruct cb as [c|]; [|apply keeps_ret].
    unfold callSuccess. apply keeps_bind; [apply keeps_modify; intros; apply HC|].
    intros _. apply keeps_raising. }
  apply keeps_bind.
  { destruct ecb as [e|]; [|apply keeps_ret].
    destruct (bool_decide _); [apply keeps_modify; intros; apply HC | apply keeps_throw]. }
  intros _. apply keeps_bind; [apply keeps_get|]. intros w'.
  destruct (_ && _); [apply keeps_pushSuccess|].
  apply keeps_bind; [apply keeps_modify; intros; apply HC|]. intros _.
  apply keeps_bind; [apply keeps_modify; intros; apply HC|]. intros _.
  destruct (bool_decide _).
  { apply keeps_bind; [apply keeps_pushSuccess|]. intros _. apply keeps_modify; intros; apply HC. }
  apply keeps_tryCatch.
  - apply keeps_bind; [|intros _; by apply keeps_initializationSuccess_].
    unfold apiInitializeSync. apply keeps_bind; [apply keeps_modify; intros; apply HC|].
    intros _ w0. unfold bind.
    destruct (apiInitialize env) as [c|e] eqn:E; cbn; [by apply Hapi | apply (composes_refl R HR)].
  - intros e. apply keeps_bind; [apply keeps_initializationFailure_|].
    intros _. apply keeps_throw.
Qed.

End Keeps.

(** ** The namespace only grows, and [ee.reset] takes the growth back *)

Section Namespace.

Import View Generator Controller Run.

Lemma growsBy_same ok (w w' : World) :
  generatedClasses_ w' = generatedClasses_ w →
  exportedEE w' = exportedEE w →
  algBound (Algorithms w') = algBound (Algorithms w) →
  growsBy ok w w'.
Proof.
  intros Hg He Ha. exists []. rewrite app_nil_r, He.
  split; [done|]. split; [done|]. split; [|done].
  intros k Hk. by apply elem_of_nil in Hk.
Qed.

Lemma growsBy_refl ok (w : World) : growsBy ok w w.
Proof. by apply growsBy_same. Qed.

Lemma growsBy_trans ok (a b c : World) :
  growsBy ok a b → growsBy ok b c → growsBy ok a c.
Proof.
  intros (l1 & Hg1 & He1 & Hn1 & Ha1) (l2 & Hg2 & He2 & Hn2 & Ha2).
  exists (l1 ++ l2). rewrite Hg2, Hg1, app_assoc. split; [done|].
  split; [|split; [|congruence]].
  - intros k. rewrite He2, He1.
    destruct (bool_decide_reflect (k ∈ l2)) as [H2|H2].
    + rewrite bool_decide_eq_true_2; [done|]. apply elem_of_app. by right.
    + destruct (bool_decide_reflect (k ∈ l1)) as [H1|H1].
      * rewrite bool_decide_eq_true_2; [done|]. apply elem_of_app. by left.
      * rewrite bool_decide_eq_false_2; [done|].
        intros [?|?]%elem_of_app; done.
  - intros k [H1|H2]%elem_of_app; [by apply Hn1|].
    destruct (Hn2 k H2) as [Hok Hb]. split; [done|].
    rewrite He1 in Hb. by destruct (bool_decide (k ∈ l1)).
Qed.

Lemma growsBy_composes ok : Composes (growsBy ok).
Proof. split; [apply growsBy_refl | apply growsBy_trans]. Qed.

Lemma growsBy_controlled ok : Controlled (growsBy ok).
Proof. split; intros; by apply growsBy_same. Qed.

Lemma growsBy_weaken (ok ok' : string → Prop) (w w' : World) :
  (∀ k, ok k → ok' k) → growsBy ok w w' → growsBy ok' w w'.
Proof.
  intros Hw (l & Hg & He & Hn & Ha). exists l. repeat split; try done.
  - apply Hw. by apply Hn.
  - by apply Hn.
Qed.

Lemma growing_generateOne ok env returnTypes name :
  (JS.hasKey name returnTypes = true → ok name) →
  keeps (growsBy ok) (generateOne env returnTypes name).
Proof.
  intros Hok w. unfold generateOne. unfold bind at 1. unfold get.
  destruct (JS.hasKey name returnTypes) eqn:Hrt; cbn [andb];
    [|apply growsBy_refl].
  destruct (bool_decide_reflect (exportedEE w !! name = None)) as [Hnone|Hsome];
    [|apply growsBy_refl].
  unfold makeClass_. unfold bind at 1. unfold bind at 1. cbn [modify].
  unfold bind at 1. destruct (importApi env name) as [e|]; cbn.
  { by apply growsBy_same. }
  exists [name]. cbn. repeat split; try done.
  - intros k. destruct (decide (k = name)) as [->|Hne].
    + rewrite lookup_insert_eq. rewrite bool_decide_eq_true_2; [done|]. by left.
    + rewrite lookup_insert_ne by done.
      rewrite bool_decide_eq_false_2; [done|].
      by intros ->%list_elem_of_singleton.
  - apply list_elem_of_singleton in H as ->. by apply Hok.
  - by apply list_elem_of_singleton in H as ->.
Qed.

Lemma setKey_elem (k x : string) (l : list string) :
  k ∈ JS.setKey x l ↔ k = x ∨ k ∈ l.
Proof.
  unfold JS.setKey. destruct (bool_decide_reflect (x ∈ l)) as [H|H].
  - split; [by right | by intros [->|?]].
  - rewrite elem_of_app, list_elem_of_singleton. tauto.
Qed.

Lemma setKey_NoDup (x : string) (l : list string) :
  NoDup l → NoDup (JS.setKey x l).
Proof.
  intros Hl. unfold JS.setKey.
  destruct (bool_decide_reflect (x ∈ l)) as [H|H]; [done|].
  apply NoDup_app. split; [done|]. split; [|apply NoDup_singleton].
  intros y Hy ->%list_elem_of_singleton. done.
Qed.

(** The first loop collects exactly the namespace prefixes and the bare
    return types, each once. *)
Lemma collect_spec (c : Catalog) (names returnTypes : list string) :
  (∀ k, k ∈ (collect c names returnTypes).1 ↔ k ∈ names ∨ k ∈ namespaces c)
  ∧ (∀ k, k ∈ (collect c names returnTypes).2
          ↔ k ∈ returnTypes ∨ k ∈ bareReturnTypes c)
  ∧ (NoDup names → NoDup (collect c names returnTypes).1).
Proof.
  revert names returnTypes.
  induction c as [|[sig s] c IH]; intros names returnTypes.
  - cbn. repeat split; try tauto; intros [?|H]; try done; by apply elem_of_nil in H.
  - cbn [collect]. destruct (IH (match JS.indexOf "." sig with
                                 | Some i => JS.setKey (JS.sliceTo i sig) names
                                 | None => names
                                 end)
                                (JS.setKey (JS.stripTypeInfo (returns s)) returnTypes))
      as (IH1 & IH2 & IH3).
    split; [|split].
    + intros k. rewrite IH1. unfold namespaces. cbn [omap list_omap fst].
      destruct (JS.indexOf "." sig) as [i|]; cbn.
      * rewrite setKey_elem, elem_of_cons. tauto.
      * tauto.
    + intros k. rewrite IH2, setKey_elem. unfold bareReturnTypes. cbn.
      rewrite elem_of_cons. tauto.
    + intros Hn. apply IH3. destruct (JS.indexOf "." sig); [|done].
      by apply setKey_NoDup.
Qed.

Lemma dropBlacklisted_subset (names : list string) (k : string) :
  k ∈ dropBlacklisted names → k ∈ names.
Proof.
  rewrite dropBlacklisted_index. destruct (JS.hasKey "0" names); [|done].
  unfold JS.deleteKey. by intros [_ ?]%list_elem_of_filter.
Qed.

(** What [ee.initializeGeneratedClasses_] adds, whether or not it raises
    on the way: classes named after a namespace prefix that is also a bare
    return type, under names that were free. *)
Lemma generator_grows env (w : World) :
  growsBy (λ k, k ∈ namespaces (api_ w) ∧ k ∈ bareReturnTypes (api_ w))
    w (initializeGeneratedClasses_ env w).2.
Proof.
  change (initializeGeneratedClasses_ env w) with
    ((let '(names, returnTypes) := collect (api_ w) [] [] in
      let* _ := forEach (JS.forIn (dropBlacklisted names)) (generateOne env returnTypes) in
      modify (emit EvRegisterClasses)) w).
  destruct (collect_spec (api_ w) [] []) as (Hn & Hr & _).
  destruct (collect (api_ w) [] []) as [names returnTypes]. cbn [fst snd] in *.
  apply (keeps_bind _ (growsBy_composes _)).
  - apply (keeps_forEach_in _ (growsBy_composes _)).
    intros name Hin. apply growing_generateOne. intros Hrt. split.
    + apply forIn_elem, dropBlacklisted_subset, Hn in Hin as [Hin|Hin]; [|done].
      by apply elem_of_nil in Hin.
    + apply bool_decide_eq_true, Hr in Hrt as [Hrt|Hrt]; [|done].
      by apply elem_of_nil in Hrt.
  - intros _ w'. by apply growsBy_same.
Qed.

Lemma attach_bound (parts : list string) (fn : string) (t : AlgNode) :
  algBound (Binder.attach parts fn t) = algBound t.
Proof. destruct parts as [|a [|b r]]; by destruct t. Qed.

Lemma growing_bootstrap env : keeps grows (bootstrap env).
Proof.
  unfold bootstrap, grows.
  apply (keeps_bind _ (growsBy_composes _)).
  { unfold initializeHooks.
    apply (keeps_forEach _ (growsBy_composes _)). intros h.
    apply (keeps_bind _ (growsBy_composes _)).
    - intros w. by apply growsBy_same.
    - intros _. apply (keeps_raising _ (growsBy_composes _)). }
  intros _. apply (keeps_bind _ (growsBy_composes _)).
  { intros w. eapply growsBy_weaken; [|apply generator_grows]. done. }
  intros _. unfold Binder.initializeUnboundMethods_.
  apply (keeps_bind _ (growsBy_composes _)).
  { intros w. by apply growsBy_same. }
  intros _. apply (keeps_bind _ (growsBy_composes _)).
  { apply (keeps_lift _ (growsBy_composes _)). }
  intros fns. apply (keeps_forEach _ (growsBy_composes _)).
  intros [name signature]. unfold Binder.bindOne.
  destruct (hidden signature); [apply (keeps_ret _ (growsBy_composes _))|].
  intros w. apply growsBy_same; cbn; try done. apply attach_bound.
Qed.

Lemma growing_step (s : Step) : s ≠ CallReset → keeps grows (step s).
Proof.
  intros Hs. destruct s as [env b t cb ecb| |env c|e]; cbn [step]; [|done| |].
  - apply (keeps_initialize _ (growsBy_composes _) (growsBy_controlled _)).
    + apply growing_bootstrap.
    + intros c w _. by apply growsBy_same.
  - unfold loadSucceeded. apply (keeps_bind _ (growsBy_composes _)).
    { intros w. by apply growsBy_same. }
    intros _.
    apply (keeps_initializationSuccess_ _ (growsBy_composes _) (growsBy_controlled _)).
    apply growing_bootstrap.
  - unfold loadFailed.
    apply (keeps_initializationFailure_ _ (growsBy_composes _) (growsBy_controlled _)).
Qed.

Lemma growing_exec (steps : list Step) (w : World) :
  resetFree steps → grows w (exec steps w).
Proof.
  revert w. induction steps as [|s steps IH]; intros w Hf.
  - apply growsBy_refl.
  - apply Forall_cons in Hf as [Hs Hf]. cbn.
    eapply growsBy_trans; [by apply growing_step | by apply IH].
Qed.

End Namespace.

(** ** [ee.reset] and [ee.resetGeneratedClasses_] *)

Section ResetFacts.

Import View Generator Controller Run.

Lemma forEach_clear (l : list string) (w : World) :
  forEach l (λ name,
    let* _ := modify (emit (EvClearApi name)) in
    modify (λ w, set_exportedEE (delete name (exportedEE w)) w)) w
  = (Ok tt,
     set_exportedEE (foldl (λ m k, delete k m) (exportedEE w) l)
       (emits (EvClearApi <$> l) w)).
Proof.
  revert w. induction l as [|x l IH]; intros w.
  - cbn. rewrite emits_nil. by destruct w.
  - cbn [forEach]. unfold bind at 1. unfold bind at 1. cbn [modify].
    rewrite IH. cbn. unfold set_exportedEE, emits, emit. cbn.
    by rewrite <- app_assoc.
Qed.

Lemma lookup_foldl_delete (l : list string) (m : gmap string ClassEntry) k :
  foldl (λ m k, delete k m) m l !! k
  = if bool_decide (k ∈ l) then None else m !! k.
Proof.
  revert m. induction l as [|x l IH]; intros m; [done|].
  cbn [foldl]. rewrite IH.
  destruct (bool_decide_reflect (k ∈ l)) as [Hl|Hl].
  - rewrite bool_decide_eq_true_2; [done|]. by right.
  - destruct (decide (k = x)) as [->|Hne].
    + rewrite lookup_delete_eq. rewrite bool_decide_eq_true_2; [done|]. by left.
    + rewrite lookup_delete_ne by done.
      rewrite bool_decide_eq_false_2; [done|]. by intros [?|?]%elem_of_cons.
Qed.

Lemma resetGeneratedClasses_eq (w : World) :
  resetGeneratedClasses_ w =
    (Ok tt,
     emit EvRegisterClasses
       (set_generatedClasses []
          (set_exportedEE
             (foldl (λ m k, delete k m) (exportedEE w) (generatedClasses_ w))
             (emits (EvClearApi <$> generatedClasses_ w) w)))).
Proof.
  unfold resetGeneratedClasses_. unfold bind at 1. unfold get.
  unfold bind at 1. by rewrite forEach_clear.
Qed.

(** The world after [ee.reset], field by field. *)
Lemma reset_world (w : World) :
  ∃ t, reset w =
    (Ok tt,
     {| ready_ := NOT_READY;
        successCallbacks_ := successCallbacks_ w;
        errorCallbacks_ := errorCallbacks_ w;
        generatedClasses_ := [];
        exportedEE := foldl (λ m k, delete k m) (exportedEE w) (generatedClasses_ w);
        Algorithms := MkAlgNode (algBound (Algorithms w)) [];
        api_ := [];
        trace := t |}).
Proof.
  unfold reset. rewrite !bind_modify.
  unfold bind at 1. cbn [forEach hooks]. rewrite !bind_modify. cbn [ret].
  unfold bind at 1. rewrite resetGeneratedClasses_eq. cbn. by eexists.
Qed.




(** X4.  Every class the generator registers is inferred from the
    catalog: a name on [ee.generatedClasses_] after a run was there before,
    or it is the prefix before the first ['.'] of some function name, and
    the return type of some function with its type parameters removed, and
    was not on the namespace; it is then on the namespace as a generated
    class.  This holds also when the run raises part way. *)
Theorem generated_classes_are_inferred env (w : World) k :
  k ∈ generatedClasses_ (initializeGeneratedClasses_ env w).2 →
  k ∈ generatedClasses_ w
  ∨ (k ∈ namespaces (api_ w)
     ∧ k ∈ bareReturnTypes (api_ w)
     ∧ exportedEE w !! k = None
     ∧ exportedEE (initializeGeneratedClasses_ env w).2 !! k = Some Generated).
Proof.
  destruct (generator_grows env w) as (added & Hadd & Hl & Hn & _).
  rewrite Hadd. intros [Hk|Hk]%elem_of_app; [by left|]. right.
  destruct (Hn k Hk) as [[H1 H2] H3]. repeat split; try done.
  rewrite Hl. by rewrite bool_decide_eq_true_2.
Qed.

Lemma generated_classes_are_inferred_witness :
  let w := set_api Sample.catalog Sample.initialWorld in
  "Kernel" ∈ namespaces (api_ w) ∧ "Kernel" ∈ bareReturnTypes (api_ w).
Proof.
  cbv zeta.
  destruct (generated_classes_are_inferred Sample.envOk
              (set_api Sample.catalog Sample.initialWorld) "Kernel")
    as [H | (H1 & H2 & _)].
  - vm_compute. apply list_elem_of_In. right. left. reflexivity.
  - vm_compute in H. by apply elem_of_nil in H.
  - by split.
Defined.

End ResetFacts.

(** ** The controller, call by call *)

Section ControllerExtras.

Import View Generator Controller Run.

Lemma invokedError_successes (q : list SuccessCallback) :
  invokedError (EvSuccessCallback ∘ scId <$> q) = [].
Proof. by induction q. Qed.

Lemma invokedSuccess_errors (e : Error) (q : list ErrorCallback) :
  invokedSuccess ((λ cb, EvErrorCallback (ecId cb) e) <$> q) = [].
Proof. by induction q. Qed.

Lemma succeeds_bind (c : M unit) (k : unit → M unit) :
  succeeds c → succeeds (k tt) → succeeds (bind c k).
Proof.
  intros Hc Hk w. unfold bind. specialize (Hc w).
  destruct (c w) as [[[]|e] w1]; cbn in *; [apply Hk | done].
Qed.

Lemma succeeds_forEach {A} (l : list A) (body : A → M unit) :
  (∀ x, succeeds (body x)) → succeeds (forEach l body).
Proof.
  intros Hb. induction l as [|x l IH]; [done|].
  cbn [forEach]. by apply succeeds_bind.
Qed.

Lemma succeeds_modify (f : World → World) : succeeds (modify f).
Proof. done. Qed.

Lemma calm_bootstrap env : calm env → succeeds (bootstrap env).
Proof.
  intros (Hh & Hi & fns & Hu). unfold bootstrap.
  apply succeeds_bind.
  { apply succeeds_forEach. intros h. apply succeeds_bind; [done|].
    by rewrite Hh. }
  apply succeeds_bind.
  { intros w.
    change (initializeGeneratedClasses_ env w) with
      ((let '(names, returnTypes) := collect (api_ w) [] [] in
        let* _ := forEach (JS.forIn (dropBlacklisted names)) (generateOne env returnTypes) in
        modify (emit EvRegisterClasses)) w).
    destruct (collect (api_ w) [] []) as [names returnTypes].
    apply succeeds_bind; [|done]. apply succeeds_forEach. intros name w'.
    by rewrite generateOne_spec. }
  unfold Binder.initializeUnboundMethods_. apply succeeds_bind; [done|].
  rewrite Hu. intros w. cbn [lift]. unfold bind at 1. cbn [ret].
  apply succeeds_forEach. intros [name signature] w'. unfold Binder.bindOne.
  by destruct (hidden signature).
Qed.

(** X9.  An asynchronous [ee.initialize] off the fast path never raises
    and invokes no callback before it returns: it leaves the state
    LOADING with its callbacks at the back of the queues.  During a load
    it starts nothing and its endpoints are ignored; otherwise it
    configures the transport once and starts one asynchronous load. *)
Theorem asynchronous_call_only_queues env b t cb ecb (w : World) :
  fastPath w b t = false →
  let r := initialize env b t (Some cb) ecb w in
  r.1 = Ok tt
  ∧ ready_ r.2 = LOADING
  ∧ successCallbacks_ r.2 = successCallbacks_ w ++ [cb]
  ∧ errorCallbacks_ r.2 = errorCallbacks_ w ++ option_list ecb
  ∧ invokedSuccess (trace r.2) = invokedSuccess (trace w)
  ∧ invokedError (trace r.2) = invokedError (trace w)
  ∧ bootstraps (trace r.2)
    = bootstraps (trace w)
      ++ (if InitState_eqb (ready_ w) LOADING then []
          else [EvDataInitialize b t; EvApiInitialize true]).
Proof.
  intros Hf. cbv zeta. destruct (decide (ready_ w = LOADING)) as [Hl|Hl].
  - rewrite initialize_async_loading by done. rewrite Hl. cbn.
    by rewrite app_nil_r.
  - rewrite initialize_async_start by done. cbn.
    rewrite !invokedSuccess_app, !invokedError_app. cbn. rewrite !app_nil_r.
    repeat split; try done. unfold bootstraps. rewrite <- app_assoc, filter_app.
    by destruct (ready_ w).
Qed.

Lemma asynchronous_call_only_queues_witness :
  let r := initialize Sample.envLoadFails Sample.endpoint None
             (Some (Sample.failingOnSuccess 1)) (Some (Sample.onError 2))
             Sample.initialWorld in
  r.1 = Ok tt
  ∧ ready_ r.2 = LOADING
  ∧ bootstraps (trace r.2)
    = [EvDataInitialize Sample.endpoint None; EvApiInitialize true].
Proof.
  cbv zeta.
  destruct (asynchronous_call_only_queues Sample.envLoadFails Sample.endpoint None
              (Sample.failingOnSuccess 1) (Some (Sample.onError 2))
              Sample.initialWorld) as (H1 & H2 & _ & _ & _ & _ & H3).
  - vm_compute. reflexivity.
  - split; [exact H1|]. split; [exact H2|]. rewrite H3. vm_compute. reflexivity.
Defined.

Lemma forEach_stops {A} (pre post : list A) (x : A) (body : A → M unit)
    (e : Error) (w w1 w2 : World) :
  forEach pre body w = (Ok tt, w1) →
  body x w1 = (Throw e, w2) →
  forEach (pre ++ x :: post) body w = (Throw e, w2).
Proof.
  revert w. induction pre as [|y pre IH]; intros w Hpre Hx.
  - cbn in Hpre. injection Hpre as <-. cbn. unfold bind. by rewrite Hx.
  - cbn [forEach app] in *. unfold bind in *.
    destruct (body y w) as [[[]|e'] w']; [|done]. by apply IH.
Qed.

Lemma forEach_hooks_ok env (pre : list Hook) (w : World) :
  (∀ h, h ∈ pre → hookInitialize env h = None) →
  forEach pre (λ h, let* _ := modify (emit (EvHookInitialize h)) in
                    raising (hookInitialize env h)) w
  = (Ok tt, emits (EvHookInitialize <$> pre) w).
Proof.
  revert w. induction pre as [|h pre IH]; intros w Hpre.
  - cbn. by rewrite emits_nil.
  - cbn [forEach]. unfold bind at 1. unfold bind at 1. cbn [modify].
    rewrite (Hpre h) by (by left). cbn [raising ret].
    rewrite IH by (intros h' Hh'; apply Hpre; by right).
    by rewrite fmap_cons, emits_cons.
Qed.

(** X10.  A hook that raises ends the bootstrap there: the hooks before it
    have run, in order, the bootstrap raises the hook's error, and nothing
    else has happened (no later hook, no class generated, nothing bound on
    [ee.Algorithms]). *)
Theorem failing_hook_stops_bootstrap env (pre post : list Hook) (h : Hook)
    (e : Error) (w : World) :
  hooks = pre ++ h :: post →
  (∀ h', h' ∈ pre → hookInitialize env h' = None) →
  hookInitialize env h = Some e →
  bootstrap env w = (Throw e, emits (EvHookInitialize <$> (pre ++ [h])) w).
Proof.
  intros Hh Hpre He. unfold bootstrap, initializeHooks. rewrite Hh.
  unfold bind at 1.
  rewrite (forEach_stops pre post h _ e w (emits (EvHookInitialize <$> pre) w)
             (emits (EvHookInitialize <$> (pre ++ [h])) w)).
  - reflexivity.
  - by apply forEach_hooks_ok.
  - unfold bind, modify. rewrite He. cbn. f_equal.
    unfold emits, emit. cbn. by rewrite fmap_app, app_assoc.
Qed.

Lemma failing_hook_stops_bootstrap_witness :
  bootstrap Sample.envHookFails (set_api Sample.catalog Sample.initialWorld)
  = (Throw Sample.hookError,
     emits (EvHookInitialize <$>
              [HImage; HFeature; HCollection; HImageCollection;
               HFeatureCollection; HFilter])
       (set_api Sample.catalog Sample.initialWorld)).
Proof.
  apply (failing_hook_stops_bootstrap Sample.envHookFails
           [HImage; HFeature; HCollection; HImageCollection; HFeatureCollection]
           [HGeometry; HNumber; HString] HFilter).
  - reflexivity.
  - intros h' Hh'. by repeat (apply elem_of_cons in Hh' as [->|Hh']; [reflexivity|]);
      apply elem_of_nil in Hh'.
  - reflexivity.
Defined.

End ControllerExtras.

(** ** The generator, run again; the catalog's names *)

Section GeneratorExtras.

Import View Generator.

Lemma sameApi_composes : Composes sameApi.
Proof. split; unfold sameApi; congruence. Qed.

Lemma generator_sameApi env (w : World) :
  api_ (initializeGeneratedClasses_ env w).2 = api_ w.
Proof.
  change (initializeGeneratedClasses_ env w) with
    ((let '(names, returnTypes) := collect (api_ w) [] [] in
      let* _ := forEach (JS.forIn (dropBlacklisted names)) (generateOne env returnTypes) in
      modify (emit EvRegisterClasses)) w).
  destruct (collect (api_ w) [] []) as [names returnTypes].
  apply (keeps_bind sameApi sameApi_composes); [|by intros _ w'].
  apply (keeps_forEach sameApi sameApi_composes). intros name.
  unfold generateOne. apply (keeps_bind _ sameApi_composes); [by intros w'|].
  intros w'. destruct (_ && _); [|by intros w''].
  apply (keeps_bind _ sameApi_composes).
  { unfold makeClass_. apply (keeps_bind _ sameApi_composes); [by intros w''|].
    intros _. apply (keeps_bind _ sameApi_composes); [|by intros _ w''].
    apply (keeps_raising _ sameApi_composes). }
  intros cls. apply (keeps_bind _ sameApi_composes); by intros.
Qed.

Lemma generateOne_skip env returnTypes name (w : World) :
  JS.hasKey name returnTypes && bool_decide (exportedEE w !! name = None) = false →
  generateOne env returnTypes name w = (Ok tt, w).
Proof. intros H. unfold generateOne, bind, get. by rewrite H. Qed.

Lemma forEach_skip env returnTypes (l : list string) (w : World) :
  (∀ n, n ∈ l →
     JS.hasKey n returnTypes && bool_decide (exportedEE w !! n = None) = false) →
  forEach l (generateOne env returnTypes) w = (Ok tt, w).
Proof.
  induction l as [|x l IH]; intros H; [done|].
  rewrite (forEach_cons_ok x l _ w w).
  - apply IH. intros n Hn. apply H. by right.
  - apply generateOne_skip, H. by left.
Qed.

(** Once added, an entry is there for the rest of the loop. *)
Lemma forEach_generateOne_keeps env returnTypes (l : list string) (w : World) n :
  exportedEE w !! n ≠ None →
  exportedEE (forEach l (generateOne env returnTypes) w).2 !! n ≠ None.
Proof.
  intros Hn.
  destruct (keeps_forEach (growsBy (λ _, True)) (growsBy_composes _) l
              (generateOne env returnTypes)
              (λ x, growing_generateOne _ env returnTypes x (λ _, I)) w)
    as (added & _ & Hl & _).
  rewrite Hl. by destruct (bool_decide (n ∈ added)).
Qed.

Lemma forEach_generateOne_done env returnTypes (l : list string) (w w1 : World) :
  forEach l (generateOne env returnTypes) w = (Ok tt, w1) →
  ∀ n, n ∈ l →
    JS.hasKey n returnTypes && bool_decide (exportedEE w1 !! n = None) = false.
Proof.
  revert w. induction l as [|x l IH]; intros w Hrun n Hn.
  { by apply elem_of_nil in Hn. }
  cbn [forEach] in Hrun. unfold bind in Hrun.
  destruct (generateOne env returnTypes x w) as [[[]|e] wx] eqn:Hx; [|done].
  apply elem_of_cons in Hn as [->|Hn]; [|by apply (IH wx)].
  destruct (JS.hasKey x returnTypes) eqn:Hrt; [|done]. cbn [andb].
  apply bool_decide_eq_false.
  replace w1 with (forEach l (generateOne env returnTypes) wx).2
    by (by rewrite Hrun).
  apply forEach_generateOne_keeps.
  unfold generateOne in Hx. unfold bind at 1 in Hx. unfold get in Hx.
  rewrite Hrt in Hx. cbn [andb] in Hx.
  destruct (bool_decide_reflect (exportedEE w !! x = None)) as [Hnone|Hsome].
  - unfold makeClass_ in Hx. unfold bind at 1 in Hx. unfold bind at 1 in Hx.
    cbn [modify] in Hx. unfold bind at 1 in Hx.
    destruct (importApi env x); [done|]. cbn in Hx. injection Hx as <-.
    cbn. by rewrite lookup_insert_eq.
  - by injection Hx as <-.
Qed.

(** X11.  Running the generator a second time on the same catalog adds
    nothing: after a run that returned normally, another run (whatever the
    collaborators do then) returns normally and leaves the namespace and
    the list of generated classes as they are, so no class is registered
    twice. *)
Theorem generator_is_idempotent env env' (w w1 : World) :
  initializeGeneratedClasses_ env w = (Ok tt, w1) →
  initializeGeneratedClasses_ env' w1 = (Ok tt, emit EvRegisterClasses w1).
Proof.
  intros Hrun.
  assert (api_ w1 = api_ w) as Hapi.
  { replace w1 with (initializeGeneratedClasses_ env w).2 by (by rewrite Hrun).
    apply generator_sameApi. }
  revert Hrun.
  change (initializeGeneratedClasses_ env w) with
    ((let '(names, returnTypes) := collect (api_ w) [] [] in
      let* _ := forEach (JS.forIn (dropBlacklisted names)) (generateOne env returnTypes) in
      modify (emit EvRegisterClasses)) w).
  change (initializeGeneratedClasses_ env' w1) with
    ((let '(names, returnTypes) := collect (api_ w1) [] [] in
      let* _ := forEach (JS.forIn (dropBlacklisted names)) (generateOne env' returnTypes) in
      modify (emit EvRegisterClasses)) w1).
  rewrite Hapi. destruct (collect (api_ w) [] []) as [names returnTypes].
  unfold bind.
  destruct (forEach (JS.forIn (dropBlacklisted names)) (generateOne env returnTypes) w)
    as [[[]|e] w'] eqn:Hloop; [|done].
  cbn -[dropBlacklisted]. intros [= <-].
  rewrite forEach_skip; [done|]. intros n Hn.
  change (exportedEE (emit EvRegisterClasses w')) with (exportedEE w').
  by apply (forEach_generateOne_done env returnTypes (JS.forIn (dropBlacklisted names)) w w').
Qed.

Lemma generator_is_idempotent_witness :
  let w := set_api Sample.catalog Sample.initialWorld in
  let w1 := (initializeGeneratedClasses_ Sample.envOk w).2 in
  generatedClasses_ w1 = ["List"; "Kernel"]
  ∧ generatedClasses_ (initializeGeneratedClasses_ Sample.envHookFails w1).2
    = ["List"; "Kernel"].
Proof.
  cbv zeta. split; [vm_compute; reflexivity|].
  rewrite (generator_is_idempotent Sample.envOk Sample.envHookFails
             (set_api Sample.catalog Sample.initialWorld)
             (initializeGeneratedClasses_ Sample.envOk
                (set_api Sample.catalog Sample.initialWorld)).2).
  - vm_compute. reflexivity.
  - vm_compute. reflexivity.
Defined.

Lemma append_empty (s : string) : "" +:+ s = s.
Proof. reflexivity. Qed.

Lemma append_String (a : ascii) (s u : string) :
  String a s +:+ u = String a (s +:+ u).
Proof. reflexivity. Qed.

Lemma indexOf_prefix (c : ascii) (p rest : string) :
  lacks c p → JS.indexOf c (p +:+ String c rest) = Some (String.length p).
Proof.
  unfold lacks. induction p as [|a p IH]; intros H.
  - rewrite append_empty. cbn [JS.indexOf]. by rewrite Ascii.eqb_refl.
  - rewrite append_String. cbn [JS.indexOf String.length] in *.
    destruct (Ascii.eqb a c); [done|].
    destruct (JS.indexOf c p); [done|]. by rewrite IH.
Qed.

Lemma sliceTo_prefix (p rest : string) :
  JS.sliceTo (String.length p) (p +:+ rest) = p.
Proof.
  induction p as [|a p IH].
  - rewrite append_empty. by destruct rest.
  - rewrite append_String. cbn [String.length JS.sliceTo]. by rewrite IH.
Qed.

(** X12.  The namespace of a function name is the text before its first
    ['.']: a name made of a dot-free prefix, a ['.'] and anything after it
    contributes that prefix as a candidate, and a name without a ['.']
    contributes none. *)
Theorem namespace_is_text_before_first_dot (p rest : string) (s : Signature)
    (c : Catalog) :
  lacks "." p →
  namespaces ((p +:+ String "." rest, s) :: c) = p :: namespaces c
  ∧ namespaces ((p, s) :: c) = namespaces c.
Proof.
  intros Hp. unfold namespaces. cbn [omap list_omap fst].
  rewrite indexOf_prefix by done. cbn [fmap option_fmap option_map].
  rewrite sliceTo_prefix. unfold lacks in Hp. by rewrite Hp.
Qed.

Lemma namespace_is_text_before_first_dot_witness :
  namespaces [("Landsat.TOA.calibrated", Sample.sig "Image");
              ("Landsat", Sample.sig "Image")] = ["Landsat"].
Proof.
  destruct (namespace_is_text_before_first_dot "Landsat" "TOA.calibrated"
              (Sample.sig "Image") [("Landsat", Sample.sig "Image")])
    as [H1 _]; [reflexivity|].
  destruct (namespace_is_text_before_first_dot "Landsat" ""
              (Sample.sig "Image") []) as [_ H2]; [reflexivity|].
  exact (eq_trans H1 (f_equal (cons "Landsat") H2)).
Defined.

Lemma afterLastGt_none (s : string) : lacks ">" s → JS.afterLastGt s = None.
Proof.
  unfold lacks. induction s as [|a s IH]; [done|].
  cbn [JS.afterLastGt JS.indexOf].
  intros H. destruct (JS.atLineTerminator (String a s)); [done|].
  destruct (Ascii.eqb a ">"); [done|].
  destruct (JS.indexOf ">" s); [done|]. by rewrite IH.
Qed.

(** A ['>'] is no part of a line terminator: whether one starts a text is
    decided before the ['>'] that follows it. *)
Lemma atLineTerminator_params (a : ascii) (params rest : string) :
  JS.atLineTerminator (String a (params +:+ String ">" rest))
  = JS.atLineTerminator (String a params).
Proof.
  unfold JS.atLineTerminator. f_equal.
  destruct params as [|b [|c params]].
  - rewrite append_empty. cbn.
    destruct rest; [done|]. by rewrite andb_false_r.
  - rewrite append_String, append_empty. cbn. by rewrite !andb_false_r.
  - by rewrite !append_String.
Qed.

Lemma afterLastGt_params (params rest : string) :
  oneLine params = true → lacks ">" rest →
  JS.afterLastGt (params +:+ String ">" rest) = Some rest.
Proof.
  intros Hp Hr. induction params as [|a params IH].
  - rewrite append_empty. cbn [JS.afterLastGt].
    assert (JS.atLineTerminator (String ">" rest) = false) as ->.
    { unfold JS.atLineTerminator. cbn. by destruct rest as [|? [|? ?]]. }
    by rewrite afterLastGt_none.
  - rewrite append_String. cbn [JS.afterLastGt].
    rewrite atLineTerminator_params.
    cbn [oneLine] in Hp. apply andb_true_iff in Hp as [Ha Hp].
    apply negb_true_iff in Ha. rewrite Ha. by rewrite IH.
Qed.

(** X13.  Type parameters are removed from a return type: for a base
    name without ['<'], parameters on one line and a remainder without
    ['>'], [base<parameters>remainder] is read as [base] followed by the
    remainder; a return type without ['<'] is read as it is. *)
Theorem type_parameters_are_removed (base params rest : string) :
  lacks "<" base → oneLine params = true → lacks ">" rest →
  JS.stripTypeInfo (base +:+ String "<" (params +:+ String ">" rest))
  = base +:+ rest
  ∧ JS.stripTypeInfo base = base.
Proof.
  intros Hb Hp Hr. unfold lacks in Hb. split.
  - induction base as [|a base IH].
    + rewrite !append_empty. cbn [JS.stripTypeInfo].
      change (Ascii.eqb "<" "<") with true. cbn iota.
      by rewrite afterLastGt_params.
    + rewrite !append_String. cbn [JS.stripTypeInfo JS.indexOf] in *.
      destruct (Ascii.eqb a "<"); [done|].
      destruct (JS.indexOf "<" base); [done|]. by rewrite IH.
  - induction base as [|a base IH]; [done|].
    cbn [JS.stripTypeInfo JS.indexOf] in *.
    destruct (Ascii.eqb a "<"); [done|].
    destruct (JS.indexOf "<" base); [done|]. by rewrite IH.
Qed.

Lemma type_parameters_are_removed_witness :
  bareReturnTypes [("Dictionary.fromLists", Sample.sig "Dictionary<List<Object>>")]
  = ["Dictionary"].
Proof.
  exact (f_equal (λ x, [x])
           (proj1 (type_parameters_are_removed "Dictionary" "List<Object>" ""
                     eq_refl eq_refl eq_refl))).
Defined.

End GeneratorExtras.

(** ** The tree of unbound functions *)

Section BinderExtras.

Import View Binder.

Lemma getChild_setChild_eq k n (cs : list (string * AlgNode)) :
  getChild k (setChild k n cs) = Some n.
Proof.
  induction cs as [|[k' n'] cs IH]; cbn.
  - by rewrite String.eqb_refl.
  - destruct (String.eqb k' k) eqn:E; cbn; [by rewrite String.eqb_refl|].
    by rewrite E.
Qed.

Lemma getChild_setChild_ne k k' n (cs : list (string * AlgNode)) :
  k ≠ k' → getChild k' (setChild k n cs) = getChild k' cs.
Proof.
  intros Hne. induction cs as [|[k0 n0] cs IH]; cbn.
  - by apply String.eqb_neq in Hne as ->.
  - destruct (String.eqb k0 k) eqn:E; cbn.
    + apply String.eqb_eq in E as ->.
      by apply String.eqb_neq in Hne as ->.
    + by rewrite IH.
Qed.

Lemma attach_last (a fn : string) (t : AlgNode) :
  attach [a] fn t
  = MkAlgNode (algBound t) (setChild a (leaf fn) (algChildren t)).
Proof. reflexivity. Qed.

Lemma attach_inner (a b : string) (r : list string) (fn : string) (t : AlgNode) :
  attach (a :: b :: r) fn t
  = MkAlgNode (algBound t)
      (setChild a
         (attach (b :: r) fn
            (match getChild a (algChildren t) with
             | Some c => c
             | None => MkAlgNode None []
             end))
         (algChildren t)).
Proof. reflexivity. Qed.

Lemma resolve_attach (parts : list string) (fn : string) (t : AlgNode) :
  parts ≠ [] → resolve parts (attach parts fn t) = Some (leaf fn).
Proof.
  revert t. induction parts as [|a parts IH]; intros t Hne; [done|].
  destruct parts as [|b parts].
  - rewrite attach_last. cbn. by rewrite getChild_setChild_eq.
  - rewrite attach_inner. cbn [resolve algChildren].
    rewrite getChild_setChild_eq. by apply IH.
Qed.

Lemma resolve_attach_diverge (p q : list string) (fn : string) (t : AlgNode) :
  diverge p q = true → resolve q (attach p fn t) = resolve q t.
Proof.
  revert q t. induction p as [|a p IH]; intros q t Hd; [done|].
  destruct q as [|b q]; [done|]. cbn [diverge] in Hd.
  destruct (String.eqb a b) eqn:E.
  - apply String.eqb_eq in E as <-. destruct p as [|a' p]; [done|].
    rewrite attach_inner. cbn [resolve algChildren].
    rewrite getChild_setChild_eq. rewrite IH by done.
    destruct (getChild a (algChildren t)); [done|].
    destruct q as [|b' q]; [done|]. reflexivity.
  - apply String.eqb_neq in E.
    destruct p as [|a' p]; [rewrite attach_last | rewrite attach_inner];
      cbn [resolve algChildren]; by rewrite getChild_setChild_ne.
Qed.

Lemma splitAux_nonempty c acc s : JS.splitAux c acc s ≠ [].
Proof.
  revert acc. induction s as [|a s IH]; intros acc; cbn; [done|].
  destruct (Ascii.eqb a c); [done | apply IH].
Qed.

Lemma bindAll_cons (entry : string * Signature) (fns : Catalog) (t : AlgNode) :
  bindAll (entry :: fns) t
  = bindAll fns (if hidden entry.2 then t
                 else attach (JS.split "." entry.1) entry.1 t).
Proof. reflexivity. Qed.

Lemma bindAll_app (pre post : Catalog) (t : AlgNode) :
  bindAll (pre ++ post) t = bindAll post (bindAll pre t).
Proof. unfold bindAll. apply foldl_app. Qed.

Lemma forEach_bind (fns : Catalog) (w : World) :
  forEach fns (λ '(name, signature), bindOne name signature) w
  = (Ok tt, set_Algorithms (bindAll fns (Algorithms w)) w).
Proof.
  revert w. induction fns as [|[name s] fns IH]; intros w.
  - cbn. by destruct w.
  - cbn [forEach]. unfold bind, bindOne. rewrite bindAll_cons. cbn [fst snd].
    destruct (hidden s); cbn [ret modify].
    + apply IH.
    + rewrite IH. reflexivity.
Qed.

Lemma bindAll_sparing name (post : Catalog) (t : AlgNode) :
  Forall (sparing name) post →
  resolve (JS.split "." name) (bindAll post t) = resolve (JS.split "." name) t.
Proof.
  revert t. induction post as [|[n' s'] post IH]; intros t Hp; [done|].
  apply Forall_cons in Hp as [Hx Hp]. rewrite bindAll_cons.
  rewrite IH by done. cbn [fst snd].
  destruct Hx as [Hh|Hd]; cbn [fst snd] in *.
  - by rewrite Hh.
  - destruct (hidden s'); [done|]. by apply resolve_attach_diverge.
Qed.

Lemma initializeUnboundMethods_eq env (fns : Catalog) (w : World) :
  unboundFunctions env = Ok fns →
  initializeUnboundMethods_ env w
  = (Ok tt,
     set_Algorithms (bindAll fns (Algorithms w)) (emit EvUnboundFunctions w)).
Proof.
  intros Hu. unfold initializeUnboundMethods_. rewrite bind_modify.
  unfold bind at 1. rewrite Hu. cbn [lift ret]. by rewrite forEach_bind.
Qed.

(** X14.  Take unbound functions whose names are ordinary paths (no
    part is a property that objects or functions already carry).  Every
    one of them that is not hidden ends up on [ee.Algorithms] under its
    dotted name: following the parts of the name from the root leads to the
    function bound to it, as long as no function bound after it writes on
    the same path (the later ones are hidden, or their names part ways with
    it). *)
Theorem unbound_function_is_reachable env (pre post : Catalog) name s (w : World) :
  unboundFunctions env = Ok (pre ++ (name, s) :: post) →
  Forall ordinary (pre ++ (name, s) :: post) →
  hidden s = false →
  Forall (sparing name) post →
  (initializeUnboundMethods_ env w).1 = Ok tt
  ∧ resolve (JS.split "." name) (Algorithms (initializeUnboundMethods_ env w).2)
    = Some (leaf name).
Proof.
  intros Hu _ Hs Hp. rewrite (initializeUnboundMethods_eq env _ w Hu).
  split; [done|]. cbn [snd Algorithms set_Algorithms emit].
  rewrite bindAll_app, bindAll_cons. cbn [fst snd]. rewrite Hs.
  rewrite bindAll_sparing by done. apply resolve_attach, splitAux_nonempty.
Qed.

Lemma ordinaryPath_dec (parts : list string) :
  forallb (λ part, negb (bool_decide (part ∈ builtinProperties))) parts = true →
  ordinaryPath parts.
Proof.
  intros H. apply Forall_forall. intros part Hin Hb.
  rewrite forallb_forall in H. specialize (H part).
  rewrite <- list_elem_of_In in H. specialize (H Hin).
  apply negb_true_iff, bool_decide_eq_false in H. by apply H.
Qed.

Lemma unbound_function_is_reachable_witness :
  resolve ["Landsat"; "simpleComposite"]
    (Algorithms (initializeUnboundMethods_ Sample.envUnbound Sample.initialWorld).2)
  = Some (leaf "Landsat.simpleComposite").
Proof.
  refine (proj2 (unbound_function_is_reachable Sample.envUnbound []
                   [("Landsat.TOA", Sample.sig "Image");
                    ("Internal.debug", {| returns := "Object"; hidden := true |})]
                   "Landsat.simpleComposite" (Sample.sig "Image")
                   Sample.initialWorld eq_refl _ eq_refl _)).
  - apply Forall_cons. split; [right; by apply ordinaryPath_dec|].
    apply Forall_cons. split; [right; by apply ordinaryPath_dec|].
    apply Forall_cons. split; [left; reflexivity|]. apply Forall_nil_2.
  - apply Forall_cons. split; [right; reflexivity|].
    apply Forall_cons. split; [left; reflexivity|]. apply Forall_nil_2.
Defined.

(** X15.  Binding a function whose name is an ordinary path leaves the
    rest of the tree alone: an ordinary path that parts ways with the
    function's name leads after the binding to what it led to before; and
    a hidden function binds nothing. *)
Theorem binding_spares_other_paths name s (q : list string) (w : World) :
  (ordinaryPath (JS.split "." name) → ordinaryPath q →
   diverge (JS.split "." name) q = true →
     resolve q (Algorithms (bindOne name s w).2) = resolve q (Algorithms w))
  ∧ (hidden s = true → bindOne name s w = (Ok tt, w)).
Proof.
  unfold bindOne. split.
  - intros _ _ Hd. destruct (hidden s); [done|]. cbn.
    by apply resolve_attach_diverge.
  - by intros ->.
Qed.

Lemma binding_spares_other_paths_witness :
  let w := (bindOne "Landsat.TOA" (Sample.sig "Image") Sample.initialWorld).2 in
  resolve ["Landsat"; "TOA"]
    (Algorithms (bindOne "Landsat.simpleComposite" (Sample.sig "Image") w).2)
  = Some (leaf "Landsat.TOA").
Proof.
  cbv zeta.
  rewrite (proj1 (binding_spares_other_paths "Landsat.simpleComposite"
                    (Sample.sig "Image") ["Landsat"; "TOA"] _)).
  - reflexivity.
  - by apply ordinaryPath_dec.
  - by apply ordinaryPath_dec.
  - reflexivity.
Defined.

End BinderExtras.

(** ** The promoter: what it raises, and generated constructors *)

Section PromoterExtras.

Import View Promoter.

Variable P : Platform.
Variable reg : gmap string ClassEntry.

Lemma construct_raised c x e :
  construct P c x = Throw e → raisedByCollaborator P e.
Proof. intros H. left. by eexists _, _. Qed.

Lemma apiCall_raised name args e :
  apiCall P name args = Throw e → raisedByCollaborator P e.
Proof. intros H. right. left. by eexists _, _. Qed.

Lemma newHandWritten_raised c x e :
  newHandWritten P c x = Throw e → raisedByCollaborator P e.
Proof.
  unfold newHandWritten. destruct (construct P c x) eqn:H; [done|].
  intros [= <-]. by apply (construct_raised c x).
Qed.

Lemma call_raised name args e :
  call P name args = Throw e → raisedByCollaborator P e.
Proof.
  unfold call. destruct (apiCall P name args) eqn:H; [done|].
  intros [= <-]. by apply (apiCall_raised name args).
Qed.

Lemma newExported_raised klass x e :
  newExported P reg klass x = Throw e → raisedByCollaborator P e.
Proof.
  unfold newExported. destruct (reg !! klass) as [[]|];
    try apply newHandWritten_raised.
  unfold makeClassTarget. destruct (instanceOf P x "ComputedObject"); [done|].
  destruct (call P klass [x]) eqn:H; [done|].
  intros [= <-]. by apply (call_raised klass [x]).
Qed.

Local Ltac collaborator :=
  let H := fresh in
  intros H; left;
  first [ by apply newHandWritten_raised in H
        | by apply call_raised in H
        | by apply newExported_raised in H ].

Local Ltac geometry_of x :=
  let g := fresh "g" in
  let Hg := fresh in
  destruct (call P "Collection.geometry" [x]) as [g|] eqn:Hg; cbn [bindR];
  [ collaborator
  | intros [= <-]; left; by apply call_raised in Hg ].


(** X17.  The constructor of a generated class, called with one
    argument.  Its result is an object of the class.  A computed object is
    not sent through an API call: its [func] and [args] are taken over as
    they are.  As a generated class inherits from [ee.ComputedObject],
    constructing from an object the constructor built gives that object
    again. *)
Theorem generated_constructor_wraps (name : string) (x y : Value) :
  inherits P name "ComputedObject" = true →
  makeClassTarget P name [x] = Ok y →
  classOf y = Some name
  ∧ (instanceOf P x "ComputedObject" = true →
       y = VProxy name (fieldFunc x) (fieldArgs x))
  ∧ makeClassTarget P name [y] = Ok y.
Proof.
  intros Hinh. unfold makeClassTarget.
  destruct (instanceOf P x "ComputedObject") eqn:Hx; cbn [bindR].
  - intros [= <-]. split; [done|]. split; [done|].
    unfold instanceOf. cbn [classOf]. by rewrite Hinh.
  - destruct (call P name [x]) as [r|e]; [|done]. cbn [bindR].
    intros [= <-]. split; [done|]. split; [done|].
    unfold instanceOf. cbn [classOf]. by rewrite Hinh.
Qed.

End PromoterExtras.

Section PromoterExtraSamples.

Import View Promoter Sample.


Lemma generated_constructor_wraps_witness :
  let y := VProxy "Kernel" (VFunction "Image.date") [] in
  makeClassTarget symbolic "Kernel" [computed] = Ok y
  ∧ makeClassTarget symbolic "Kernel" [y] = Ok y.
Proof.
  cbv zeta. split; [reflexivity|].
  exact (proj2 (proj2 (generated_constructor_wraps symbolic "Kernel" computed _
                         eq_refl eq_refl))).
Defined.

End PromoterExtraSamples.

(** * Callbacks that call back into the library *)

(** ** Computations with a step budget *)

Section BudgetFacts.

Import Reentrant.

Lemma leF_refl {A} (c : F A) : leF c c.
Proof. by intros w x. Qed.

Lemma leF_bind {A B} (c c' : F A) (k k' : A → F B) :
  leF c c' → (∀ a, leF (k a) (k' a)) → leF (bindF c k) (bindF c' k').
Proof.
  intros Hc Hk w x. unfold bindF.
  destruct (c w) as [[[a|e] w1]|] eqn:E; [| |done];
    rewrite (Hc _ _ E); [apply Hk | done].
Qed.

Lemma leF_tryCatch {A} (c c' : F A) (h h' : Error → F A) :
  leF c c' → (∀ e, leF (h e) (h' e)) → leF (tryCatchF c h) (tryCatchF c' h').
Proof.
  intros Hc Hh w x. unfold tryCatchF.
  destruct (c w) as [[[a|e] w1]|] eqn:E; [| |done];
    rewrite (Hc _ _ E); [done | apply Hh].
Qed.

Lemma leF_attempt {A} (c c' : F A) : leF c c' → leF (attempt c) (attempt c').
Proof.
  intros Hc w x. unfold attempt.
  destruct (c w) as [[r w1]|] eqn:E; [|done]. by rewrite (Hc _ _ E).
Qed.

Local Ltac mono leaf :=
  repeat first
    [ leaf
    | apply leF_refl
    | apply leF_bind
    | apply leF_tryCatch
    | apply leF_attempt
    | progress intros
    | match goal with
      | |- leF (match ?x with _ => _ end) _ => destruct x
      | |- leF (if ?x then _ else _) _ => destruct x
      end ].

Section Mono.

Variable cbs : Callbacks.
Variables self self' : Call → F unit.
Hypothesis Hself : below self self'.

Lemma callSuccess_mono cb : leF (callSuccess cbs self cb) (callSuccess cbs self' cb).
Proof. unfold callSuccess. mono ltac:(apply Hself). Qed.

Lemma callError_mono cb e : leF (callError cbs self cb e) (callError cbs self' cb e).
Proof. unfold callError. mono ltac:(apply Hself). Qed.

Lemma drainSuccess_mono : leF (drainSuccess cbs self) (drainSuccess cbs self').
Proof.
  unfold drainSuccess.
  mono ltac:(first [apply callSuccess_mono | apply Hself]).
Qed.

Lemma drainError_mono e : leF (drainError cbs self e) (drainError cbs self' e).
Proof.
  unfold drainError.
  mono ltac:(first [apply callError_mono | apply Hself]).
Qed.

Lemma initializationFailure_mono e :
  leF (initializationFailure_ cbs self e) (initializationFailure_ cbs self' e).
Proof. unfold initializationFailure_. mono ltac:(apply drainError_mono). Qed.

Lemma initializationSuccess_mono env :
  leF (initializationSuccess_ cbs self env) (initializationSuccess_ cbs self' env).
Proof.
  unfold initializationSuccess_.
  mono ltac:(first [apply initializationFailure_mono | apply drainSuccess_mono]).
Qed.

Lemma initialize_mono env b t cb ecb :
  leF (initialize cbs self env b t cb ecb) (initialize cbs self' env b t cb ecb).
Proof.
  unfold initialize.
  mono ltac:(first [ apply callSuccess_mono | apply initializationSuccess_mono
                   | apply initializationFailure_mono ]).
Qed.

Lemma body_mono c : leF (body cbs self c) (body cbs self' c).
Proof.
  destruct c as [| e | s]; cbn [body].
  - apply drainSuccess_mono.
  - apply drainError_mono.
  - destruct s; cbn [script];
      mono ltac:(first [apply initialize_mono | apply Hself]).
Qed.

End Mono.

(** More steps do not change what a run yields. *)
Lemma run_step cbs (n : nat) : below (run cbs n) (run cbs (S n)).
Proof.
  induction n as [|n IH]; intros c w x; [done|].
  change (run cbs (S n) c) with (body cbs (run cbs n) c).
  change (run cbs (S (S n)) c) with (body cbs (run cbs (S n)) c).
  by apply body_mono.
Qed.

Lemma run_more cbs (n m : nat) : (n ≤ m)%nat → below (run cbs n) (run cbs m).
Proof.
  induction 1 as [|m _ IH]; [by intros c w x|].
  intros c w x H. by apply run_step, IH.
Qed.

End BudgetFacts.

(** ** The controller with callbacks that call back, equation by equation *)

Section ReentrantEquations.

Import Run Reentrant.

Variable cbs : Callbacks.
Variable self : Call → F unit.

Lemma callSuccess_eq (cb : SuccessCallback) (w : World) :
  callSuccess cbs self cb w =
    match self (CScript (successScript cbs (scId cb)))
               (emit (EvSuccessCallback (scId cb)) w) with
    | Some (Ok _, w1) =>
        Some match scRaises cb with
             | Some e => (Throw e, w1)
             | None => (Ok tt, emit (EvCallbackReturned (scId cb)) w1)
             end
    | Some (Throw e, w1) => Some (Throw e, w1)
    | None => None
    end.
Proof.
  unfold callSuccess, bindF, liftF. cbn [modify].
  destruct (self _ _) as [[[[]|e] w1]|]; [|done|done].
  by destruct (scRaises cb).
Qed.

Lemma callError_eq (cb : ErrorCallback) (e : Error) (w : World) :
  callError cbs self cb e w =
    match self (CScript (errorScript cbs (ecId cb) e))
               (emit (EvErrorCallback (ecId cb) e) w) with
    | Some (Ok _, w1) =>
        Some match ecRaises cb e with
             | Some e' => (Throw e', w1)
             | None => (Ok tt, emit (EvCallbackReturned (ecId cb)) w1)
             end
    | Some (Throw e', w1) => Some (Throw e', w1)
    | None => None
    end.
Proof.
  unfold callError, bindF, liftF. cbn [modify].
  destruct (self _ _) as [[[[]|e'] w1]|]; [|done|done].
  by destruct (ecRaises cb e).
Qed.

Lemma drainSuccess_nil (w : World) :
  successCallbacks_ w = [] → drainSuccess cbs self w = Some (Ok tt, w).
Proof. intros H. unfold drainSuccess, bindF, liftF, get. by rewrite H. Qed.

Lemma drainSuccess_cons (cb : SuccessCallback) rest (w : World) :
  successCallbacks_ w = cb :: rest →
  drainSuccess cbs self w =
    bindF (callSuccess cbs self cb) (λ _, self CDrainSuccess)
      (set_successCallbacks rest w).
Proof. intros H. unfold drainSuccess at 1, bindF at 1, liftF, get. by rewrite H. Qed.

Lemma drainError_nil (e : Error) (w : World) :
  errorCallbacks_ w = [] → drainError cbs self e w = Some (Ok tt, w).
Proof. intros H. unfold drainError, bindF, liftF, get. by rewrite H. Qed.

Lemma drainError_cons (e : Error) (cb : ErrorCallback) rest (w : World) :
  errorCallbacks_ w = cb :: rest →
  drainError cbs self e w =
    bindF (callError cbs self cb e) (λ _, self (CDrainError e))
      (set_errorCallbacks rest w).
Proof. intros H. unfold drainError at 1, bindF at 1, liftF, get. by rewrite H. Qed.

(** Outside [LOADING] both handlers return at once. *)
Lemma failure_stale (e : Error) (w : World) :
  ready_ w ≠ LOADING → initializationFailure_ cbs self e w = Some (Ok tt, w).
Proof.
  intros H. unfold initializationFailure_, bindF, liftF, get.
  destruct (ready_ w); done.
Qed.

Lemma success_stale (env : Env) (w : World) :
  ready_ w ≠ LOADING → initializationSuccess_ cbs self env w = Some (Ok tt, w).
Proof.
  intros H. unfold initializationSuccess_, bindF, liftF, get.
  destruct (ready_ w); done.
Qed.

Lemma failure_loading (e : Error) (w : World) :
  ready_ w = LOADING →
  initializationFailure_ cbs self e w =
    drainError cbs self e (set_successCallbacks [] (set_ready NOT_READY w)).
Proof.
  intros H. unfold initializationFailure_ at 1, bindF at 1, liftF, get.
  by rewrite H.
Qed.

Lemma success_loading (env : Env) (w : World) :
  ready_ w = LOADING →
  initializationSuccess_ cbs self env w =
    match Controller.bootstrap env w with
    | (Ok _, w1) =>
        drainSuccess cbs self (set_errorCallbacks [] (set_ready READY w1))
    | (Throw e, w1) => initializationFailure_ cbs self e w1
    end.
Proof.
  intros H. unfold initializationSuccess_ at 1, bindF at 1, liftF at 1, get.
  rewrite H. cbn [InitState_eqb negb]. unfold bindF at 1, tryCatchF.
  unfold bindF at 1, liftF at 1.
  destruct (Controller.bootstrap env w) as [[[]|e] w1].
  - reflexivity.
  - unfold bindF at 1.
    destruct (initializationFailure_ cbs self e w1) as [[[[]|e'] w2]|]; reflexivity.
Qed.

Lemma fast_call env b t cb ecb (w : World) :
  Controller.fastPath w b t = true →
  initialize cbs self env b t cb ecb w =
    match cb with
    | Some c => callSuccess cbs self c w
    | None => Some (Ok tt, w)
    end.
Proof.
  intros H. unfold initialize at 1, bindF at 1, liftF at 1, get.
  fold (Controller.fastPath w b t). rewrite H. by destruct cb.
Qed.

Lemma usage_call env b t ecb (w : World) :
  Controller.fastPath w b t = false →
  initialize cbs self env b t None (Some ecb) w
  = Some (Throw Controller.usageError, w).
Proof.
  intros H. unfold initialize at 1, bindF at 1, liftF at 1, get.
  fold (Controller.fastPath w b t). by rewrite H.
Qed.

(** An asynchronous call off the fast path invokes nothing: it is the
    call of the plain controller. *)
Lemma async_call env b t c ecb (w : World) :
  Controller.fastPath w b t = false →
  initialize cbs self env b t (Some c) ecb w
  = Some (Controller.initialize env b t (Some c) ecb w).
Proof.
  intros H. unfold initialize, Controller.initialize.
  unfold bindF at 1, liftF at 1, bind at 1, get.
  fold (Controller.fastPath w b t). rewrite H.
  unfold bindF at 1, bind at 1.
  rewrite bool_decide_eq_true_2 by (by eexists).
  destruct ecb as [e|]; unfold liftF at 1; cbn [modify ret].
  - unfold bindF at 1, liftF at 1, bind at 1, get.
    destruct (InitState_eqb _ LOADING); by cbn.
  - unfold retF, bindF at 1, liftF at 1, bind at 1, get.
    destruct (InitState_eqb _ LOADING); by cbn.
Qed.

(** A synchronous call off the fast path: the load, then one of the two
    handlers. *)
Lemma sync_call env b t (w : World) :
  Controller.fastPath w b t = false →
  initialize cbs self env b t None None w =
    match apiInitialize env with
    | Ok c =>
        tryCatchF (initializationSuccess_ cbs self env)
          (λ e, let! _ := initializationFailure_ cbs self e in throwF e)
          (set_api c (View.loadingWorld b t w))
    | Throw e =>
        (let! _ := initializationFailure_ cbs self e in throwF e)
          (View.loadingWorld b t w)
    end.
Proof.
  intros H. unfold initialize at 1, bindF at 1, liftF at 1, get.
  fold (Controller.fastPath w b t). rewrite H.
  unfold bindF at 1, retF. unfold bindF at 1, liftF at 1, get.
  rewrite bool_decide_eq_false_2 by (by intros [? ?]).
  rewrite andb_false_r.
  unfold bindF at 1, liftF at 1. cbn [modify].
  unfold bindF at 1, liftF at 1. cbn [modify].
  unfold tryCatchF at 1, bindF at 1, liftF at 1.
  unfold Controller.apiInitializeSync, bind, modify, lift.
  fold (View.loadingWorld b t w).
  destruct (apiInitialize env) as [c|e]; cbn [ret throw]; reflexivity.
Qed.

End ReentrantEquations.

(** ** What the bootstrap and the reset leave aside *)

Section AsideFacts.

Import View Run Reentrant Controller.

Lemma invocations_app (t u : list Event) :
  invocations (t ++ u) = invocations t ++ invocations u.
Proof. unfold invocations. apply filter_app. Qed.

Lemma invocations_none (evs : list Event) :
  invocations evs = [] → invokedSuccess evs = [] ∧ invokedError evs = [].
Proof.
  induction evs as [|ev evs IH]; [done|].
  unfold invocations. rewrite filter_cons.
  destruct ev; cbn; try done; intros H; by apply IH.
Qed.

Lemma aside_refl (w : World) : aside w w.
Proof. repeat split. exists []. by rewrite app_nil_r. Qed.

Lemma aside_composes : Composes aside.
Proof.
  split; [apply aside_refl|].
  intros a b c (Hs1 & He1 & t1 & Ht1 & Hi1) (Hs2 & He2 & t2 & Ht2 & Hi2).
  split; [congruence|]. split; [congruence|].
  exists (t1 ++ t2). split.
  - by rewrite Ht2, Ht1, app_assoc.
  - by rewrite invocations_app, Hi1, Hi2.
Qed.

Lemma aside_emit (ev : Event) (w : World) :
  isInvocation ev = false → aside w (emit ev w).
Proof.
  intros H. repeat split. exists [ev]. split; [done|].
  unfold invocations. rewrite filter_cons. by rewrite H.
Qed.

Lemma aside_same (w w' : World) :
  successCallbacks_ w' = successCallbacks_ w →
  errorCallbacks_ w' = errorCallbacks_ w →
  trace w' = trace w →
  aside w w'.
Proof.
  intros Hs He Ht. repeat split; try done. exists []. by rewrite app_nil_r.
Qed.

Lemma aside_extends (w w' : World) : aside w w' → extends w w'.
Proof. intros (_ & _ & evs & H & _). by exists evs. Qed.

Lemma aside_invoked (w w' : World) :
  aside w w' →
  invokedSuccess (trace w') = invokedSuccess (trace w)
  ∧ invokedError (trace w') = invokedError (trace w)
  ∧ invocations (trace w') = invocations (trace w).
Proof.
  intros (_ & _ & evs & -> & Hi).
  destruct (invocations_none evs Hi) as [Hs He].
  rewrite invokedSuccess_app, invokedError_app, invocations_app, Hs, He, Hi.
  by rewrite !app_nil_r.
Qed.

Local Ltac asides :=
  repeat first
    [ apply (keeps_ret _ aside_composes)
    | apply (keeps_get _ aside_composes)
    | apply (keeps_throw _ aside_composes)
    | apply (keeps_raising _ aside_composes)
    | apply (keeps_lift _ aside_composes)
    | apply (keeps_bind _ aside_composes)
    | apply (keeps_forEach _ aside_composes)
    | progress intros
    | match goal with
      | |- keeps aside (modify (emit _)) =>
          let w := fresh in intros w; by apply aside_emit
      | |- keeps aside (modify _) =>
          let w := fresh in intros w; by apply aside_same
      end ].

Lemma aside_bootstrap env : keeps aside (bootstrap env).
Proof.
  unfold bootstrap. apply (keeps_bind _ aside_composes).
  { unfold initializeHooks. asides. }
  intros _. apply (keeps_bind _ aside_composes).
  { intros w.
    change (Generator.initializeGeneratedClasses_ env w) with
      ((let '(names, returnTypes) := Generator.collect (api_ w) [] [] in
        let* _ := forEach (JS.forIn (Generator.dropBlacklisted names))
                    (Generator.generateOne env returnTypes) in
        modify (emit EvRegisterClasses)) w).
    destruct (Generator.collect (api_ w) [] []) as [names returnTypes].
    revert w. apply (keeps_bind _ aside_composes); [|asides].
    apply (keeps_forEach _ aside_composes). intros name.
    unfold Generator.generateOne. apply (keeps_bind _ aside_composes); [asides|].
    intros w'. destruct (_ && _); [|asides].
    unfold Generator.makeClass_. asides. }
  intros _. unfold Binder.initializeUnboundMethods_. asides.
  destruct x as [name signature]. unfold Binder.bindOne.
  destruct (hidden signature); asides.
Qed.

Lemma aside_reset : keeps aside reset.
Proof.
  unfold reset. asides.
Qed.

Lemma aside_apiInitializeSync env : keeps aside (apiInitializeSync env).
Proof. unfold apiInitializeSync. asides. Qed.

End AsideFacts.

(** ** Synchronous calls from callbacks settle the controller *)

Section SettlingFacts.

Import View Run Reentrant.

Lemma extends_refl (w : World) : extends w w.
Proof. exists []. by rewrite app_nil_r. Qed.

Lemma extends_trans (a b c : World) : extends a b → extends b c → extends a c.
Proof. intros [t1 H1] [t2 H2]. exists (t1 ++ t2). by rewrite H2, H1, app_assoc. Qed.

Lemma settled_refl (w : World) : ready_ w ≠ LOADING → settled w w.
Proof. by intros H. Qed.

Lemma settled_trans (a b c : World) : settled a b → settled b c → settled a c.
Proof.
  intros (_ & Hs1 & He1) (Hr & Hs2 & He2). split; [done|]. split.
  - intros H. destruct (Hs1 H) as [H1 H1']. destruct (Hs2 H1) as [H2 H2'].
    split; congruence.
  - intros H. destruct (He1 H) as [H1 H1']. destruct (He2 H1) as [H2 H2'].
    split; congruence.
Qed.

Lemma aside_settled (a b : World) : aside a b → ready_ b ≠ LOADING → settled a b.
Proof.
  intros Ha Hr. destruct (aside_invoked a b Ha) as (Hs & He & _).
  destruct Ha as (Hqs & Hqe & _). split; [done|].
  split; intros H; split; congruence.
Qed.

Lemma aside_then_settled (a b c : World) :
  aside a b → settled b c → settled a c.
Proof.
  intros Ha (Hr & Hs & He). destruct (aside_invoked a b Ha) as (Hs' & He' & _).
  destruct Ha as (Hqs & Hqe & _). split; [done|]. split; intros H.
  - rewrite <- Hqs in H. destruct (Hs H). split; congruence.
  - rewrite <- Hqe in H. destruct (He H). split; congruence.
Qed.

Lemma aside_then_notified (a b c : World) (out : Result unit) :
  aside a b → notified b c out → notified a c out.
Proof.
  intros Ha. destruct (aside_invoked a b Ha) as (Hs' & He' & _).
  destruct Ha as (Hqs & Hqe & _).
  destruct out as [[]|e]; cbn; rewrite ?Hqs, ?Hqe, ?Hs', ?He'; done.
Qed.

Lemma notified_settled (w w' : World) (out : Result unit) :
  ready_ w' ≠ LOADING → notified w w' out → settled w w'.
Proof.
  intros Hr Hn. split; [done|].
  destruct out as [[]|e]; cbn in Hn; destruct Hn as (H1 & H2 & _).
  - split; [done|]. by intros _.
  - split; [|done]. by intros _.
Qed.

Lemma loadingWorld_aside (b t : option string) (w : World) :
  aside w (loadingWorld b t w).
Proof.
  repeat split. exists [EvDataInitialize b t; EvApiInitialize false].
  split; [|done]. unfold loadingWorld. cbn. by rewrite <- app_assoc.
Qed.

Variable cbs : Callbacks.
Hypothesis Hcbs : every synchronous cbs.

Section Step.

Variable self : Call → F unit.
Hypothesis Hself : Settling self.

Lemma callSuccess_settles cb (w : World) r w' :
  callSuccess cbs self cb w = Some (r, w') →
  (∃ more, trace w' = trace w ++ EvSuccessCallback (scId cb) :: more)
  ∧ (ready_ w ≠ LOADING →
       ready_ w' ≠ LOADING
       ∧ (errorCallbacks_ w = [] →
            errorCallbacks_ w' = []
            ∧ invokedError (trace w') = invokedError (trace w))).
Proof.
  rewrite callSuccess_eq.
  destruct (self _ _) as [[r1 w1]|] eqn:E; [|by destruct r].
  destruct (Hself (CScript _) _ _ _ (proj1 Hcbs (scId cb)) E) as [[evs Ht] Hset].
  cbn [trace emit] in Ht.
  assert (ready_ w ≠ LOADING →
          ready_ w1 ≠ LOADING
          ∧ (errorCallbacks_ w = [] →
               errorCallbacks_ w1 = []
               ∧ invokedError (trace w1) = invokedError (trace w))) as H1.
  { intros Hr. destruct (Hset Hr) as (Hr1 & _ & He). split; [done|].
    intros Hq. destruct (He Hq) as [-> ->]. split; [done|]. cbn.
    rewrite invokedError_app. cbn. by rewrite app_nil_r. }
  destruct r1 as [[]|e1]; [destruct (scRaises cb)|]; intros [= <- <-].
  - split; [|done]. exists evs. by rewrite Ht, <- app_assoc.
  - split.
    + exists (evs ++ [EvCallbackReturned (scId cb)]). cbn.
      by rewrite Ht, <- !app_assoc.
    + intros Hr. destruct (H1 Hr) as [Hr1 He]. split; [done|].
      intros Hq. destruct (He Hq) as [Hq1 Hi]. split; [done|]. cbn.
      rewrite invokedError_app, Hi. cbn. by rewrite app_nil_r.
  - split; [|done]. exists evs. by rewrite Ht, <- app_assoc.
Qed.

Lemma callError_settles cb e (w : World) r w' :
  callError cbs self cb e w = Some (r, w') →
  (∃ more, trace w' = trace w ++ EvErrorCallback (ecId cb) e :: more)
  ∧ (ready_ w ≠ LOADING →
       ready_ w' ≠ LOADING
       ∧ (successCallbacks_ w = [] →
            successCallbacks_ w' = []
            ∧ invokedSuccess (trace w') = invokedSuccess (trace w))).
Proof.
  rewrite callError_eq.
  destruct (self _ _) as [[r1 w1]|] eqn:E; [|by destruct r].
  destruct (Hself (CScript _) _ _ _ (proj2 Hcbs (ecId cb) e) E) as [[evs Ht] Hset].
  cbn [trace emit] in Ht.
  assert (ready_ w ≠ LOADING →
          ready_ w1 ≠ LOADING
          ∧ (successCallbacks_ w = [] →
               successCallbacks_ w1 = []
               ∧ invokedSuccess (trace w1) = invokedSuccess (trace w))) as H1.
  { intros Hr. destruct (Hset Hr) as (Hr1 & Hs & _). split; [done|].
    intros Hq. destruct (Hs Hq) as [-> ->]. split; [done|]. cbn.
    rewrite invokedSuccess_app. cbn. by rewrite app_nil_r. }
  destruct r1 as [[]|e1]; [destruct (ecRaises cb e)|]; intros [= <- <-].
  - split; [|done]. exists evs. by rewrite Ht, <- app_assoc.
  - split.
    + exists (evs ++ [EvCallbackReturned (ecId cb)]). cbn.
      by rewrite Ht, <- !app_assoc.
    + intros Hr. destruct (H1 Hr) as [Hr1 Hs]. split; [done|].
      intros Hq. destruct (Hs Hq) as [Hq1 Hi]. split; [done|]. cbn.
      rewrite invokedSuccess_app, Hi. cbn. by rewrite app_nil_r.
  - split; [|done]. exists evs. by rewrite Ht, <- app_assoc.
Qed.

Lemma drainSuccess_settles (w : World) r w' :
  drainSuccess cbs self w = Some (r, w') →
  extends w w'
  ∧ (∀ cb rest, successCallbacks_ w = cb :: rest →
       ∃ more, invokedSuccess (trace w')
               = invokedSuccess (trace w) ++ scId cb :: more)
  ∧ (ready_ w ≠ LOADING → settled w w').
Proof.
  destruct (successCallbacks_ w) as [|cb rest] eqn:Hq.
  { rewrite drainSuccess_nil by done. intros [= <- <-].
    split; [apply extends_refl|]. split; [done|]. apply settled_refl. }
  rewrite (drainSuccess_cons _ _ cb rest) by done. unfold bindF.
  destruct (callSuccess cbs self cb _) as [[r1 w1]|] eqn:E; [|done].
  destruct (callSuccess_settles _ _ _ _ E) as [[more Ht] H1].
  cbn [trace set_successCallbacks ready_ errorCallbacks_] in Ht, H1.
  assert (∀ w' evs, trace w' = trace w1 ++ evs →
            (ready_ w1 ≠ LOADING → settled w1 w') →
            extends w w'
            ∧ (∀ cb0 rest0, cb :: rest = cb0 :: rest0 →
                 ∃ more, invokedSuccess (trace w')
                         = invokedSuccess (trace w) ++ scId cb0 :: more)
            ∧ (ready_ w ≠ LOADING → settled w w')) as Hfin.
  { clear w' r. intros w' evs Ht' H2. split; [|split].
    - exists ((EvSuccessCallback (scId cb) :: more) ++ evs).
      by rewrite Ht', Ht, <- app_assoc.
    - intros cb' rest' [= <- <-]. rewrite Ht', Ht.
      rewrite !invokedSuccess_app. cbn. rewrite <- app_assoc. cbn. by eexists.
    - intros Hr. destruct (H1 Hr) as [Hr1 He1].
      destruct (H2 Hr1) as (Hr' & _ & He'). split; [done|].
      split; [by rewrite Hq|].
      intros Hqe. destruct (He1 Hqe) as [Hq1 Hi1].
      destruct (He' Hq1) as [Hq' Hi']. split; congruence. }
  destruct r1 as [[]|e1].
  - intros H. destruct (Hself CDrainSuccess _ _ _ I H) as [[evs Ht'] H2].
    by apply (Hfin w' evs).
  - intros [= <- <-]. apply (Hfin w1 []); [by rewrite app_nil_r|].
    apply settled_refl.
Qed.

Lemma drainError_settles (e : Error) (w : World) r w' :
  drainError cbs self e w = Some (r, w') →
  extends w w'
  ∧ (∀ cb rest, errorCallbacks_ w = cb :: rest →
       ∃ more, invokedError (trace w')
               = invokedError (trace w) ++ (ecId cb, e) :: more)
  ∧ (ready_ w ≠ LOADING → settled w w').
Proof.
  destruct (errorCallbacks_ w) as [|cb rest] eqn:Hq.
  { rewrite drainError_nil by done. intros [= <- <-].
    split; [apply extends_refl|]. split; [done|]. apply settled_refl. }
  rewrite (drainError_cons _ _ e cb rest) by done. unfold bindF.
  destruct (callError cbs self cb e _) as [[r1 w1]|] eqn:E; [|done].
  destruct (callError_settles _ _ _ _ _ E) as [[more Ht] H1].
  cbn [trace set_errorCallbacks ready_ successCallbacks_] in Ht, H1.
  assert (∀ w' evs, trace w' = trace w1 ++ evs →
            (ready_ w1 ≠ LOADING → settled w1 w') →
            extends w w'
            ∧ (∀ cb0 rest0, cb :: rest = cb0 :: rest0 →
                 ∃ more, invokedError (trace w')
                         = invokedError (trace w) ++ (ecId cb0, e) :: more)
            ∧ (ready_ w ≠ LOADING → settled w w')) as Hfin.
  { clear w' r. intros w' evs Ht' H2. split; [|split].
    - exists ((EvErrorCallback (ecId cb) e :: more) ++ evs).
      by rewrite Ht', Ht, <- app_assoc.
    - intros cb' rest' [= <- <-]. rewrite Ht', Ht.
      rewrite !invokedError_app. cbn. rewrite <- app_assoc. cbn. by eexists.
    - intros Hr. destruct (H1 Hr) as [Hr1 Hs1].
      destruct (H2 Hr1) as (Hr' & Hs' & _). split; [done|].
      split; [|by rewrite Hq].
      intros Hqs. destruct (Hs1 Hqs) as [Hq1 Hi1].
      destruct (Hs' Hq1) as [Hq' Hi']. split; congruence. }
  destruct r1 as [[]|e1].
  - intros H. destruct (Hself (CDrainError e) _ _ _ I H) as [[evs Ht'] H2].
    by apply (Hfin w' evs).
  - intros [= <- <-]. apply (Hfin w1 []); [by rewrite app_nil_r|].
    apply settled_refl.
Qed.

(** The failure handler, run during a load. *)
Lemma failure_settles (e : Error) (w : World) r w' :
  ready_ w = LOADING →
  initializationFailure_ cbs self e w = Some (r, w') →
  extends w w' ∧ ready_ w' ≠ LOADING ∧ notified w w' (Throw e).
Proof.
  intros Hl. rewrite failure_loading by done. intros H.
  destruct (drainError_settles _ _ _ _ H) as (Hx & Hpin & Hs).
  cbn [trace set_successCallbacks set_ready errorCallbacks_ ready_
       successCallbacks_] in *.
  destruct Hs as (Hr & Hqs & Hqe); [done|].
  split; [exact Hx|]. split; [done|]. cbn.
  split; [by apply Hqs|]. by split.
Qed.

(** The success handler, run during a load. *)
Lemma success_settles env (w : World) r w' :
  ready_ w = LOADING →
  initializationSuccess_ cbs self env w = Some (r, w') →
  extends w w' ∧ ready_ w' ≠ LOADING
  ∧ notified w w' (Controller.bootstrap env w).1.
Proof.
  intros Hl. rewrite success_loading by done.
  pose proof (aside_bootstrap env w) as Ha.
  pose proof (silent_bootstrap env w) as (Hrb & _).
  destruct (Controller.bootstrap env w) as [[[]|e] w1]; cbn [fst snd] in *.
  - intros H. destruct (drainSuccess_settles _ _ _ H) as (Hx & Hpin & Hs).
    cbn [trace set_errorCallbacks set_ready errorCallbacks_ ready_
         successCallbacks_] in *.
    destruct Hs as (Hr & Hqs & Hqe); [done|].
    split; [exact (extends_trans _ _ _ (aside_extends _ _ Ha) Hx)|].
    split; [done|].
    apply (aside_then_notified w w1); [done|]. cbn.
    split; [by apply Hqe|]. by split.
  - intros H. rewrite <- Hrb in Hl.
    destruct (failure_settles e w1 r w' Hl H) as (Hx & Hr & Hn).
    split; [exact (extends_trans _ _ _ (aside_extends _ _ Ha) Hx)|].
    split; [done|]. by apply (aside_then_notified w w1).
Qed.

(** A synchronous call that goes to the load. *)
Lemma sync_call_settles env b t (w : World) r w' :
  Controller.fastPath w b t = false →
  initialize cbs self env b t None None w = Some (r, w') →
  extends w w' ∧ ready_ w' ≠ LOADING
  ∧ notified w w' (resolution env b t w).
Proof.
  intros Hf. rewrite sync_call by done. unfold resolution.
  pose proof (loadingWorld_aside b t w) as Ha.
  assert (ready_ (loadingWorld b t w) = LOADING) as Hl by done.
  destruct (apiInitialize env) as [c|e].
  - unfold tryCatchF.
    set (wl := set_api c (loadingWorld b t w)).
    assert (aside w wl) as Hwl.
    { destruct Ha as (? & ? & ?). by repeat split. }
    destruct (initializationSuccess_ cbs self env wl) as [[r1 w1]|] eqn:E;
      [|done].
    destruct (success_settles env wl r1 w1 Hl E) as (Hx & Hr & Hn).
    intros H. assert (w' = w1) as ->.
    { destruct r1 as [[]|e1]; [by injection H as <- <-|].
      unfold bindF in H. rewrite failure_stale in H by done.
      by injection H as <- <-. }
    split; [exact (extends_trans _ _ _ (aside_extends _ _ Hwl) Hx)|].
    split; [done|]. by apply (aside_then_notified w wl).
  - unfold bindF.
    destruct (initializationFailure_ cbs self e _) as [[r1 w1]|] eqn:E; [|done].
    destruct (failure_settles e _ r1 w1 Hl E) as (Hx & Hr & Hn).
    intros H.
    assert (w' = w1) as -> by (destruct r1 as [[]|e1]; by injection H as <- <-).
    split; [exact (extends_trans _ _ _ (aside_extends _ _ Ha) Hx)|].
    split; [done|]. by apply (aside_then_notified w (loadingWorld b t w)).
Qed.

(** Any synchronous call made outside a load. *)
Lemma initialize_settles env b t ecb (w : World) r w' :
  initialize cbs self env b t None ecb w = Some (r, w') →
  extends w w' ∧ (ready_ w ≠ LOADING → settled w w').
Proof.
  destruct (Controller.fastPath w b t) eqn:Hf.
  { rewrite fast_call by done. intros [= <- <-].
    split; [apply extends_refl | apply settled_refl]. }
  destruct ecb as [ecb|].
  { rewrite usage_call by done. intros [= <- <-].
    split; [apply extends_refl | apply settled_refl]. }
  intros H. destruct (sync_call_settles env b t w r w' Hf H) as (Hx & Hr & Hn).
  split; [done|]. intros _. exact (notified_settled w w' _ Hr Hn).
Qed.

Lemma script_settles (s : Script) (w : World) r w' :
  synchronous s →
  script cbs self s w = Some (r, w') →
  extends w w' ∧ (ready_ w ≠ LOADING → settled w w').
Proof.
  destruct s as [|e|env b t cb ecb next|next|next]; cbn [script synchronous].
  - intros _ [= <- <-]. split; [apply extends_refl | apply settled_refl].
  - intros _ [= <- <-]. split; [apply extends_refl | apply settled_refl].
  - intros [-> Hnext]. unfold bindF, attempt.
    destruct (initialize cbs self env b t None ecb w) as [[r1 w1]|] eqn:E;
      [|done].
    destruct (initialize_settles _ _ _ _ _ _ _ E) as [Hx Hs].
    intros H. destruct (Hself (CScript _) _ _ _ (Hnext r1) H) as [Hx' Hs'].
    split; [by apply (extends_trans w w1)|].
    intros Hr. specialize (Hs Hr). apply (settled_trans w w1); [done|].
    apply Hs'. by destruct Hs.
  - intros Hnext. unfold bindF, liftF.
    pose proof (aside_reset w) as Ha.
    pose proof (reset_queues w) as (Hrr & _).
    destruct (Controller.reset w) as [[[]|e] w1]; cbn [snd] in *.
    + intros H. destruct (Hself (CScript _) _ _ _ Hnext H) as [Hx' Hs'].
      split; [exact (extends_trans _ _ _ (aside_extends _ _ Ha) Hx')|].
      intros _. apply (aside_then_settled w w1); [done|].
      apply Hs'. by rewrite Hrr.
    + intros [= <- <-]. split; [by apply aside_extends|].
      intros _. apply aside_settled; [done|]. by rewrite Hrr.
  - intros Hnext. unfold bindF, liftF, get.
    intros H. exact (Hself (CScript _) _ _ _ (Hnext _) H).
Qed.

Lemma body_settles : Settling (body cbs self).
Proof.
  intros [|e|s] w r w' Hc H; cbn [body] in H.
  - destruct (drainSuccess_settles _ _ _ H) as (? & _ & ?). by split.
  - destruct (drainError_settles _ _ _ _ H) as (? & _ & ?). by split.
  - exact (script_settles s w r w' Hc H).
Qed.

End Step.

Lemma run_settles (n : nat) : Settling (run cbs n).
Proof.
  induction n as [|n IH]; [by intros c w r w' _|].
  by apply body_settles.
Qed.

End SettlingFacts.

(** ** A synchronous call during a load *)

Section Supersession.

Import View Run Reentrant.


Lemma nested_synchronous : every synchronous Sample.nested.
Proof.
  split; [|done]. intros i. cbn. destruct (Nat.eqb i 1); [|done].
  cbn. split; [done|]. by intros [[]|e].
Qed.



End Supersession.

(** ** Callbacks that make no call into the library *)

Section PlainCallbacks.

Import View Run Reentrant.

Variable cbs : Callbacks.

Lemma callSuccess_plain (n : nat) cb (w : World) :
  plainSuccess cbs cb →
  callSuccess cbs (run cbs (S n)) cb w =
    Some match scRaises cb with
         | Some e => (Throw e, emit (EvSuccessCallback (scId cb)) w)
         | None =>
             (Ok tt, emit (EvCallbackReturned (scId cb))
                       (emit (EvSuccessCallback (scId cb)) w))
         end.
Proof. intros H. rewrite callSuccess_eq. unfold plainSuccess in H. by rewrite H. Qed.

Lemma callError_plain (n : nat) cb e (w : World) :
  plainError cbs cb →
  callError cbs (run cbs (S n)) cb e w =
    Some match ecRaises cb e with
         | Some e' => (Throw e', emit (EvErrorCallback (ecId cb) e) w)
         | None =>
             (Ok tt, emit (EvCallbackReturned (ecId cb))
                       (emit (EvErrorCallback (ecId cb) e) w))
         end.
Proof. intros H. rewrite callError_eq. by rewrite (H e). Qed.

(** The loop over plain callbacks comes to an end, once round for each. *)
Lemma drainSuccess_plain (q : list SuccessCallback) (w : World) (m : nat) :
  Forall (plainSuccess cbs) q →
  successCallbacks_ w = q →
  (length q < m)%nat →
  run cbs m CDrainSuccess w =
    Some (drainOutcome q,
          set_successCallbacks (undrained q) (emits (firing q) w)).
Proof.
  revert w m. induction q as [|cb rest IH]; intros w m Hp Hq Hm.
  - destruct m as [|m]; [by apply Nat.nlt_0_r in Hm|]. cbn [run body].
    rewrite drainSuccess_nil by done. cbn. rewrite emits_nil.
    destruct w; cbn in *; by subst.
  - destruct m as [|[|m]]; cbn [length] in Hm;
      [by apply Nat.nlt_0_r in Hm | by apply Nat.succ_lt_mono, Nat.nlt_0_r in Hm|].
    apply Forall_cons in Hp as [Hcb Hp].
    change (run cbs (S (S m)) CDrainSuccess w)
      with (drainSuccess cbs (run cbs (S m)) w).
    rewrite (drainSuccess_cons _ _ cb rest) by done. unfold bindF.
    rewrite callSuccess_plain by done.
    cbn [drainOutcome undrained firing].
    destruct (scRaises cb) as [e|].
    + reflexivity.
    + rewrite IH; [|done|done|by apply Nat.succ_lt_mono].
      unfold emits, set_successCallbacks, emit. cbn. by rewrite <- !app_assoc.
Qed.

Lemma drainError_plain (e : Error) (q : list ErrorCallback) (w : World) (m : nat) :
  Forall (plainError cbs) q →
  errorCallbacks_ w = q →
  (length q < m)%nat →
  run cbs m (CDrainError e) w =
    Some (drainErrorOutcome e q,
          set_errorCallbacks (undrainedError e q) (emits (firingError e q) w)).
Proof.
  revert w m. induction q as [|cb rest IH]; intros w m Hp Hq Hm.
  - destruct m as [|m]; [by apply Nat.nlt_0_r in Hm|]. cbn [run body].
    rewrite drainError_nil by done. cbn. rewrite emits_nil.
    destruct w; cbn in *; by subst.
  - destruct m as [|[|m]]; cbn [length] in Hm;
      [by apply Nat.nlt_0_r in Hm | by apply Nat.succ_lt_mono, Nat.nlt_0_r in Hm|].
    apply Forall_cons in Hp as [Hcb Hp].
    change (run cbs (S (S m)) (CDrainError e) w)
      with (drainError cbs (run cbs (S m)) e w).
    rewrite (drainError_cons _ _ e cb rest) by done. unfold bindF.
    rewrite callError_plain by done.
    cbn [drainErrorOutcome undrainedError firingError].
    destruct (ecRaises cb e) as [e'|].
    + reflexivity.
    + rewrite IH; [|done|done|by apply Nat.succ_lt_mono].
      unfold emits, set_errorCallbacks, emit. cbn. by rewrite <- !app_assoc.
Qed.

Lemma invoked_firing (q : list SuccessCallback) :
  invokedSuccess (firing q) = scId <$> drained q
  ∧ invokedError (firing q) = [].
Proof.
  induction q as [|cb rest [IH1 IH2]]; [done|].
  cbn [firing drained fmap list_fmap]. destruct (scRaises cb); [done|]. split.
  - change (invokedSuccess (EvSuccessCallback (scId cb)
                              :: EvCallbackReturned (scId cb) :: firing rest))
      with (scId cb :: invokedSuccess (firing rest)).
    by rewrite IH1.
  - exact IH2.
Qed.

Lemma invoked_firingError (e : Error) (q : list ErrorCallback) :
  invokedError (firingError e q) = (λ cb, (ecId cb, e)) <$> drainedError e q
  ∧ invokedSuccess (firingError e q) = [].
Proof.
  induction q as [|cb rest [IH1 IH2]]; [done|].
  cbn [firingError drainedError fmap list_fmap].
  destruct (ecRaises cb e); [done|]. split.
  - change (invokedError (EvErrorCallback (ecId cb) e
                            :: EvCallbackReturned (ecId cb) :: firingError e rest))
      with ((ecId cb, e) :: invokedError (firingError e rest)).
    by rewrite IH1.
  - exact IH2.
Qed.

End PlainCallbacks.

(** ** Success callbacks that do not call [ee.initialize] *)

Section OneAtATime.

Import View Run Reentrant.

Variable cbs : Callbacks.
Hypothesis Hcbs : every noInitialize cbs.

(** A script without [ee.initialize] comes to an end and leaves the queues
    alone. *)
Lemma script_total (s : Script) :
  noInitialize s →
  ∃ n, ∀ w, ∃ r w',
    (∀ m, (n ≤ m)%nat → run cbs m (CScript s) w = Some (r, w')) ∧ aside w w'.
Proof.
  induction s as [|e|env b t cb ecb next IH|next IH|next IH];
    cbn [noInitialize]; intros Hs.
  - exists 1. intros w. exists (Ok tt), w. split; [|apply aside_refl].
    intros [|m] Hm; [by apply Nat.nle_succ_0 in Hm | done].
  - exists 1. intros w. exists (Throw e), w. split; [|apply aside_refl].
    intros [|m] Hm; [by apply Nat.nle_succ_0 in Hm | done].
  - done.
  - destruct (IH Hs) as [n Hn]. exists (S n). intros w.
    destruct (reset_world w) as [t Ht].
    pose proof (aside_reset w) as Ha. rewrite Ht in Ha. cbn [snd] in Ha.
    destruct (Hn (Controller.reset w).2) as (r & w' & Hrun & Ha').
    rewrite Ht in Hrun, Ha'. cbn [snd] in Hrun, Ha'.
    exists r, w'. split; [|by apply (composes_trans _ aside_composes _ _ _ Ha)].
    intros [|m] Hm; [by apply Nat.nle_succ_0 in Hm|].
    cbn [run body script]. unfold bindF, liftF. rewrite Ht.
    apply Hrun. by apply Nat.succ_le_mono.
  - destruct (IH NOT_READY (Hs _)) as [n1 H1].
    destruct (IH LOADING (Hs _)) as [n2 H2].
    destruct (IH READY (Hs _)) as [n3 H3].
    exists (S (n1 + n2 + n3)). intros w.
    assert (∃ n, (n ≤ n1 + n2 + n3)%nat
                 ∧ ∃ r w', (∀ m, (n ≤ m)%nat →
                              run cbs m (CScript (next (ready_ w))) w = Some (r, w'))
                           ∧ aside w w') as (n & Hle & r & w' & Hrun & Ha).
    { destruct (ready_ w).
      - exists n1. split; [|apply H1]. rewrite <- Nat.add_assoc. apply Nat.le_add_r.
      - exists n2. split; [|apply H2].
        rewrite (Nat.add_comm n1 n2), <- Nat.add_assoc. apply Nat.le_add_r.
      - exists n3. split; [|apply H3]. rewrite Nat.add_comm. apply Nat.le_add_r. }
    exists r, w'. split; [|done].
    intros [|m] Hm; [by apply Nat.nle_succ_0 in Hm|].
    cbn [run body script]. unfold bindF, liftF, get, Controller.ready.
    apply Hrun. apply Nat.succ_le_mono in Hm. by etrans.
Qed.

(** One success callback: invoked, and returned unless it raised. *)
Lemma callSuccess_total (cb : SuccessCallback) :
  ∃ n, ∀ w, ∃ r w',
    (∀ m, (n ≤ m)%nat → callSuccess cbs (run cbs m) cb w = Some (r, w'))
    ∧ successCallbacks_ w' = successCallbacks_ w
    ∧ invocations (trace w')
      = invocations (trace w)
        ++ match r with
           | Ok _ => bracket cb
           | Throw _ => [EvSuccessCallback (scId cb)]
           end.
Proof.
  destruct (script_total _ (proj1 Hcbs (scId cb))) as [n Hn]. exists n.
  intros w.
  destruct (Hn (emit (EvSuccessCallback (scId cb)) w)) as (r1 & w1 & Hrun & Ha).
  destruct (aside_invoked _ _ Ha) as (_ & _ & Hi).
  destruct Ha as (Hq & _ & _). cbn in Hq, Hi.
  rewrite invocations_app in Hi.
  change (invocations [EvSuccessCallback (scId cb)])
    with [EvSuccessCallback (scId cb)] in Hi.
  destruct r1 as [[]|e1]; [destruct (scRaises cb) as [e|] eqn:Hflag|].
  - exists (Throw e), w1. split; [|done].
    intros m Hm. rewrite callSuccess_eq, (Hrun m Hm). by rewrite Hflag.
  - exists (Ok tt), (emit (EvCallbackReturned (scId cb)) w1). split; [|split].
    + intros m Hm. rewrite callSuccess_eq, (Hrun m Hm). by rewrite Hflag.
    + done.
    + cbn. rewrite invocations_app, Hi. unfold bracket.
      by rewrite <- app_assoc.
  - exists (Throw e1), w1. split; [|done].
    intros m Hm. by rewrite callSuccess_eq, (Hrun m Hm).
Qed.

(** The loop: the callbacks of the queue, one at a time. *)
Lemma drainSuccess_total (q : list SuccessCallback) :
  ∃ n, ∀ w, successCallbacks_ w = q →
    ∃ r w' evs,
      (∀ m, (n ≤ m)%nat → run cbs m CDrainSuccess w = Some (r, w'))
      ∧ invocations (trace w') = invocations (trace w) ++ evs
      ∧ fired q r (successCallbacks_ w') evs.
Proof.
  induction q as [|cb rest [n1 IH]].
  - exists 1. intros w Hq. exists (Ok tt), w, []. split; [|split].
    + intros [|m] Hm; [by apply Nat.nle_succ_0 in Hm|].
      cbn [run body]. by apply drainSuccess_nil.
    + by rewrite app_nil_r.
    + done.
  - destruct (callSuccess_total cb) as [n2 Hcb].
    exists (S (n1 + n2)). intros w Hq.
    destruct (Hcb (set_successCallbacks rest w)) as (r1 & w1 & Hrun1 & Hq1 & Hi1).
    cbn [successCallbacks_ set_successCallbacks trace] in Hq1, Hi1.
    assert (∀ m, (S (n1 + n2) ≤ m)%nat →
              run cbs m CDrainSuccess w =
                match r1 with
                | Ok _ => run cbs (pred m) CDrainSuccess w1
                | Throw e => Some (Throw e, w1)
                end) as Hstep.
    { intros [|m] Hm; [by apply Nat.nle_succ_0 in Hm|].
      apply Nat.succ_le_mono in Hm.
      change (run cbs (S m) CDrainSuccess w)
        with (drainSuccess cbs (run cbs m) w).
      rewrite (drainSuccess_cons _ _ cb rest) by done. unfold bindF.
      rewrite Hrun1; [by destruct r1 as [[]|]|].
      etrans; [|exact Hm]. rewrite Nat.add_comm. apply Nat.le_add_r. }
    destruct r1 as [[]|e1].
    + destruct (IH w1 Hq1) as (r & w' & evs & Hrun & Hi & Hf).
      exists r, w', (bracket cb ++ evs). split; [|split].
      * intros m Hm. rewrite Hstep by done. apply Hrun.
        destruct m as [|m]; [by apply Nat.nle_succ_0 in Hm|].
        apply Nat.succ_le_mono in Hm. cbn [pred].
        etrans; [|exact Hm]. apply Nat.le_add_r.
      * by rewrite Hi, Hi1, <- app_assoc.
      * destruct r as [[]|e]; cbn in *.
        -- destruct Hf as [-> ->]. done.
        -- destruct Hf as (completed & cb' & -> & ->).
           exists (cb :: completed), cb'. split; [done|].
           cbn [fmap list_fmap concat]. by rewrite <- app_assoc.
    + exists (Throw e1), w1, [EvSuccessCallback (scId cb)]. split; [|split].
      * intros m Hm. by rewrite Hstep.
      * done.
      * exists [], cb. by rewrite Hq1.
Qed.

(** An asynchronous call during a load is the call of the plain
    controller, and so is a batch of them. *)
Lemma asyncCalls_plain self env (calls : list AsyncCall) (w : World) :
  ready_ w = LOADING →
  Reentrant.asyncCalls cbs self env calls w = Some (Run.asyncCalls env calls w).
Proof.
  revert w. induction calls as [|c calls IH]; intros w Hl; [done|].
  cbn [Reentrant.asyncCalls]. unfold Run.asyncCalls. cbn [forEach].
  unfold bindF, bind.
  rewrite async_call by (unfold Controller.fastPath; by rewrite Hl).
  rewrite initialize_async_loading by done.
  rewrite IH by done. reflexivity.
Qed.

End OneAtATime.

Section Queueing.

Import View Run Reentrant.

Variable cbs : Callbacks.
Hypothesis Hcbs : every asynchronous cbs.

Lemma appended_refl (w : World) : appended w w.
Proof. exists []. by rewrite app_nil_r. Qed.

Lemma appended_trans (a b c : World) : appended a b → appended b c → appended a c.
Proof. intros [p1 H1] [p2 H2]. exists (p1 ++ p2). by rewrite H2, H1, app_assoc. Qed.

Lemma aside_appended (a b : World) : aside a b → appended a b.
Proof. intros (H & _). exists []. by rewrite app_nil_r. Qed.

Section Step.

Variable self : Call → F unit.
Hypothesis Hself : Queueing self.

Lemma callSuccess_queues cb (w : World) r w' :
  callSuccess cbs self cb w = Some (r, w') →
  appended w w'
  ∧ ∃ more, trace w' = trace w ++ EvSuccessCallback (scId cb) :: more.
Proof.
  rewrite callSuccess_eq.
  destruct (self _ _) as [[r1 w1]|] eqn:E; [|by destruct r].
  destruct (Hself _ _ _ _ (proj1 Hcbs (scId cb)) E) as [Hq [evs Ht]].
  cbn [trace emit] in Ht.
  destruct r1 as [[]|e1]; [destruct (scRaises cb)|]; intros [= <- <-].
  - split; [done|]. exists evs. by rewrite Ht, <- app_assoc.
  - split; [done|]. exists (evs ++ [EvCallbackReturned (scId cb)]). cbn.
    by rewrite Ht, <- !app_assoc.
  - split; [done|]. exists evs. by rewrite Ht, <- app_assoc.
Qed.

Lemma async_call_queues env b t c ecb (w : World) r w' :
  initialize cbs self env b t (Some c) ecb w = Some (r, w') →
  appended w w' ∧ extends w w'.
Proof.
  destruct (Controller.fastPath w b t) eqn:Hf.
  { rewrite fast_call by done. intros H.
    destruct (callSuccess_queues _ _ _ _ H) as [Hq [more Ht]].
    split; [done|]. by eexists. }
  rewrite async_call by done.
  destruct (decide (ready_ w = LOADING)) as [Hl|Hl].
  - rewrite initialize_async_loading by done. intros [= <- <-]. split.
    + by exists [c].
    + exists []. cbn. by rewrite app_nil_r.
  - rewrite initialize_async_start by done. intros [= <- <-]. split.
    + by exists [c].
    + exists [EvDataInitialize b t; EvApiInitialize true]. cbn.
      by rewrite <- app_assoc.
Qed.

Lemma script_queues : Queueing (body cbs self).
Proof.
  intros s w r w' Hs. cbn [body].
  destruct s as [|e|env b t cb ecb next|next|next]; cbn [script asynchronous] in *.
  - intros [= <- <-]. split; [apply appended_refl | apply extends_refl].
  - intros [= <- <-]. split; [apply appended_refl | apply extends_refl].
  - destruct Hs as [[c ->] Hnext]. unfold bindF, attempt.
    destruct (initialize cbs self env b t (Some c) ecb w) as [[r1 w1]|] eqn:E;
      [|done].
    destruct (async_call_queues _ _ _ _ _ _ _ _ E) as [Hq Hx].
    intros H. destruct (Hself _ _ _ _ (Hnext r1) H) as [Hq' Hx'].
    split; [by apply (appended_trans w w1) | by apply (extends_trans w w1)].
  - unfold bindF, liftF.
    pose proof (aside_reset w) as Ha.
    destruct (Controller.reset w) as [[[]|e] w1]; cbn [snd] in *.
    + intros H. destruct (Hself _ _ _ _ Hs H) as [Hq' Hx'].
      split.
      * by apply (appended_trans w w1); [apply aside_appended|].
      * by apply (extends_trans w w1); [apply aside_extends|].
    + intros [= <- <-]. split; [by apply aside_appended | by apply aside_extends].
  - unfold bindF, liftF, get. intros H. exact (Hself _ _ _ _ (Hs _) H).
Qed.

End Step.

Lemma run_queues (n : nat) : Queueing (run cbs n).
Proof.
  induction n as [|n IH]; [by intros s w r w' _|].
  by apply script_queues.
Qed.

(** While a callback runs, nothing is taken from the queue. *)
Lemma invocation_queues (n : nat) cb (w : World) r w' :
  callSuccess cbs (run cbs n) cb w = Some (r, w') → appended w w'.
Proof. intros H. by destruct (callSuccess_queues _ (run_queues n) _ _ _ _ H). Qed.

(** The loop takes the callbacks from the front of the queue, which
    meanwhile only grows at the back. *)
Lemma drainSuccess_queues (n : nat) (w : World) r w' :
  run cbs n CDrainSuccess w = Some (r, w') →
  ∃ taken pushed evs,
    taken ++ successCallbacks_ w' = successCallbacks_ w ++ pushed
    ∧ (r = Ok tt → successCallbacks_ w' = [])
    ∧ trace w' = trace w ++ evs
    ∧ (scId <$> taken) `sublist_of` invokedSuccess evs.
Proof.
  revert w. induction n as [|n IH]; intros w; [done|].
  change (run cbs (S n) CDrainSuccess w) with (drainSuccess cbs (run cbs n) w).
  destruct (successCallbacks_ w) as [|cb rest] eqn:Hq.
  { rewrite drainSuccess_nil by done. intros [= <- <-].
    exists [], [], []. rewrite Hq, !app_nil_r. repeat split; try done. }
  rewrite (drainSuccess_cons _ _ cb rest) by done. unfold bindF.
  destruct (callSuccess cbs (run cbs n) cb _) as [[r1 w1]|] eqn:E; [|done].
  destruct (callSuccess_queues _ (run_queues n) _ _ _ _ E) as [[p1 Hq1] [more Ht]].
  cbn [successCallbacks_ set_successCallbacks trace] in Hq1, Ht.
  destruct r1 as [[]|e1].
  - intros H. destruct (IH _ H) as (taken & pushed & evs & Hqs & Hok & Ht' & Hsub).
    exists (cb :: taken), (p1 ++ pushed), ((EvSuccessCallback (scId cb) :: more) ++ evs).
    split; [|split; [done|split]].
    + cbn. rewrite Hqs, Hq1. by rewrite <- app_assoc.
    + by rewrite Ht', Ht, <- app_assoc.
    + rewrite invokedSuccess_app. cbn [fmap list_fmap].
      change (invokedSuccess (EvSuccessCallback (scId cb) :: more))
        with (scId cb :: invokedSuccess more).
      cbn. apply sublist_skip. by apply sublist_inserts_l.
  - intros [= <- <-]. exists [cb], p1, (EvSuccessCallback (scId cb) :: more).
    split; [|split; [done|split]].
    + cbn. by rewrite Hq1.
    + done.
    + change (invokedSuccess (EvSuccessCallback (scId cb) :: more))
        with (scId cb :: invokedSuccess more).
      cbn. apply sublist_skip, sublist_nil_l.
Qed.

End Queueing.

Section OneAtATimeClaim.

Import View Run Reentrant.

(** C6, as the code has it.  Asynchronous [ee.initialize] calls made
    during a load all return normally and leave their success callbacks in
    the queue behind those already there, in call order, none of them
    invoked.  Take callbacks none of which calls [ee.initialize]
    synchronously.  Then, while a callback runs, nothing is taken from the
    queue; and when the load completes, the bootstrap goes through and the
    success handler returns, the callbacks it took from the queue and
    invoked are, in this order, the queue and what was added to it
    meanwhile, up to the callback that raised if one did, the later ones
    being left in the queue.  When no callback calls [ee.initialize] at
    all, the success handler does come to an end, and the invocations are
    laid out one after the other: each callback returns before the next is
    invoked. *)
Theorem success_callbacks_fire_one_at_a_time cbs
    (env env' : Env) (c : Catalog) (calls : list AsyncCall) (w : World) :
  every asynchronous cbs →
  ready_ w = LOADING →
  let q := successCallbacks_ w ++ (acSuccess <$> calls) in
  let w1 :=
    set_successCallbacks q
      (set_errorCallbacks (errorCallbacks_ w ++ omap acError calls) w) in
  (∀ self, Reentrant.asyncCalls cbs self env calls w = Some (Ok tt, w1))
  ∧ (∀ n cb w0 r w', callSuccess cbs (run cbs n) cb w0 = Some (r, w') →
       appended w0 w')
  ∧ ((Controller.bootstrap env' (set_api c w1)).1 = Ok tt →
     (∀ n r w3,
        loadSucceeded cbs (run cbs n) env' c w1 = Some (r, w3) →
        ∃ taken pushed inv,
          taken ++ successCallbacks_ w3 = q ++ pushed
          ∧ (r = Ok tt → successCallbacks_ w3 = [])
          ∧ invokedSuccess (trace w3) = invokedSuccess (trace w) ++ inv
          ∧ (scId <$> taken) `sublist_of` inv)
     ∧ (every noInitialize cbs →
        ∃ n r w3 evs,
          (∀ m, (n ≤ m)%nat →
             loadSucceeded cbs (run cbs m) env' c w1 = Some (r, w3))
          ∧ invocations (trace w3) = invocations (trace w) ++ evs
          ∧ fired q r (successCallbacks_ w3) evs)).
Proof.
  intros Hcbs Hl. cbv zeta.
  set (q := successCallbacks_ w ++ (acSuccess <$> calls)).
  set (w1 := set_successCallbacks q
               (set_errorCallbacks (errorCallbacks_ w ++ omap acError calls) w)).
  split; [|split].
  { intros self. rewrite asyncCalls_plain by done.
    by rewrite asyncCalls_spec. }
  { intros n cb w0 r w'. by apply invocation_queues. }
  intros Hb.
  pose proof (aside_bootstrap env' (set_api c w1)) as Ha.
  pose proof (silent_bootstrap env' (set_api c w1)) as (Hrb & _).
  destruct (Controller.bootstrap env' (set_api c w1)) as [[[]|e] w2] eqn:Eb;
    [|done].
  cbn [snd] in Ha, Hrb.
  destruct (aside_invoked _ _ Ha) as (Hs2 & _ & Hi2).
  destruct Ha as (Hq2 & _ & _).
  change (invokedSuccess (trace w2) = invokedSuccess (trace w)) in Hs2.
  change (invocations (trace w2) = invocations (trace w)) in Hi2.
  change (successCallbacks_ w2 = q) in Hq2.
  assert (∀ m, loadSucceeded cbs (run cbs m) env' c w1
               = run cbs (S m) CDrainSuccess
                   (set_errorCallbacks [] (set_ready READY w2))) as Hload.
  { intros m. unfold loadSucceeded, bindF, liftF. cbn [modify].
    rewrite success_loading by done. by rewrite Eb. }
  split.
  - intros n r w3. rewrite Hload. intros H.
    destruct (drainSuccess_queues cbs Hcbs _ _ _ _ H)
      as (taken & pushed & evs & Hqs & Hok & Ht & Hsub).
    cbn [successCallbacks_ set_errorCallbacks set_ready trace] in Hqs, Ht.
    exists taken, pushed, (invokedSuccess evs).
    split; [by rewrite Hqs, Hq2|]. split; [done|]. split; [|done].
    by rewrite Ht, invokedSuccess_app, Hs2.
  - intros Hno. destruct (drainSuccess_total cbs Hno q) as [n Hn]. exists n.
    destruct (Hn (set_errorCallbacks [] (set_ready READY w2)) Hq2)
      as (r & w3 & evs & Hrun & Hi & Hf).
    change (invocations (trace w3) = invocations (trace w2) ++ evs) in Hi.
    exists r, w3, evs. split; [|split].
    + intros m Hm. rewrite Hload. apply Hrun. by apply Nat.le_le_succ_r.
    + by rewrite Hi, <- Hi2.
    + done.
Qed.

Lemma resetting_noInitialize : every noInitialize Sample.resetting.
Proof. split; [|done]. intros i. cbn. by destruct (Nat.eqb i 2). Qed.

Lemma resetting_asynchronous : every asynchronous Sample.resetting.
Proof. split; [|done]. intros i. cbn. by destruct (Nat.eqb i 2). Qed.

Lemma loadSucceeded_more cbs (n m : nat) env c :
  (n ≤ m)%nat →
  leF (loadSucceeded cbs (run cbs n) env c) (loadSucceeded cbs (run cbs m) env c).
Proof.
  intros H. unfold loadSucceeded. apply leF_bind; [apply leF_refl|].
  intros _. by apply initializationSuccess_mono, run_more.
Qed.

Lemma success_callbacks_fire_one_at_a_time_witness :
  let w1 :=
    set_successCallbacks [Sample.onSuccess 1; Sample.onSuccess 2; Sample.onSuccess 3]
      (set_errorCallbacks [Sample.onError 2; Sample.onError 9] Sample.loadingWorld) in
  ∃ w3,
    loadSucceeded Sample.resetting (run Sample.resetting 9) Sample.envOk
      Sample.catalog w1 = Some (Ok tt, w3)
    ∧ successCallbacks_ w3 = []
    ∧ invocations (trace w3)
      = [EvSuccessCallback 1; EvCallbackReturned 1;
         EvSuccessCallback 2; EvCallbackReturned 2;
         EvSuccessCallback 3; EvCallbackReturned 3].
Proof.
  cbv zeta.
  destruct (success_callbacks_fire_one_at_a_time Sample.resetting
              Sample.envOk Sample.envOk Sample.catalog
              [ {| acBaseurl := None; acTileurl := None;
                   acSuccess := Sample.onSuccess 2; acError := None |};
                {| acBaseurl := None; acTileurl := None;
                   acSuccess := Sample.onSuccess 3;
                   acError := Some (Sample.onError 9) |} ]
              Sample.loadingWorld resetting_asynchronous eq_refl)
    as (_ & _ & Hload).
  destruct Hload as [_ Hload]; [vm_compute; reflexivity|].
  destruct (Hload resetting_noInitialize) as (n & r & w3 & evs & Hrun & Hi & Hf).
  set (w1 := set_successCallbacks _ _) in *.
  destruct (loadSucceeded Sample.resetting (run Sample.resetting 9)
              Sample.envOk Sample.catalog w1) as [[r9 w9]|] eqn:E;
    [|vm_compute in E; discriminate E].
  assert (option_map fst
            (loadSucceeded Sample.resetting (run Sample.resetting 9)
               Sample.envOk Sample.catalog w1) = Some (Ok tt)) as Hr9
    by (vm_compute; reflexivity).
  rewrite E in Hr9. injection Hr9 as ->.
  pose proof (loadSucceeded_more Sample.resetting 9 (9 + n) Sample.envOk
                Sample.catalog (Nat.le_add_r 9 n) w1 _ E) as E'.
  rewrite (Hrun (9 + n)) in E' by (rewrite Nat.add_comm; apply Nat.le_add_r).
  injection E' as -> ->.
  exists w9. split; [reflexivity|].
  destruct Hf as [Hq ->]. split; [exact Hq|]. rewrite Hi. reflexivity.
Defined.

(** C6, as stated, fails: a success callback that calls [ee.initialize]
    synchronously with a URL has the nested resolution take the callbacks
    behind it from the queue and invoke them before it returns. *)
Lemma nested_call_runs_the_queue : ¬ Stated.callbacks_fire_one_at_a_time.
Proof.
  intros H.
  set (w2 := set_successCallbacks [Sample.onSuccess 2; Sample.onSuccess 3]
               (set_errorCallbacks []
                  (set_ready READY
                     (Controller.bootstrap Sample.envOk
                        (set_api Sample.catalog Sample.threeQueued)).2))).
  destruct (callSuccess Sample.nested (run Sample.nested 9) (Sample.onSuccess 1) w2)
    as [[r w']|] eqn:E; [|vm_compute in E; discriminate E].
  assert (option_map (λ x, successCallbacks_ x.2)
            (callSuccess Sample.nested (run Sample.nested 9) (Sample.onSuccess 1) w2)
          = Some []) as Hq by (vm_compute; reflexivity).
  rewrite E in Hq. injection Hq as Hq. cbn [snd] in Hq.
  destruct (H Sample.nested 9 Sample.envOk Sample.catalog Sample.threeQueued
              (Sample.onSuccess 1) [Sample.onSuccess 2; Sample.onSuccess 3]
              r w' eq_refl eq_refl eq_refl E) as [pushed Hp].
  rewrite Hq in Hp. discriminate Hp.
Qed.

(** In that run the second and third callbacks are invoked, and return,
    while the first is still running. *)
Lemma nested_call_runs_the_queue_trace :
  option_map (λ x, (x.1, invocations (trace x.2)))
    (loadSucceeded Sample.nested (run Sample.nested 9) Sample.envOk
       Sample.catalog Sample.threeQueued)
  = Some (Ok tt,
          [EvSuccessCallback 1;
           EvSuccessCallback 2; EvCallbackReturned 2;
           EvSuccessCallback 3; EvCallbackReturned 3;
           EvCallbackReturned 1]).
Proof. vm_compute. reflexivity. Qed.

End OneAtATimeClaim.

(** ** The fast path *)

Section FastPathAgain.

Import View Run Reentrant.

(** C5, as the code has it.  In state READY a call that passes no
    endpoint (each URL absent, null or empty) does not start the bootstrap
    again: all it does is invoke the success callback, when there is one,
    before it returns; without one nothing changes.  When the callback
    makes no call into the library itself, the state is READY afterwards
    and no transport configuration or signature load has taken place: the
    world has gained the invocation of the callback (and its return, unless
    it raised) and nothing else. *)
Theorem ready_without_endpoint_only_calls_back
    cbs (env : Env) (b t : option string) (cb : option SuccessCallback)
    (ecb : option ErrorCallback) (w : World) :
  ready_ w = READY → Controller.truthy b = false → Controller.truthy t = false →
  (∀ self,
     initialize cbs self env b t cb ecb w =
       match cb with
       | Some c => callSuccess cbs self c w
       | None => Some (Ok tt, w)
       end)
  ∧ (∀ c n, cb = Some c → plainSuccess cbs c →
       let r := initialize cbs (run cbs (S n)) env b t cb ecb w in
       r = Some match scRaises c with
                | Some e => (Throw e, emit (EvSuccessCallback (scId c)) w)
                | None => (Ok tt, emits (bracket c) w)
                end
       ∧ ∀ o w', r = Some (o, w') →
           ready_ w' = READY ∧ bootstraps (trace w') = bootstraps (trace w)).
Proof.
  intros Hr Hb Ht.
  assert (∀ self,
            initialize cbs self env b t cb ecb w =
              match cb with
              | Some c => callSuccess cbs self c w
              | None => Some (Ok tt, w)
              end) as Hfast.
  { intros self. apply fast_call. by apply fastPath_true. }
  split; [exact Hfast|]. intros c n -> Hp. cbv zeta.
  rewrite Hfast, callSuccess_plain by done. split.
  - destruct (scRaises c); [done|]. f_equal. f_equal.
    unfold emits, emit, bracket. cbn. by rewrite <- app_assoc.
  - intros o w' H. destruct (scRaises c); injection H as <- <-; cbn.
    + split; [done|]. unfold bootstraps. rewrite filter_app. cbn.
      by rewrite app_nil_r.
    + split; [done|]. unfold bootstraps. rewrite !filter_app. cbn.
      by rewrite !app_nil_r.
Qed.

Lemma ready_without_endpoint_only_calls_back_witness :
  let w := (Controller.initialize Sample.envOk Sample.endpoint None None None
              Sample.initialWorld).2 in
  ready_ w = READY
  ∧ initialize plainCallbacks (run plainCallbacks 1) Sample.envOk None (Some "")
      (Some (Sample.onSuccess 3)) None w
    = Some (Ok tt, emits [EvSuccessCallback 3; EvCallbackReturned 3] w).
Proof.
  cbv zeta. split; [vm_compute; reflexivity|].
  refine (proj1 (proj2 (ready_without_endpoint_only_calls_back plainCallbacks
                          Sample.envOk None (Some "") (Some (Sample.onSuccess 3))
                          None _ _ eq_refl eq_refl)
                   (Sample.onSuccess 3) 0 eq_refl eq_refl)).
  vm_compute. reflexivity.
Defined.

(** A success callback that calls [ee.reset()] is invoked on the fast
    path like any other, and the state is then NOT_READY when the call
    returns. *)
Lemma fast_path_callback_may_reset :
  let w := (Controller.initialize Sample.envOk Sample.endpoint None None None
              Sample.initialWorld).2 in
  ready_ w = READY
  ∧ option_map (λ x, (x.1, ready_ x.2))
      (initialize Sample.resetting (run Sample.resetting 9) Sample.envOk None
         None (Some (Sample.onSuccess 2)) None w)
    = Some (Ok tt, NOT_READY).
Proof. split; vm_compute; reflexivity. Qed.

End FastPathAgain.

(** ** Resolution with callbacks that make no call into the library *)

Section PlainResolution.

Import View Generator Run Reentrant.

Variable cbs : Callbacks.

(** X5.  A synchronous [ee.initialize] off the fast path, with a load and
    a bootstrap in which nothing raises and queued success callbacks that
    return normally and make no call into the library: the call returns
    normally in state READY; the success callbacks queued by earlier
    asynchronous calls have been invoked, in queue order; the queued error
    callbacks have been dropped without being invoked; both queues are
    empty. *)
Theorem synchronous_call_succeeds env b t c (w : World) (m : nat) :
  Controller.fastPath w b t = false →
  apiInitialize env = Ok c →
  calm env →
  Forall (plainSuccess cbs) (successCallbacks_ w) →
  Forall quietSuccess (successCallbacks_ w) →
  (length (successCallbacks_ w) ≤ m)%nat →
  ∃ w',
    initialize cbs (run cbs m) env b t None None w = Some (Ok tt, w')
    ∧ ready_ w' = READY
    ∧ successCallbacks_ w' = []
    ∧ errorCallbacks_ w' = []
    ∧ invokedSuccess (trace w')
      = invokedSuccess (trace w) ++ (scId <$> successCallbacks_ w)
    ∧ invokedError (trace w') = invokedError (trace w).
Proof.
  intros Hf Hc Hcalm Hp Hq Hm.
  rewrite sync_call by done. rewrite Hc.
  set (w3 := set_api c _). unfold tryCatchF.
  rewrite success_loading by done.
  pose proof (calm_bootstrap env Hcalm w3) as Hok.
  pose proof (silent_bootstrap env w3) as (_ & Hsq & _ & Hs & He).
  destruct (Controller.bootstrap env w3) as [[[]|e] w4]; [|done].
  cbn [snd] in Hsq, Hs, He.
  change (successCallbacks_ w4 = successCallbacks_ w) in Hsq.
  change (drainSuccess cbs (run cbs m) ?x) with (run cbs (S m) CDrainSuccess x).
  rewrite (drainSuccess_plain cbs (successCallbacks_ w));
    [|done|done|by apply Nat.lt_succ_r].
  destruct (drained_quiet _ Hq) as (Hd & -> & ->).
  eexists. split; [reflexivity|]. cbn.
  destruct (invoked_firing (successCallbacks_ w)) as [Hi1 Hi2].
  rewrite Hd in Hi1.
  repeat split.
  - rewrite invokedSuccess_app, Hi1, Hs.
    subst w3. cbn. by rewrite !invokedSuccess_app, !app_nil_r.
  - rewrite invokedError_app, Hi2, He.
    subst w3. cbn. by rewrite !invokedError_app, !app_nil_r.
Qed.

(** X6.  A synchronous [ee.initialize] off the fast path whose signature
    load raises [e], with queued error callbacks that return normally and
    make no call into the library: the call raises [e]; the state is
    NOT_READY; the error callbacks have been invoked with [e], in queue
    order, each returning before the next is invoked, and the success
    callbacks dropped; no hook was run and the namespace is untouched. *)
Theorem synchronous_load_failure_is_reraised env b t e (w : World) (m : nat) :
  Controller.fastPath w b t = false →
  apiInitialize env = Throw e →
  Forall (plainError cbs) (errorCallbacks_ w) →
  Forall quietError (errorCallbacks_ w) →
  (length (errorCallbacks_ w) ≤ m)%nat →
  initialize cbs (run cbs m) env b t None None w =
    Some (Throw e,
          set_errorCallbacks []
            (emits (firingError e (errorCallbacks_ w))
               (set_successCallbacks []
                  (set_ready NOT_READY (loadingWorld b t w))))).
Proof.
  intros Hf He Hp Hq Hm. rewrite sync_call by done. rewrite He.
  unfold bindF. rewrite failure_loading by done.
  change (drainError cbs (run cbs m) e ?x) with (run cbs (S m) (CDrainError e) x).
  rewrite (drainError_plain cbs e (errorCallbacks_ w));
    [|done|done|by apply Nat.lt_succ_r].
  by destruct (drainedError_quiet e _ Hq) as (_ & -> & ->).
Qed.

(** X7.  The failure handler during a load, with queued error callbacks
    that make no call into the library: the state becomes NOT_READY, the
    success callbacks are dropped without being invoked, and the error
    callbacks are taken from the queue in order and invoked with the
    error, up to the first that raises; what that one raises is raised by
    the handler, and the callbacks behind it stay in the queue. *)
Theorem failure_handler_drains_error_queue (e : Error) (w : World) (m : nat) :
  ready_ w = LOADING →
  Forall (plainError cbs) (errorCallbacks_ w) →
  (length (errorCallbacks_ w) ≤ m)%nat →
  let q := errorCallbacks_ w in
  ∃ w',
    initializationFailure_ cbs (run cbs m) e w = Some (drainErrorOutcome e q, w')
    ∧ ready_ w' = NOT_READY
    ∧ successCallbacks_ w' = []
    ∧ errorCallbacks_ w' = undrainedError e q
    ∧ invokedError (trace w')
      = invokedError (trace w) ++ ((λ cb, (ecId cb, e)) <$> drainedError e q)
    ∧ invokedSuccess (trace w') = invokedSuccess (trace w).
Proof.
  intros Hl Hp Hm. cbv zeta. rewrite failure_loading by done.
  change (drainError cbs (run cbs m) e ?x) with (run cbs (S m) (CDrainError e) x).
  rewrite (drainError_plain cbs e (errorCallbacks_ w));
    [|done|done|by apply Nat.lt_succ_r].
  eexists. split; [reflexivity|]. cbn.
  destruct (invoked_firingError e (errorCallbacks_ w)) as [Hi1 Hi2].
  repeat split.
  - by rewrite invokedError_app, Hi1.
  - by rewrite invokedSuccess_app, Hi2, app_nil_r.
Qed.

(** X8.  The success handler during a load, when the bootstrap goes
    through and the queued success callbacks make no call into the
    library: the state becomes READY and the queued error callbacks are
    dropped, none of them invoked. *)
Theorem success_handler_drops_error_callbacks env (w : World) (m : nat) :
  ready_ w = LOADING →
  calm env →
  Forall (plainSuccess cbs) (successCallbacks_ w) →
  (length (successCallbacks_ w) ≤ m)%nat →
  ∃ r w',
    initializationSuccess_ cbs (run cbs m) env w = Some (r, w')
    ∧ ready_ w' = READY
    ∧ errorCallbacks_ w' = []
    ∧ invokedError (trace w') = invokedError (trace w).
Proof.
  intros Hl Hcalm Hp Hm. rewrite success_loading by done.
  pose proof (calm_bootstrap env Hcalm w) as Hok.
  pose proof (silent_bootstrap env w) as (_ & Hsq & _ & _ & He).
  destruct (Controller.bootstrap env w) as [[[]|e] w1]; [|done].
  cbn [snd] in Hsq, He.
  change (drainSuccess cbs (run cbs m) ?x) with (run cbs (S m) CDrainSuccess x).
  rewrite (drainSuccess_plain cbs (successCallbacks_ w));
    [|done|done|by apply Nat.lt_succ_r].
  eexists _, _. split; [reflexivity|]. cbn.
  destruct (invoked_firing (successCallbacks_ w)) as [_ Hi2].
  repeat split. by rewrite invokedError_app, Hi2, app_nil_r.
Qed.

End PlainResolution.

Section PlainResolutionSamples.

Import View Run Reentrant.

Lemma envOk_calm : calm Sample.envOk.
Proof. repeat split; by eauto. Qed.

Lemma synchronous_call_succeeds_witness :
  ∃ w',
    initialize plainCallbacks (run plainCallbacks 1) Sample.envOk None None
      None None Sample.loadingWorld = Some (Ok tt, w')
    ∧ ready_ w' = READY
    ∧ invokedSuccess (trace w') = [1]
    ∧ invokedError (trace w') = [].
Proof.
  destruct (synchronous_call_succeeds plainCallbacks Sample.envOk None None
              Sample.catalog Sample.loadingWorld 1)
    as (w' & H & Hr & _ & _ & Hs & He).
  - vm_compute. reflexivity.
  - reflexivity.
  - exact envOk_calm.
  - vm_compute. repeat constructor.
  - vm_compute. repeat constructor.
  - vm_compute. constructor.
  - exists w'. split; [exact H|]. split; [exact Hr|].
    split; [rewrite Hs | rewrite He]; vm_compute; reflexivity.
Defined.

Lemma synchronous_load_failure_is_reraised_witness :
  ∃ w',
    initialize plainCallbacks (run plainCallbacks 1) Sample.envLoadFails None
      None None None Sample.loadingWorld = Some (Throw Sample.loadError, w')
    ∧ ready_ w' = NOT_READY
    ∧ invokedError (trace w') = [(2, Sample.loadError)]
    ∧ invokedSuccess (trace w') = [].
Proof.
  eexists. split.
  - apply (synchronous_load_failure_is_reraised plainCallbacks
             Sample.envLoadFails None None Sample.loadError Sample.loadingWorld 1).
    + vm_compute. reflexivity.
    + reflexivity.
    + vm_compute. repeat constructor.
    + vm_compute. repeat constructor.
    + vm_compute. constructor.
  - vm_compute. by repeat split.
Defined.

Lemma failure_handler_drains_error_queue_witness :
  let w := (Run.asyncCalls Sample.envOk
              [ {| acBaseurl := None; acTileurl := None;
                   acSuccess := Sample.onSuccess 1;
                   acError := Some (Sample.onError 5) |};
                {| acBaseurl := None; acTileurl := None;
                   acSuccess := Sample.onSuccess 2;
                   acError := Some (Sample.onError 6) |} ]
              Sample.initialWorld).2 in
  ∃ w',
    initializationFailure_ plainCallbacks (run plainCallbacks 2)
      Sample.loadError w = Some (Ok tt, w')
    ∧ invokedError (trace w') = [(5, Sample.loadError); (6, Sample.loadError)]
    ∧ invokedSuccess (trace w') = [].
Proof.
  cbv zeta. set (w := (Run.asyncCalls _ _ _).2).
  destruct (failure_handler_drains_error_queue plainCallbacks Sample.loadError w 2)
    as (w' & H & _ & _ & _ & He & Hs).
  - vm_compute. reflexivity.
  - vm_compute. repeat constructor.
  - vm_compute. repeat constructor.
  - exists w'. split; [exact H|].
    split; [rewrite He | rewrite Hs]; vm_compute; reflexivity.
Defined.

Lemma success_handler_drops_error_callbacks_witness :
  errorCallbacks_ Sample.loadingWorld = [Sample.onError 2]
  ∧ ∃ r w',
      initializationSuccess_ plainCallbacks (run plainCallbacks 1) Sample.envOk
        Sample.loadingWorld = Some (r, w')
      ∧ ready_ w' = READY
      ∧ errorCallbacks_ w' = []
      ∧ invokedError (trace w') = [].
Proof.
  split; [vm_compute; reflexivity|].
  destruct (success_handler_drops_error_callbacks plainCallbacks Sample.envOk
              Sample.loadingWorld 1) as (r & w' & H & Hr & He & Ht).
  - vm_compute. reflexivity.
  - exact envOk_calm.
  - vm_compute. repeat constructor.
  - vm_compute. constructor.
  - exists r, w'. split; [exact H|]. split; [exact Hr|]. split; [exact He|].
    rewrite Ht. vm_compute. reflexivity.
Defined.

End PlainResolutionSamples.
